(** * LocalParticipant: track publication lifecycle

    A shallow embedding of [lib/localparticipant.js] (twilio-video.js): the
    [LocalParticipant] class, its [updated] listener, the disconnect
    teardown and the module-level helper [getTrackPublication].

    The JavaScript object graph is modelled by explicit state passing:
    one record [State] holds the participant's registries, the signaling
    collaborator, the heap of TrackSignaling records (they are shared
    between [signaling.tracks] and the closures that listen on them), the
    [setTimeout] queue, and a trace of the externally visible effects. *)

From stdpp Require Import base list strings.

Open Scope string_scope.
Open Scope list_scope.
Open Scope nat_scope.

(** ** JavaScript [Map]

    A [Map] iterates in insertion order, [set] on an existing key keeps the
    key's position, and [getTrackPublication] searches [values()] in that
    order: the map is an association list without duplicate keys. *)
Module JsMap.

Definition t (V : Type) : Type := list (string * V).

Definition empty {V} : t V := [].

Fixpoint get {V} (m : t V) (k : string) : option V :=
  match m with
  | [] => None
  | (k', v) :: m' => if decide (k' = k) then Some v else get m' k
  end.

Definition has {V} (m : t V) (k : string) : bool :=
  match get m k with Some _ => true | None => false end.

Fixpoint set {V} (m : t V) (k : string) (v : V) : t V :=
  match m with
  | [] => [(k, v)]
  | (k', v') :: m' =>
      if decide (k' = k) then (k, v) :: m' else (k', v') :: set m' k v
  end.

Fixpoint delete {V} (m : t V) (k : string) : t V :=
  match m with
  | [] => []
  | (k', v') :: m' =>
      if decide (k' = k) then delete m' k else (k', v') :: delete m' k
  end.

Definition keys {V} (m : t V) : list string := map fst m.
Definition values {V} (m : t V) : list V := map snd m.

End JsMap.

(** ** Data model *)

Inductive Kind := audio | video | data.

(** A browser MediaStreamTrack carries audio or video, never data. *)
Inductive MediaKind := media_audio | media_video.

Definition kind_of_media (k : MediaKind) : Kind :=
  match k with media_audio => audio | media_video => video end.

(** JavaScript compares objects by reference ([===]). Every object carries
    its reference in a [*_ref] field, so two records are equal exactly when
    they denote the same object. *)
Record MediaStreamTrack := {
  mst_ref : nat;
  mst_id : string;
  mst_kind : MediaKind
}.

Record LocalTrack := {
  track_ref : nat;
  track_id : string;
  track_kind : Kind;
  track_name : string;
  mediaStreamTrack : option MediaStreamTrack  (* undefined on a LocalDataTrack *)
}.

(** The values a caller can pass to the public methods. *)
#[warnings="-register-all"] Inductive Value :=
| VUndefined
| VOther (n : nat)                      (* any other value without an [id]: no track, no array, not null *)
| VLocalTrack (t : LocalTrack)          (* a LocalAudioTrack, LocalVideoTrack or LocalDataTrack *)
| VMediaStreamTrack (m : MediaStreamTrack)
| VArray (elements : list Value)        (* an array, which has no [id] of its own *)
| VNull
| VObject (id : string).                (* any other value with this [id]: no track, no array *)

Inductive Error :=
| INVALID_TYPE (name description : string)  (* E.INVALID_TYPE(name, description) *)
| ErrCannotBePublished (t : LocalTrack)     (* Error(`Unexpected error: The ${localTrack} cannot be published`) *)
| ErrWasUnpublished (t : LocalTrack)        (* Error(`The ${localTrack} was unpublished`) *)
| SignalingError (code : N)                 (* an error reported by the signaling collaborator *)
| TypeError (message : string).             (* raised by the JavaScript runtime *)

Record Publication := {
  pub_track : LocalTrack;
  trackSid : string
}.

Definition pub_kind (p : Publication) : Kind := track_kind (pub_track p).

(** The closure [updated] of one [new Promise]: it captures [localTrack],
    [trackSignaling] and the promise's [resolve]/[reject]. *)
Record Listener := {
  l_promise : nat;
  l_track : LocalTrack;
  l_signaling : nat
}.

Record TrackSignaling := {
  ts_id : string;
  ts_name : string;
  ts_error : option Error;
  ts_sid : option string;
  ts_listeners : list Listener          (* listeners of 'updated', oldest first *)
}.

Inductive Event :=
| trackAdded (t : LocalTrack)
| trackRemoved (t : LocalTrack)
| trackPublished (p : Publication)
| trackPublicationFailed (e : Error) (t : LocalTrack).

(** The functions that [_handleTrackSignalingEvents] registers. *)
Inductive Handler :=
| HLocalTrackAdded | HLocalTrackDisabled | HLocalTrackEnabled
| HLocalTrackRemoved | HStateChanged.

Inductive Effect :=
| Emit (e : Event)                      (* this.emit(...), delivered synchronously *)
| Resolve (promise : nat) (p : Publication)
| Reject (promise : nat) (e : Error)
| Stop (t : LocalTrack)                 (* track.stop() *)
| RemoveListener (h : Handler).

#[global] Instance Kind_eq_dec : EqDecision Kind.
Proof. solve_decision. Defined.
#[global] Instance MediaKind_eq_dec : EqDecision MediaKind.
Proof. solve_decision. Defined.
#[global] Instance MediaStreamTrack_eq_dec : EqDecision MediaStreamTrack.
Proof. solve_decision. Defined.
#[global] Instance LocalTrack_eq_dec : EqDecision LocalTrack.
Proof. solve_decision. Defined.
#[global] Instance Error_eq_dec : EqDecision Error.
Proof. solve_decision. Defined.
#[global] Instance Publication_eq_dec : EqDecision Publication.
Proof. solve_decision. Defined.
#[global] Instance Listener_eq_dec : EqDecision Listener.
Proof. solve_decision. Defined.
#[global] Instance Handler_eq_dec : EqDecision Handler.
Proof. solve_decision. Defined.

(** ** Program state *)

Record State := mkState {
  tracks : JsMap.t LocalTrack;
  trackPublications : JsMap.t Publication;
  audioTrackPublications : JsMap.t Publication;
  videoTrackPublications : JsMap.t Publication;
  dataTrackPublications : JsMap.t Publication;
  _tracksToStop : list LocalTrack;
  handlers : list Handler;
  signaling_state : string;
  signaling_tracks : JsMap.t nat;
  heap : list TrackSignaling;
  timers : list Event;
  trace : list Effect;
  next_promise : nat;
  next_ref : nat
}.

Definition with_tracks (x : JsMap.t LocalTrack) (s : State) : State :=
  {| tracks := x; trackPublications := trackPublications s;
     audioTrackPublications := audioTrackPublications s;
     videoTrackPublications := videoTrackPublications s;
     dataTrackPublications := dataTrackPublications s;
     _tracksToStop := _tracksToStop s; handlers := handlers s;
     signaling_state := signaling_state s;
     signaling_tracks := signaling_tracks s; heap := heap s;
     timers := timers s; trace := trace s; next_promise := next_promise s;
     next_ref := next_ref s |}.

Definition with_trackPublications (x : JsMap.t Publication) (s : State) : State :=
  {| tracks := tracks s; trackPublications := x;
     audioTrackPublications := audioTrackPublications s;
     videoTrackPublications := videoTrackPublications s;
     dataTrackPublications := dataTrackPublications s;
     _tracksToStop := _tracksToStop s; handlers := handlers s;
     signaling_state := signaling_state s;
     signaling_tracks := signaling_tracks s; heap := heap s;
     timers := timers s; trace := trace s; next_promise := next_promise s;
     next_ref := next_ref s |}.

Definition with_audioTrackPublications (x : JsMap.t Publication) (s : State) : State :=
  {| tracks := tracks s; trackPublications := trackPublications s;
     audioTrackPublications := x;
     videoTrackPublications := videoTrackPublications s;
     dataTrackPublications := dataTrackPublications s;
     _tracksToStop := _tracksToStop s; handlers := handlers s;
     signaling_state := signaling_state s;
     signaling_tracks := signaling_tracks s; heap := heap s;
     timers := timers s; trace := trace s; next_promise := next_promise s;
     next_ref := next_ref s |}.

Definition with_videoTrackPublications (x : JsMap.t Publication) (s : State) : State :=
  {| tracks := tracks s; trackPublications := trackPublications s;
     audioTrackPublications := audioTrackPublications s;
     videoTrackPublications := x;
     dataTrackPublications := dataTrackPublications s;
     _tracksToStop := _tracksToStop s; handlers := handlers s;
     signaling_state := signaling_state s;
     signaling_tracks := signaling_tracks s; heap := heap s;
     timers := timers s; trace := trace s; next_promise := next_promise s;
     next_ref := next_ref s |}.

Definition with_dataTrackPublications (x : JsMap.t Publication) (s : State) : State :=
  {| tracks := tracks s; trackPublications := trackPublications s;
     audioTrackPublications := audioTrackPublications s;
     videoTrackPublications := videoTrackPublications s;
     dataTrackPublications := x; _tracksToStop := _tracksToStop s;
     handlers := handlers s; signaling_state := signaling_state s;
     signaling_tracks := signaling_tracks s; heap := heap s;
     timers := timers s; trace := trace s; next_promise := next_promise s;
     next_ref := next_ref s |}.

Definition with_handlers (x : list Handler) (s : State) : State :=
  {| tracks := tracks s; trackPublications := trackPublications s;
     audioTrackPublications := audioTrackPublications s;
     videoTrackPublications := videoTrackPublications s;
     dataTrackPublications := dataTrackPublications s;
     _tracksToStop := _tracksToStop s; handlers := x;
     signaling_state := signaling_state s;
     signaling_tracks := signaling_tracks s; heap := heap s;
     timers := timers s; trace := trace s; next_promise := next_promise s;
     next_ref := next_ref s |}.

Definition with_signaling_state (x : string) (s : State) : State :=
  {| tracks := tracks s; trackPublications := trackPublications s;
     audioTrackPublications := audioTrackPublications s;
     videoTrackPublications := videoTrackPublications s;
     dataTrackPublications := dataTrackPublications s;
     _tracksToStop := _tracksToStop s; handlers := handlers s;
     signaling_state := x; signaling_tracks := signaling_tracks s;
     heap := heap s; timers := timers s; trace := trace s;
     next_promise := next_promise s; next_ref := next_ref s |}.

Definition with_signaling_tracks (x : JsMap.t nat) (s : State) : State :=
  {| tracks := tracks s; trackPublications := trackPublications s;
     audioTrackPublications := audioTrackPublications s;
     videoTrackPublications := videoTrackPublications s;
     dataTrackPublications := dataTrackPublications s;
     _tracksToStop := _tracksToStop s; handlers := handlers s;
     signaling_state := signaling_state s; signaling_tracks := x;
     heap := heap s; timers := timers s; trace := trace s;
     next_promise := next_promise s; next_ref := next_ref s |}.

Definition with_heap (x : list TrackSignaling) (s : State) : State :=
  {| tracks := tracks s; trackPublications := trackPublications s;
     audioTrackPublications := audioTrackPublications s;
     videoTrackPublications := videoTrackPublications s;
     dataTrackPublications := dataTrackPublications s;
     _tracksToStop := _tracksToStop s; handlers := handlers s;
     signaling_state := signaling_state s;
     signaling_tracks := signaling_tracks s; heap := x; timers := timers s;
     trace := trace s; next_promise := next_promise s;
     next_ref := next_ref s |}.

Definition with_timers (x : list Event) (s : State) : State :=
  {| tracks := tracks s; trackPublications := trackPublications s;
     audioTrackPublications := audioTrackPublications s;
     videoTrackPublications := videoTrackPublications s;
     dataTrackPublications := dataTrackPublications s;
     _tracksToStop := _tracksToStop s; handlers := handlers s;
     signaling_state := signaling_state s;
     signaling_tracks := signaling_tracks s; heap := heap s; timers := x;
     trace := trace s; next_promise := next_promise s;
     next_ref := next_ref s |}.

Definition with_trace (x : list Effect) (s : State) : State :=
  {| tracks := tracks s; trackPublications := trackPublications s;
     audioTrackPublications := audioTrackPublications s;
     videoTrackPublications := videoTrackPublications s;
     dataTrackPublications := dataTrackPublications s;
     _tracksToStop := _tracksToStop s; handlers := handlers s;
     signaling_state := signaling_state s;
     signaling_tracks := signaling_tracks s; heap := heap s;
     timers := timers s; trace := x; next_promise := next_promise s;
     next_ref := next_ref s |}.

Definition with_next_promise (x : nat) (s : State) : State :=
  {| tracks := tracks s; trackPublications := trackPublications s;
     audioTrackPublications := audioTrackPublications s;
     videoTrackPublications := videoTrackPublications s;
     dataTrackPublications := dataTrackPublications s;
     _tracksToStop := _tracksToStop s; handlers := handlers s;
     signaling_state := signaling_state s;
     signaling_tracks := signaling_tracks s; heap := heap s;
     timers := timers s; trace := trace s; next_promise := x;
     next_ref := next_ref s |}.

Definition with_next_ref (x : nat) (s : State) : State :=
  {| tracks := tracks s; trackPublications := trackPublications s;
     audioTrackPublications := audioTrackPublications s;
     videoTrackPublications := videoTrackPublications s;
     dataTrackPublications := dataTrackPublications s;
     _tracksToStop := _tracksToStop s; handlers := handlers s;
     signaling_state := signaling_state s;
     signaling_tracks := signaling_tracks s; heap := heap s;
     timers := timers s; trace := trace s; next_promise := next_promise s;
     next_ref := x |}.

Definition publishedKindTracks (k : Kind) (s : State) : JsMap.t Publication :=
  match k with
  | audio => audioTrackPublications s
  | video => videoTrackPublications s
  | data => dataTrackPublications s
  end.

Definition with_publishedKindTracks (k : Kind) (x : JsMap.t Publication)
    (s : State) : State :=
  match k with
  | audio => with_audioTrackPublications x s
  | video => with_videoTrackPublications x s
  | data => with_dataTrackPublications x s
  end.

(** ** Completions: a method returns or throws *)

Inductive Completion (A : Type) :=
| Return (a : A)
| Throw (e : Error).
Arguments Return {A} a.
Arguments Throw {A} e.

Definition M (A : Type) : Type := State → Completion A * State.

Definition ret {A} (a : A) : M A := λ s, (Return a, s).
Definition throw {A} (e : Error) : M A := λ s, (Throw e, s).
Definition bind {A B} (c : M A) (k : A → M B) : M B :=
  λ s, match c s with
       | (Return a, s') => k a s'
       | (Throw e, s') => (Throw e, s')
       end.
Definition lift {A} (f : State → A * State) : M A :=
  λ s, let '(a, s') := f s in (Return a, s').
Definition modify (f : State → State) : M unit := λ s, (Return tt, f s).
Definition gets {A} (f : State → A) : M A := λ s, (Return (f s), s).

Notation "'do' x <- c ; k" := (bind c (λ x, k))
  (at level 10, x name, c at level 100, k at level 200).

(** ** Primitive effects *)

Definition log (e : Effect) (s : State) : State :=
  with_trace (trace s ++ [e]) s.

(** [setTimeout(callback)]: the callback runs on a later turn, after the
    callbacks queued before it. Every callback in this file emits one
    event. *)
Definition setTimeout (callback : Event) (s : State) : State :=
  with_timers (timers s ++ [callback]) s.

(** [emitter.removeListener(name, f)] takes one registration of [f] out. *)
Fixpoint removeListener {A} `{EqDecision A} (f : A) (l : list A) : list A :=
  match l with
  | [] => []
  | g :: l' => if decide (f = g) then l' else g :: removeListener f l'
  end.

Definition self_on (h : Handler) (s : State) : State :=
  with_handlers (handlers s ++ [h]) s.

Definition self_removeListener (h : Handler) (s : State) : State :=
  log (RemoveListener h) (with_handlers (removeListener h (handlers s)) s).

Definition listening (h : Handler) (s : State) : bool :=
  bool_decide (h ∈ handlers s).

(** [track.stop()] belongs to the media layer; the call is recorded. *)
Definition track_stop (t : LocalTrack) (s : State) : State := log (Stop t) s.

(** ** The signaling collaborator *)

(** Modelled from the spec: [signaling.addTrack(trackSender, name)] and
    [signaling.removeTrack(trackSender)] of the ParticipantSignaling, which
    is not part of this file. A TrackSignaling record is "created when a
    track is submitted to signaling; destroyed when the track is withdrawn
    from signaling", and [signaling.tracks] is "a lookup from track identity
    to its TrackSignaling record". A new record has no identifier and no
    error. *)
Definition signaling_addTrack (t : LocalTrack) (s : State) : State :=
  let r := length (heap s) in
  let trackSignaling :=
    {| ts_id := track_id t; ts_name := track_name t; ts_error := None;
       ts_sid := None; ts_listeners := [] |} in
  with_signaling_tracks (JsMap.set (signaling_tracks s) (track_id t) r)
    (with_heap (heap s ++ [trackSignaling]) s).

Definition signaling_removeTrack (t : LocalTrack) (s : State) : State :=
  with_signaling_tracks (JsMap.delete (signaling_tracks s) (track_id t)) s.

Definition ts_on_updated (l : Listener) (ts : TrackSignaling) : TrackSignaling :=
  {| ts_id := ts_id ts; ts_name := ts_name ts; ts_error := ts_error ts;
     ts_sid := ts_sid ts; ts_listeners := ts_listeners ts ++ [l] |}.

Definition ts_removeListener_updated (l : Listener) (ts : TrackSignaling)
    : TrackSignaling :=
  {| ts_id := ts_id ts; ts_name := ts_name ts; ts_error := ts_error ts;
     ts_sid := ts_sid ts; ts_listeners := removeListener l (ts_listeners ts) |}.

Definition ts_set_error (e : Error) (ts : TrackSignaling) : TrackSignaling :=
  {| ts_id := ts_id ts; ts_name := ts_name ts; ts_error := Some e;
     ts_sid := ts_sid ts; ts_listeners := ts_listeners ts |}.

Definition ts_set_sid (sid : string) (ts : TrackSignaling) : TrackSignaling :=
  {| ts_id := ts_id ts; ts_name := ts_name ts; ts_error := ts_error ts;
     ts_sid := Some sid; ts_listeners := ts_listeners ts |}.

(** [trackSignaling.on('updated', updated)] and
    [trackSignaling.removeListener('updated', updated)], on the object at
    reference [r]. *)
Definition on_updated (r : nat) (l : Listener) (s : State) : State :=
  with_heap (alter (ts_on_updated l) r (heap s)) s.

Definition removeListener_updated (r : nat) (l : Listener) (s : State) : State :=
  with_heap (alter (ts_removeListener_updated l) r (heap s)) s.

(** ** The handlers of [_handleTrackSignalingEvents] (lines 141-163) *)

Definition localTrackAdded (localTrack : LocalTrack) (s : State) : State :=
  signaling_addTrack localTrack s.

Definition localTrackRemoved (localTrack : LocalTrack) (s : State) : State :=
  signaling_removeTrack localTrack s.

(** [this.emit('trackAdded', track)] and [this.emit('trackRemoved', track)]:
    the event is recorded, then the participant's own handler runs if it
    is still registered. *)
Definition emit_trackAdded (t : LocalTrack) (s : State) : State :=
  let s := log (Emit (trackAdded t)) s in
  if listening HLocalTrackAdded s then localTrackAdded t s else s.

Definition emit_trackRemoved (t : LocalTrack) (s : State) : State :=
  let s := log (Emit (trackRemoved t)) s in
  if listening HLocalTrackRemoved s then localTrackRemoved t s else s.

(** ** The Track Registry of the Participant base class *)

(** Modelled from the spec: [Participant#_addTrack] and
    [Participant#_removeTrack] (lib/participant.js is not part of this
    file). "addTrack(track) inserts into the identity-keyed mapping ...;
    no-op (returns falsy) if already present. removeTrack(track) reverses
    this. Both emit a trackAdded/trackRemoved notification exactly once per
    transition (never for a no-op)." *)
Definition _addTrack (track : LocalTrack) (s : State)
    : option LocalTrack * State :=
  if JsMap.has (tracks s) (track_id track) then (None, s)
  else
    let s := with_tracks (JsMap.set (tracks s) (track_id track) track) s in
    (Some track, emit_trackAdded track s).

Definition _removeTrack (track : LocalTrack) (s : State)
    : option LocalTrack * State :=
  match JsMap.get (tracks s) (track_id track) with
  | None => (None, s)
  | Some track' =>
      let s := with_tracks (JsMap.delete (tracks s) (track_id track)) s in
      (Some track', emit_trackRemoved track' s)
  end.

(** ** Helpers of lib/util *)

Definition track_types : string :=
  "LocalAudioTrack, LocalVideoTrack, LocalDataTrack, or MediaStreamTrack".

(** Modelled from the spec: [util.asLocalTrack] (lib/util is not part of
    this file). It "validates the track against the accepted type set"; for
    a MediaStreamTrack "this method will construct" the corresponding
    LocalAudioTrack or LocalVideoTrack (JSDoc of [publishTrack]), a new
    object with the MediaStreamTrack's id. *)
Definition asLocalTrack (track : Value) (name : option string) : M LocalTrack :=
  λ s,
  match track with
  | VLocalTrack t => (Return t, s)
  | VMediaStreamTrack m =>
      (Return {| track_ref := next_ref s; track_id := mst_id m;
                 track_kind := kind_of_media (mst_kind m);
                 track_name := default (mst_id m) name;
                 mediaStreamTrack := Some m |},
       with_next_ref (S (next_ref s)) s)
  | _ => (Throw (INVALID_TYPE "track" track_types), s)
  end.

(** Modelled from the spec: [util.validateLocalTrack], "validates track
    type": it throws the invalid-argument error unless the value is one of
    the accepted track types. *)
Definition validateLocalTrack (track : Value) : M unit :=
  match track with
  | VLocalTrack _ | VMediaStreamTrack _ => ret tt
  | _ => throw (INVALID_TYPE "track" track_types)
  end.

(** Modelled from the spec: [util.asLocalTrackPublication], the Publication
    Factory: "given a local track, its assigned identifier, and an unpublish
    callback, produces ... a Publication object exposing track, identifier,
    and kind". *)
Definition asLocalTrackPublication (localTrack : LocalTrack) (sid : string)
    : Publication :=
  {| pub_track := localTrack; trackSid := sid |}.

(** [track.id], where [None] stands for [undefined]. Lines 329 and 335
    read it from values that were not validated; reading it from
    [undefined] or [null] throws, see [filter_absent]. *)
Definition value_id (track : Value) : option string :=
  match track with
  | VLocalTrack t => Some (track_id t)
  | VMediaStreamTrack m => Some (mst_id m)
  | VObject id => Some id
  | _ => None
  end.

(** ** [getTrackPublication] (lines 651-654) *)

(** [trackPublication.track === track] *)
Definition is_track (p : Publication) (track : Value) : bool :=
  match track with
  | VLocalTrack t => bool_decide (pub_track p = t)
  | _ => false
  end.

(** [trackPublication.track.mediaStreamTrack === track] *)
Definition is_mediaStreamTrack (p : Publication) (track : Value) : bool :=
  match mediaStreamTrack (pub_track p), track with
  | Some m, VMediaStreamTrack m' => bool_decide (m = m')
  | None, VUndefined => true
  | _, _ => false
  end.

Definition getTrackPublication (trackPublications : JsMap.t Publication)
    (track : Value) : option Publication :=
  find (λ trackPublication,
          is_track trackPublication track
          || is_mediaStreamTrack trackPublication track)
       (JsMap.values trackPublications).

(** ** [_getOrCreateLocalTrackPublication] (lines 199-276) *)

(** [!sid] holds for [null] and for the empty string. *)
Definition truthy (sid : option string) : option string :=
  match sid with
  | Some x => if decide (x = "") then None else Some x
  | None => None
  end.

(** The listener [updated] (lines 218-272) of the promise [l_promise l],
    with [localTrack] and [trackSignaling] as the closure captured them. *)
Definition updated (l : Listener) (s : State) : State :=
  let localTrack := l_track l in
  match heap s !! l_signaling l with
  | None => s
  | Some trackSignaling =>
      match ts_error trackSignaling with
      | Some error =>
          let s := removeListener_updated (l_signaling l) l s in
          let s := snd (_removeTrack localTrack s) in
          let s := setTimeout (trackPublicationFailed error localTrack) s in
          log (Reject (l_promise l) error) s
      | None =>
          if negb (JsMap.has (tracks s) (track_id localTrack)) then
            let s := removeListener_updated (l_signaling l) l s in
            log (Reject (l_promise l) (ErrWasUnpublished localTrack)) s
          else
            match truthy (ts_sid trackSignaling) with
            | None => s
            | Some sid =>
                let s := removeListener_updated (l_signaling l) l s in
                let '(localTrackPublication, s) :=
                  match getTrackPublication (trackPublications s)
                          (VLocalTrack localTrack) with
                  | Some p => (p, s)
                  | None =>
                      let p := asLocalTrackPublication localTrack sid in
                      let s :=
                        with_trackPublications
                          (JsMap.set (trackPublications s) sid p) s in
                      let k := track_kind localTrack in
                      (p, with_publishedKindTracks k
                            (JsMap.set (publishedKindTracks k s) sid p) s)
                  end in
                let s :=
                  if decide (signaling_state s = "connected")
                  then setTimeout (trackPublished localTrackPublication) s
                  else s in
                log (Resolve (l_promise l) localTrackPublication) s
            end
      end
  end.

(** What a call of [publishTrack] hands back. Line 202 returns the
    publication itself, lines 210, 375 and 390 a settled promise, line 217
    a new promise, which only [updated] settles. *)
Inductive PublishResult :=
| ThePublication (p : Publication)
| PromiseResolve (p : Publication)
| PromiseReject (e : Error)
| NewPromise (promise : nat).

Definition _getOrCreateLocalTrackPublication (localTrack : LocalTrack)
    (s : State) : PublishResult * State :=
  match getTrackPublication (trackPublications s) (VLocalTrack localTrack) with
  | Some localTrackPublication => (ThePublication localTrackPublication, s)
  | None =>
      match JsMap.get (signaling_tracks s) (track_id localTrack) with
      | None => (PromiseReject (ErrCannotBePublished localTrack), s)
      | Some r =>
          let l := {| l_promise := next_promise s; l_track := localTrack;
                      l_signaling := r |} in
          (NewPromise (next_promise s),
           on_updated r l (with_next_promise (S (next_promise s)) s))
      end
  end.

(** ** [publishTrack] (lines 372-395) and [publishTracks] (408-415) *)

Definition publishTrack (localTrackOrMediaStreamTrack : Value)
    (name : option string) : M PublishResult :=
  λ s,
  match getTrackPublication (trackPublications s)
          localTrackOrMediaStreamTrack with
  | Some trackPublication => (Return (PromiseResolve trackPublication), s)
  | None =>
      match asLocalTrack localTrackOrMediaStreamTrack name s with
      | (Throw error, s) => (Return (PromiseReject error), s)
      | (Return localTrack, s) =>
          let '(added, s) := _addTrack localTrack s in
          let registered :=
            match added with
            | Some t => Some t
            | None => JsMap.get (tracks s) (track_id localTrack)
            end in
          match registered with
          | Some localTrack =>
              lift (_getOrCreateLocalTrackPublication localTrack) s
          | None =>
              (* [_addTrack] returns null only for a registered id *)
              (Throw (TypeError "Cannot read property 'id' of undefined"), s)
          end
      end
  end.

Definition array_types : string :=
  "Array of LocalAudioTrack, LocalVideoTrack, LocalDataTrack, or MediaStreamTrack".

(** [tracks.map(this.publishTrack, this)]: the second argument that [map]
    passes is an index, which [Object.assign] ignores. *)
Fixpoint map_publishTrack (tracks : list Value) : M (list PublishResult) :=
  match tracks with
  | [] => ret []
  | track :: tracks' =>
      do r <- publishTrack track None;
      do rs <- map_publishTrack tracks';
      ret (r :: rs)
  end.

(** [Promise.all(promises)] is one new promise, which joins the listed
    ones; [Promise_all_state] below tells how it is settled. *)
Inductive JoinedPromise :=
| Promise_all (promises : list PublishResult).

Definition publishTracks (tracks : Value) : M JoinedPromise :=
  match tracks with
  | VArray elements =>
      do promises <- map_publishTrack elements;
      ret (Promise_all promises)
  | _ => throw (INVALID_TYPE "tracks" array_types)
  end.

(** ** The TrackSignaling record *)

(** [trackSignaling.emit('updated')]: the listeners registered when the
    event is emitted run in registration order. *)
Definition emit_updated (r : nat) (s : State) : State :=
  match heap s !! r with
  | None => s
  | Some trackSignaling =>
      fold_left (λ s l, updated l s) (ts_listeners trackSignaling) s
  end.

(** Modelled from the spec: [TrackSignaling#publishFailed(error)], which
    "marks the TrackSignaling record as failed"; the record "emits an
    updated notification on every attribute change". *)
Definition publishFailed (r : nat) (error : Error) (s : State) : State :=
  emit_updated r (with_heap (alter (ts_set_error error) r (heap s)) s).

(** Modelled from the spec: the signaling collaborator assigns the
    identifier of a record ("present once the server acknowledges") and
    notifies its listeners. *)
Definition setSid (r : nat) (sid : string) (s : State) : State :=
  emit_updated r (with_heap (alter (ts_set_sid sid) r (heap s)) s).

(** ** [unpublishTrack] (lines 515-546) and [unpublishTracks] (559-570) *)

Definition unpublishTrack (track : Value) : M (option Publication) :=
  do _ <- validateLocalTrack track;
  λ s,
  match value_id track ≫= JsMap.get (tracks s) with
  | None => (Return None, s)
  | Some localTrack =>
      match JsMap.get (signaling_tracks s) (track_id localTrack) with
      | None =>
          (Throw (TypeError "Cannot read property 'publishFailed' of undefined"),
           s)
      | Some trackSignaling =>
          let s :=
            publishFailed trackSignaling (ErrWasUnpublished localTrack) s in
          let k := track_kind localTrack in
          let localTrackPublication :=
            getTrackPublication (trackPublications s) (VLocalTrack localTrack) in
          let s :=
            match localTrackPublication with
            | Some p =>
                let s :=
                  with_publishedKindTracks k
                    (JsMap.delete (publishedKindTracks k s) (trackSid p)) s in
                with_trackPublications
                  (JsMap.delete (trackPublications s) (trackSid p)) s
            | None => s
            end in
          let s := snd (_removeTrack localTrack s) in
          (Return localTrackPublication, s)
      end
  end.

(** [tracks.reduce(...)] with the accumulator [unpublishedTracks]. *)
Fixpoint reduce_unpublishTrack (tracks : list Value)
    (unpublishedTracks : list Publication) : M (list Publication) :=
  match tracks with
  | [] => ret unpublishedTracks
  | track :: tracks' =>
      do unpublishedTrack <- unpublishTrack track;
      reduce_unpublishTrack tracks'
        (match unpublishedTrack with
         | Some p => unpublishedTracks ++ [p]
         | None => unpublishedTracks
         end)
  end.

Definition unpublishTracks (tracks : Value) : M (list Publication) :=
  match tracks with
  | VArray elements => reduce_unpublishTrack elements []
  | _ => throw (INVALID_TYPE "tracks" array_types)
  end.

(** ** The deprecated methods (lines 289-337, 429-468) *)

(** [this.tracks.has(track.id)]; a value without an [id] is looked up as
    [undefined], which is no key of the registry. *)
Definition tracks_has (track : Value) (s : State) : bool :=
  match value_id track with
  | Some i => JsMap.has (tracks s) i
  | None => false
  end.

(** [this.tracks.get(track.id)] *)
Definition tracks_get (track : Value) (s : State) : option LocalTrack :=
  value_id track ≫= JsMap.get (tracks s).

(** [result.catch(() => {})]: the publication that line 202 returns is no
    promise and has no [catch]. *)
Definition catch (result : PublishResult) : M unit :=
  match result with
  | ThePublication _ => throw (TypeError "catch is not a function")
  | _ => ret tt
  end.

Definition addTrack (track : Value) : M (option LocalTrack) :=
  do _ <- validateLocalTrack track;
  do present <- gets (tracks_has track);
  if present then ret None
  else
    do result <- publishTrack track None;
    do _ <- catch result;
    gets (tracks_get track).

(** [tracks.filter(function(track) { return !this.tracks.has(track.id); })];
    reading [id] of [undefined] or of [null] throws. *)
Fixpoint filter_absent (tracks : list Value) : M (list Value) :=
  match tracks with
  | [] => ret []
  | VUndefined :: _ =>
      throw (TypeError "Cannot read property 'id' of undefined")
  | VNull :: _ =>
      throw (TypeError "Cannot read property 'id' of null")
  | track :: tracks' =>
      do present <- gets (tracks_has track);
      do rest <- filter_absent tracks';
      ret (if present then rest else track :: rest)
  end.

Definition addTracks (tracks : Value) : M (list (option LocalTrack)) :=
  match tracks with
  | VArray elements =>
      do tracks <- filter_absent elements;
      do _ <- publishTracks (VArray tracks);
      gets (λ s, map (λ track, tracks_get track s) tracks)
  | _ => throw (INVALID_TYPE "tracks" array_types)
  end.

(** [stop = typeof stop === 'boolean' ? stop : true] *)
Definition removeTrack (track : Value) (stop : option bool)
    : M (option LocalTrack) :=
  do publication <- unpublishTrack track;
  let track := pub_track <$> publication in
  let stop := default true stop in
  match track with
  | Some t =>
      if stop then do _ <- modify (track_stop t); ret track else ret track
  | None => ret track
  end.

Definition removeTracks (tracks : Value) (stop : option bool)
    : M (list LocalTrack) :=
  let stop := default true stop in
  do publications <- unpublishTracks tracks;
  do _ <- modify
            (λ s, fold_left
                    (λ s publication,
                       if stop then track_stop (pub_track publication) s
                       else s)
                    publications s);
  ret (map pub_track publications).

(** ** Disconnect teardown (lines 178-193) *)

Definition stateChanged (state : string) (s : State) : State :=
  if decide (state = "disconnected") then
    let s := self_removeListener HStateChanged s in
    let s := self_removeListener HLocalTrackAdded s in
    let s := self_removeListener HLocalTrackDisabled s in
    let s := self_removeListener HLocalTrackEnabled s in
    let s := self_removeListener HLocalTrackRemoved s in
    fold_left (λ s track, track_stop track s) (_tracksToStop s) s
  else s.

(** Modelled from the spec: the signaling channel changes its "current
    connection state" and emits "a stateChanged notification". *)
Definition signaling_setState (state : string) (s : State) : State :=
  let s := with_signaling_state state s in
  if listening HStateChanged s then stateChanged state s else s.

(** ** Construction (lines 51-110, 132-194) *)

(** [new Set(array)]: insertion order, one entry per object. *)
Definition Set_add {A} `{EqDecision A} (x : A) (set : list A) : list A :=
  if bool_decide (x ∈ set) then set else set ++ [x].

Definition new_Set {A} `{EqDecision A} (l : list A) : list A :=
  fold_left (λ set x, Set_add x set) l [].

Definition tracksToStop (shouldStopLocalTracks : bool)
    (localTracks : list LocalTrack) : list LocalTrack :=
  if shouldStopLocalTracks
  then new_Set (filter (λ localTrack, track_kind localTrack ≠ data) localTracks)
  else new_Set [].

Definition _handleTrackSignalingEvents (s : State) : State :=
  if decide (signaling_state s = "disconnected") then s
  else
    let s := self_on HLocalTrackAdded s in
    let s := self_on HLocalTrackDisabled s in
    let s := self_on HLocalTrackEnabled s in
    let s := self_on HLocalTrackRemoved s in
    let s :=
      fold_left
        (λ s track,
           let s := localTrackAdded track s in
           snd (_getOrCreateLocalTrackPublication track s))
        (JsMap.values (tracks s)) s in
    self_on HStateChanged s.

(** The participant before the base constructor has run: empty registries
    and a signaling object in the given connection state that knows no
    track yet. *)
Definition blank (state : string) (toStop : list LocalTrack) : State :=
  {| tracks := JsMap.empty; trackPublications := JsMap.empty;
     audioTrackPublications := JsMap.empty;
     videoTrackPublications := JsMap.empty;
     dataTrackPublications := JsMap.empty;
     _tracksToStop := toStop; handlers := [];
     signaling_state := state; signaling_tracks := JsMap.empty; heap := [];
     timers := []; trace := []; next_promise := 0; next_ref := 0 |}.

(** Modelled from the spec: [super(signaling, options)], the Participant
    base constructor, starts the Track Registry, an "identity-keyed
    mapping", with [options.tracks]: a [Map] of the entries [[track.id,
    track]], in which a later track takes the place of an earlier one of
    the same identity. The spec names a notification for [addTrack] and
    [removeTrack] only, so none is logged here. The participant's [state]
    is the signaling object's. *)
Definition Participant (state : string) (toStop tracks : list LocalTrack)
    : State :=
  with_tracks
    (fold_left (λ map track, JsMap.set map (track_id track) track)
       tracks JsMap.empty)
    (blank state toStop).

(** [new LocalParticipant(signaling, localTracks, { shouldStopLocalTracks })] *)
Definition LocalParticipant (state : string) (localTracks : list LocalTrack)
    (shouldStopLocalTracks : bool) : State :=
  let s :=
    Participant state (tracksToStop shouldStopLocalTracks localTracks)
      localTracks in
  _handleTrackSignalingEvents s.

(** A later turn of the event loop: the oldest [setTimeout] callback runs
    and emits its event. *)
Definition tick (s : State) : State :=
  match timers s with
  | [] => s
  | callback :: rest => log (Emit callback) (with_timers rest s)
  end.

(** ** Executions

    What can happen to a participant after construction: the caller invokes
    a public method, the signaling collaborator reports on a TrackSignaling
    record or on the connection, or the event loop takes a later turn. *)

Inductive Op :=
| Call_publishTrack (track : Value) (name : option string)
| Call_publishTracks (tracks : Value)
| Call_unpublishTrack (track : Value)
| Call_unpublishTracks (tracks : Value)
| Call_addTrack (track : Value)
| Call_addTracks (tracks : Value)
| Call_removeTrack (track : Value) (stop : option bool)
| Call_removeTracks (tracks : Value) (stop : option bool)
| Signaling_sid (r : nat) (sid : string)
| Signaling_publishFailed (r : nat) (error : Error)
| Signaling_updated (r : nat)
| Signaling_state (state : string)
| Turn.

Definition exec (op : Op) (s : State) : State :=
  match op with
  | Call_publishTrack track name => snd (publishTrack track name s)
  | Call_publishTracks tracks => snd (publishTracks tracks s)
  | Call_unpublishTrack track => snd (unpublishTrack track s)
  | Call_unpublishTracks tracks => snd (unpublishTracks tracks s)
  | Call_addTrack track => snd (addTrack track s)
  | Call_addTracks tracks => snd (addTracks tracks s)
  | Call_removeTrack track stop => snd (removeTrack track stop s)
  | Call_removeTracks tracks stop => snd (removeTracks tracks stop s)
  | Signaling_sid r sid => setSid r sid s
  | Signaling_publishFailed r error => publishFailed r error s
  | Signaling_updated r => emit_updated r s
  | Signaling_state state => signaling_setState state s
  | Turn => tick s
  end.

(** Modelled from the spec: the contract of the signaling collaborator for
    identifiers. An identifier is "server-assigned" and "immutable once
    set", and the publication registry is keyed by it: the collaborator
    assigns an identifier to a record that has none, and never the same
    identifier to two records. *)
Definition permitted (op : Op) (s : State) : Prop :=
  match op with
  | Signaling_sid r sid =>
      (∃ ts, heap s !! r = Some ts ∧ ts_sid ts = None)
      ∧ ∀ r' ts', heap s !! r' = Some ts' → ts_sid ts' ≠ Some sid
  | _ => True
  end.

Inductive reachable : State → Prop :=
| reachable_new state localTracks shouldStopLocalTracks :
    reachable (LocalParticipant state localTracks shouldStopLocalTracks)
| reachable_exec s op :
    reachable s → permitted op s → reachable (exec op s).

(** ** Observations on a state *)

(** The listener [l] is registered for 'updated' on the record at [r]. *)
Definition attached (s : State) (r : nat) (l : Listener) : Prop :=
  ∃ ts, heap s !! r = Some ts ∧ l ∈ ts_listeners ts.

(** A promise is pending while its listener is registered somewhere. *)
Definition pending (s : State) (promise : nat) : Prop :=
  ∃ r l, attached s r l ∧ l_promise l = promise.

Inductive Settlement :=
| Resolved (p : Publication)
| Rejected (e : Error).

Definition settlement_of (promise : nat) (e : Effect) : option Settlement :=
  match e with
  | Resolve n p => if decide (n = promise) then Some (Resolved p) else None
  | Reject n e => if decide (n = promise) then Some (Rejected e) else None
  | _ => None
  end.

(** Every call of [resolve] or [reject] of a promise so far, in order. *)
Definition settlements (promise : nat) (s : State) : list Settlement :=
  omap (settlement_of promise) (trace s).

(** A publication whose track is [track], or wraps the MediaStreamTrack
    [track]: the test of [getTrackPublication]. *)
Definition publication_of (track : Value) (p : Publication) : bool :=
  is_track p track || is_mediaStreamTrack p track.

Definition is_array (v : Value) : bool :=
  match v with VArray _ => true | _ => false end.

Definition is_track_type (v : Value) : bool :=
  match v with VLocalTrack _ | VMediaStreamTrack _ => true | _ => false end.

(** The registries agree with each other and with the signaling
    collaborator's records. *)
Record registries_ok (s : State) : Prop := {
  tracks_keyed :
    ∀ i t, JsMap.get (tracks s) i = Some t → track_id t = i;
  tracks_nodup : NoDup (JsMap.keys (tracks s));
  publications_nodup : NoDup (JsMap.keys (trackPublications s));
  publication_registered :
    ∀ sid p, JsMap.get (trackPublications s) sid = Some p →
      trackSid p = sid
      ∧ JsMap.get (tracks s) (track_id (pub_track p)) = Some (pub_track p)
      ∧ ∃ r ts, heap s !! r = Some ts ∧ ts_sid ts = Some sid
                ∧ ts_id ts = track_id (pub_track p);
  kind_in_flat :
    ∀ k sid p, JsMap.get (publishedKindTracks k s) sid = Some p →
      JsMap.get (trackPublications s) sid = Some p ∧ pub_kind p = k;
  flat_in_kind :
    ∀ sid p, JsMap.get (trackPublications s) sid = Some p →
      JsMap.get (publishedKindTracks (pub_kind p) s) sid = Some p;
  publication_per_track :
    ∀ sid1 p1 sid2 p2,
      JsMap.get (trackPublications s) sid1 = Some p1 →
      JsMap.get (trackPublications s) sid2 = Some p2 →
      track_id (pub_track p1) = track_id (pub_track p2) → sid1 = sid2;
  sid_per_record :
    ∀ r1 ts1 r2 ts2 sid,
      heap s !! r1 = Some ts1 → heap s !! r2 = Some ts2 →
      ts_sid ts1 = Some sid → ts_sid ts2 = Some sid → r1 = r2;
  signaling_tracks_keyed :
    ∀ i r, JsMap.get (signaling_tracks s) i = Some r →
      ∃ ts, heap s !! r = Some ts ∧ ts_id ts = i
}.

(** Every promise created so far is either pending, with exactly one
    listener registered and nothing settled, or its listener is gone and
    it was settled exactly once. *)
Record promises_ok (s : State) : Prop := {
  listener_closure :
    ∀ r l, attached s r l →
      l_signaling l = r ∧ l_promise l < next_promise s
      ∧ settlements (l_promise l) s = []
      ∧ ∃ ts, heap s !! r = Some ts ∧ ts_id ts = track_id (l_track l);
  listener_unique :
    ∀ r ts, heap s !! r = Some ts → NoDup (map l_promise (ts_listeners ts));
  promise_unique :
    ∀ r1 l1 r2 l2, attached s r1 l1 → attached s r2 l2 →
      l_promise l1 = l_promise l2 → r1 = r2;
  promise_settled :
    ∀ n, n < next_promise s → pending s n ∨ ∃ o, settlements n s = [o];
  promise_fresh :
    ∀ n, next_promise s ≤ n → settlements n s = []
}.

(** What holds of a registered listener between two operations, but not
    while an 'updated' event is being delivered to the listeners of its
    record: its track is registered, under the record the listener is
    on, and nothing is published for it yet. *)
Definition settled_listener (s : State) (r : nat) (l : Listener) : Prop :=
  JsMap.get (signaling_tracks s) (track_id (l_track l)) = Some r
  ∧ JsMap.get (tracks s) (track_id (l_track l)) = Some (l_track l)
  ∧ ∀ sid p, JsMap.get (trackPublications s) sid = Some p →
      track_id (pub_track p) ≠ track_id (l_track l).

(** While 'updated' is delivered to the listeners of the record [r]. *)
Definition delivering (r : nat) (s : State) : Prop :=
  registries_ok s ∧ promises_ok s
  ∧ ∀ r' l, attached s r' l → r' ≠ r → settled_listener s r' l.

(** The invariant between operations. *)
Definition quiescent (s : State) : Prop :=
  registries_ok s ∧ promises_ok s
  ∧ ∀ r l, attached s r l → settled_listener s r l.

(** The part of a record that the registries depend on, and the part that
    the promises depend on. *)
Definition record_ids (ts : TrackSignaling) : string * option string :=
  (ts_id ts, ts_sid ts).

Definition record_listeners (ts : TrackSignaling) : string * list Listener :=
  (ts_id ts, ts_listeners ts).

(** ** Some participants *)

Definition microphone : MediaStreamTrack :=
  {| mst_ref := 1; mst_id := "mic-1"; mst_kind := media_audio |}.

Definition trackA : LocalTrack :=
  {| track_ref := 10; track_id := "mic-1"; track_kind := audio;
     track_name := "microphone"; mediaStreamTrack := Some microphone |}.

Definition trackB : LocalTrack :=
  {| track_ref := 11; track_id := "cam-1"; track_kind := video;
     track_name := "camera";
     mediaStreamTrack :=
       Some {| mst_ref := 2; mst_id := "cam-1"; mst_kind := media_video |} |}.

Definition trackC : LocalTrack :=
  {| track_ref := 12; track_id := "chat"; track_kind := data;
     track_name := "chat"; mediaStreamTrack := None |}.

(** A participant in a room that is still connecting. *)
Definition joining : State := LocalParticipant "connecting" [] false.

(** [trackA] is being published; no identifier has arrived. *)
Definition publishingA : State :=
  exec (Call_publishTrack (VLocalTrack trackA) None) joining.

(** The signaling collaborator has assigned "TR123" to [trackA]. *)
Definition publishedA : State := exec (Signaling_sid 0 "TR123") publishingA.

(** A participant whose room was already disconnected at construction. *)
Definition torn_down : State := LocalParticipant "disconnected" [] false.

(** Two tracks acquired for the caller and one data track, stopped on
    disconnect. *)
Definition acquired : State :=
  LocalParticipant "connected" [trackA; trackB; trackC] true.

(** The listener of the promise that [publishingA] returned. *)
Definition listenerA : Listener :=
  {| l_promise := 0; l_track := trackA; l_signaling := 0 |}.

(** The signaling collaborator has marked the record of [trackA] as
    failed; its listeners have not been notified yet. *)
Definition failingA : State :=
  with_heap (alter (ts_set_error (SignalingError 53304%N)) 0 (heap publishingA))
    publishingA.

(** The identifier of [trackA] has arrived; its listeners have not been
    notified yet. *)
Definition acknowledgedA (state : string) : State :=
  with_signaling_state state
    (with_heap (alter (ts_set_sid "TR123") 0 (heap publishingA)) publishingA).

(** The listeners that [_handleTrackSignalingEvents] registers, in order. *)
Definition registered_handlers : list Handler :=
  [HLocalTrackAdded; HLocalTrackDisabled; HLocalTrackEnabled;
   HLocalTrackRemoved; HStateChanged].

(** The events the participant has emitted so far, in order. *)
Definition emitted (s : State) : list Event :=
  omap (λ e, match e with Emit ev => Some ev | _ => None end) (trace s).

(** ** Relations between states *)

(** [stable s s']: the auto-stop set, the participant's own listeners and
    the signaling state are the same in [s'] as in [s]. *)
Definition stable (s s' : State) : Prop :=
  _tracksToStop s' = _tracksToStop s
  ∧ handlers s' = handlers s
  ∧ signaling_state s' = signaling_state s.

(** Effects other than [resolve] and [reject] settle nothing. *)
Definition settles_nothing (e : Effect) : Prop :=
  match e with Resolve _ _ | Reject _ _ => False | _ => True end.

(** [inert s s']: registries, records and promises are the same in [s']
    as in [s]; the trace may have grown by effects that settle nothing. *)
Definition inert (s s' : State) : Prop :=
  tracks s' = tracks s
  ∧ trackPublications s' = trackPublications s
  ∧ (∀ k, publishedKindTracks k s' = publishedKindTracks k s)
  ∧ signaling_tracks s' = signaling_tracks s
  ∧ heap s' = heap s
  ∧ next_promise s' = next_promise s
  ∧ ∃ es, trace s' = trace s ++ es ∧ Forall settles_nothing es.

(** A computation that keeps a property of the state, whether it returns
    or throws. *)
Definition keeps (P : State → Prop) {A} (c : M A) : Prop :=
  ∀ s, P s → P (snd (c s)).

(** ** [setParameters] (lines 478-502) *)

(** What [encodingParameters[prop]] can be; the code tests [typeof] and
    [=== null] only, so the number itself stays abstract. *)
Inductive BitrateLimit (number : Type) :=
| LUndefined                   (* the property is missing or undefined *)
| LNull
| LNumber (n : number)         (* typeof 'number' *)
| LOther.                      (* a string, boolean, object, function, ... *)
Arguments LUndefined {number}.
Arguments LNull {number}.
Arguments LNumber {number} n.
Arguments LOther {number}.

(** What a caller can pass as [encodingParameters]. *)
Inductive EncodingParameters (number : Type) :=
| EUndefined                   (* typeof 'undefined' *)
| ENull                        (* typeof 'object', falsy *)
| EObject (maxAudioBitrate maxVideoBitrate : BitrateLimit number)
| EOther.                      (* typeof 'number', 'string', 'boolean', 'function', ... *)
Arguments EUndefined {number}.
Arguments ENull {number}.
Arguments EObject {number} maxAudioBitrate maxVideoBitrate.
Arguments EOther {number}.

(** [encodingParameters[prop]] *)
Definition get_limit {number} (encodingParameters : EncodingParameters number)
    (prop : string) : BitrateLimit number :=
  match encodingParameters with
  | EObject maxAudioBitrate maxVideoBitrate =>
      if decide (prop = "maxAudioBitrate") then maxAudioBitrate
      else if decide (prop = "maxVideoBitrate") then maxVideoBitrate
      else LUndefined
  | _ => LUndefined
  end.

(** [array.forEach(callback)] with a callback that may throw. *)
Fixpoint forEach {A} (callback : A → Completion unit) (array : list A)
    : Completion unit :=
  match array with
  | [] => Return tt
  | x :: array' =>
      match callback x with
      | Return _ => forEach callback array'
      | Throw e => Throw e
      end
  end.

(** The result is the argument of [this._signaling.setParameters(...)],
    the one call the method makes before it returns [this]. *)
Definition setParameters {number}
    (encodingParameters : EncodingParameters number)
    : Completion (EncodingParameters number) :=
  match encodingParameters with
  | EOther =>
      Throw (INVALID_TYPE "encodingParameters"
               "EncodingParameters, null or undefined")
  | EObject _ _ =>
      match
        forEach
          (λ prop,
             match get_limit encodingParameters prop with
             | LOther =>
                 Throw (INVALID_TYPE ("encodingParameters." +:+ prop)
                          "number, null or undefined")
             | _ => Return tt
             end)
          ["maxAudioBitrate"; "maxVideoBitrate"]
      with
      | Return _ => Return encodingParameters
      | Throw e => Throw e
      end
  | ENull => Return (EObject LNull LNull)
  | EUndefined => Return EUndefined
  end.

(** ** The handlers [localTrackDisabled] and [localTrackEnabled]
    (lines 147-157) *)

(** Both look the record of the track up and call a method of it; the
    result is the record whose [disable()] or [enable()] is called. *)
Definition localTrackDisabled (localTrack : LocalTrack) : M nat :=
  λ s,
  match JsMap.get (signaling_tracks s) (track_id localTrack) with
  | Some trackSignaling => (Return trackSignaling, s)
  | None => (Throw (TypeError "Cannot read property 'disable' of undefined"), s)
  end.

Definition localTrackEnabled (localTrack : LocalTrack) : M nat :=
  λ s,
  match JsMap.get (signaling_tracks s) (track_id localTrack) with
  | Some trackSignaling => (Return trackSignaling, s)
  | None => (Throw (TypeError "Cannot read property 'enable' of undefined"), s)
  end.

(** ** More observations on a state *)

(** The tracks whose [stop()] was called so far, in order. *)
Definition stopped (s : State) : list LocalTrack :=
  omap (λ e, match e with Stop t => Some t | _ => None end) (trace s).

(** The listeners the participant has taken off so far, in order. *)
Definition removals (s : State) : list Handler :=
  omap (λ e, match e with RemoveListener h => Some h | _ => None end)
       (trace s).

(** Effects that neither stop a track nor take a listener off. *)
Definition quiet (e : Effect) : Prop :=
  match e with Stop _ | RemoveListener _ => False | _ => True end.

(** [calm s s']: from [s] to [s'] no track was stopped and no listener of
    the participant was taken off. *)
Definition calm (s s' : State) : Prop :=
  ∃ es, trace s' = trace s ++ es ∧ Forall quiet es.

(** The Track Registry and the signaling collaborator hold the same
    identities, each track under its own. *)
Definition paired (s : State) : Prop :=
  (∀ i t, JsMap.get (tracks s) i = Some t → track_id t = i)
  ∧ ∀ i, JsMap.has (tracks s) i = JsMap.has (signaling_tracks s) i.

(** While the participant listens to its own events, the registries are
    paired. *)
Definition submitted (s : State) : Prop :=
  handlers s = registered_handlers → paired s.

(** Every operation but a state change of the signaling channel and the
    two deprecated removals, which stop tracks. *)
Definition plain (op : Op) : Prop :=
  match op with
  | Signaling_state _ | Call_removeTrack _ _ | Call_removeTracks _ _ => False
  | _ => True
  end.

(** [pairing s s']: the participant listens in [s'] as it did in [s], and
    the pairing of the registries carries over. *)
Definition pairing (s s' : State) : Prop :=
  handlers s' = handlers s ∧ (submitted s → submitted s').

(** ** More participants *)

(** A participant in a connected room on which [trackA] was published
    twice before any identifier arrived. *)
Definition publishingTwice : State :=
  exec (Call_publishTrack (VLocalTrack trackA) None)
    (exec (Call_publishTrack (VLocalTrack trackA) None)
       (LocalParticipant "connected" [] false)).

(** The listeners of the two promises. *)
Definition listenerA1 : Listener :=
  {| l_promise := 1; l_track := trackA; l_signaling := 0 |}.


(** [undefined] and [null], the values no property can be read from. *)
Definition is_nullish (v : Value) : bool :=
  match v with VUndefined | VNull => true | _ => false end.

(** What reading [id] throws on the first element that is [undefined] or
    [null] (lines 329 and 335). *)
Definition unreadable (elements : list Value) : option Error :=
  match find is_nullish elements with
  | Some VNull => Some (TypeError "Cannot read property 'id' of null")
  | Some _ => Some (TypeError "Cannot read property 'id' of undefined")
  | None => None
  end.

(** ** The promise of [publishTracks] (line 414) *)

(** How a promise made by [Promise.all] is settled. *)
Inductive Joined :=
| JPending
| JResolved (values : list Publication)
| JRejected (e : Error).

(** The listed promise that is rejected already when [Promise.all] takes
    the array: the first one in array order, whose reaction runs first. *)
Definition rejected_at_call (promises : list PublishResult) : option Error :=
  head (omap (λ r, match r with PromiseReject e => Some e | _ => None end)
             promises).

(** The promises among the listed results that were pending at the call. *)
Definition new_promises (promises : list PublishResult) : list nat :=
  omap (λ r, match r with NewPromise n => Some n | _ => None end) promises.

(** The first rejection in [effects] that settles one of the [listed]
    promises; [settled] are the promises settled before. A promise is
    settled by the first [resolve] or [reject] called on it, every later
    call on it does nothing. *)
Fixpoint rejected_later (listed settled : list nat) (effects : list Effect)
    : option Error :=
  match effects with
  | [] => None
  | Reject n e :: effects' =>
      if bool_decide (n ∈ settled) then rejected_later listed settled effects'
      else if bool_decide (n ∈ listed) then Some e
      else rejected_later listed (n :: settled) effects'
  | Resolve n _ :: effects' => rejected_later listed (n :: settled) effects'
  | _ :: effects' => rejected_later listed settled effects'
  end.

(** The value of a listed element once it has one: a publication that is
    no promise counts as its own value. *)
Definition resolution (s : State) (r : PublishResult) : option Publication :=
  match r with
  | ThePublication p | PromiseResolve p => Some p
  | PromiseReject _ => None
  | NewPromise n =>
      match settlements n s with
      | Resolved p :: _ => Some p
      | _ => None
      end
  end.

(** [Promise.all(promises)] as seen in [s], a state at or after the call:
    rejected with the error of the listed promise that is rejected first,
    resolved with the values in array order once every element has one,
    and pending until then. *)
Definition Promise_all_state (promises : list PublishResult) (s : State)
    : Joined :=
  match rejected_at_call promises with
  | Some e => JRejected e
  | None =>
      match rejected_later (new_promises promises) [] (trace s) with
      | Some e => JRejected e
      | None =>
          match mapM (resolution s) promises with
          | Some values => JResolved values
          | None => JPending
          end
      end
  end.

(** [deaf s s']: if the participant has no listener in [s], it has none in
    [s'], and the signaling collaborator's lookup of tracks is the same. *)
Definition deaf (s s' : State) : Prop :=
  handlers s = [] →
  handlers s' = [] ∧ signaling_tracks s' = signaling_tracks s.
(** * Facts about the model

    ** JavaScript [Map] *)

Module JsMapFacts.
Import JsMap.
Section JsMap_facts.
Context {V : Type}.
Implicit Types (m : JsMap.t V) (k : string) (v : V).

Lemma get_set m k v k' :
  get (set m k v) k' = if decide (k = k') then Some v else get m k'.
Proof.
  induction m as [|[k0 v0] m IH]; simpl.
  - repeat case_decide; congruence.
  - destruct (decide (k0 = k)) as [->|Hne]; simpl.
    + repeat case_decide; congruence.
    + rewrite IH. repeat case_decide; congruence.
Qed.

Lemma get_set_eq m k v : get (set m k v) k = Some v.
Proof. rewrite get_set. by rewrite decide_True. Qed.

Lemma get_set_ne m k v k' : k ≠ k' → get (set m k v) k' = get m k'.
Proof. intros. rewrite get_set. by rewrite decide_False. Qed.

Lemma get_delete m k k' :
  get (delete m k) k' = if decide (k = k') then None else get m k'.
Proof.
  induction m as [|[k0 v0] m IH]; simpl.
  - by case_decide.
  - destruct (decide (k0 = k)) as [->|Hne]; simpl.
    + rewrite IH. repeat case_decide; congruence.
    + rewrite IH. repeat case_decide; congruence.
Qed.

Lemma get_delete_eq m k : get (delete m k) k = None.
Proof. rewrite get_delete. by rewrite decide_True. Qed.

Lemma get_delete_ne m k k' : k ≠ k' → get (delete m k) k' = get m k'.
Proof. intros. rewrite get_delete. by rewrite decide_False. Qed.

Lemma delete_absent m k : get m k = None → delete m k = m.
Proof.
  induction m as [|[k0 v0] m IH]; simpl; [done|].
  case_decide; [done|]. intros Hg. by rewrite IH.
Qed.

Lemma has_true m k : has m k = true ↔ ∃ v, get m k = Some v.
Proof. unfold has. destruct (get m k); naive_solver. Qed.

Lemma has_false m k : has m k = false ↔ get m k = None.
Proof. unfold has. destruct (get m k); naive_solver. Qed.

Lemma get_Some_elem m k v : get m k = Some v → (k, v) ∈ m.
Proof.
  induction m as [|[k0 v0] m IH]; simpl; [done|].
  case_decide; intros; simplify_eq; [left | right; auto].
Qed.

Lemma get_None_keys m k : get m k = None ↔ k ∉ keys m.
Proof.
  induction m as [|[k0 v0] m IH]; simpl.
  - split; [intros _; apply not_elem_of_nil | done].
  - rewrite not_elem_of_cons. case_decide; naive_solver.
Qed.

Lemma elem_get m k v : NoDup (keys m) → (k, v) ∈ m → get m k = Some v.
Proof.
  induction m as [|[k0 v0] m IH]; simpl.
  - intros _ H. by apply elem_of_nil in H.
  - rewrite NoDup_cons. intros [Hk Hnd] Hin.
    apply elem_of_cons in Hin as [Heq|Hin].
    + simplify_eq. by rewrite decide_True.
    + case_decide as Hd; [|by auto].
      subst. exfalso. apply Hk.
      apply list_elem_of_fmap. by exists (k, v).
Qed.

Lemma keys_set m k v :
  keys (set m k v) = if has m k then keys m else keys m ++ [k].
Proof.
  unfold has. induction m as [|[k0 v0] m IH]; simpl; [done|].
  case_decide; simpl; [by subst|].
  rewrite IH. by destruct (get m k).
Qed.

Lemma NoDup_keys_set m k v : NoDup (keys m) → NoDup (keys (set m k v)).
Proof.
  intros Hnd. rewrite keys_set. destruct (has m k) eqn:Hh; [done|].
  apply NoDup_app. split_and!; [done| |apply NoDup_singleton].
  intros x Hx Hx'. apply list_elem_of_singleton in Hx' as ->.
  apply has_false, get_None_keys in Hh. done.
Qed.

Lemma keys_delete_subseteq m k : keys (delete m k) ⊆ keys m.
Proof.
  induction m as [|[k0 v0] m IH]; simpl; [done|].
  case_decide; simpl.
  - intros x Hx. right. by apply IH.
  - intros x. rewrite !elem_of_cons. intros [->|Hx]; [by left|right; by apply IH].
Qed.

Lemma NoDup_keys_delete m k : NoDup (keys m) → NoDup (keys (delete m k)).
Proof.
  induction m as [|[k0 v0] m IH]; simpl; [done|].
  rewrite NoDup_cons. intros [Hk Hnd].
  case_decide; simpl; [by auto|].
  apply NoDup_cons. split; [|by auto].
  intros Hin. by apply keys_delete_subseteq in Hin.
Qed.

Lemma elem_values m v : v ∈ values m → ∃ k, (k, v) ∈ m.
Proof.
  unfold values. intros ([k v'] & -> & Hin)%list_elem_of_fmap.
  by exists k.
Qed.

Lemma values_elem m k v : (k, v) ∈ m → v ∈ values m.
Proof. intros. apply list_elem_of_fmap. by exists (k, v). Qed.

End JsMap_facts.

End JsMapFacts.

(** ** Lists of listeners and sets *)

Section removeListener_facts.
Context {A : Type} `{EqDecision A}.
Implicit Types (f g : A) (l : list A).

Lemma removeListener_head f l : removeListener f (f :: l) = l.
Proof. simpl. by rewrite decide_True. Qed.

Lemma removeListener_absent f l : f ∉ l → removeListener f l = l.
Proof.
  induction l as [|g l IH]; simpl; [done|].
  rewrite not_elem_of_cons. intros [Hne Hnin].
  rewrite decide_False by done. by rewrite IH.
Qed.

Lemma elem_of_removeListener f g l :
  g ∈ removeListener f l → g ∈ l.
Proof.
  induction l as [|h l IH]; simpl; [done|].
  case_decide; rewrite !elem_of_cons; [by right|].
  intros [->|Hin]; [by left | right; by apply IH].
Qed.

Lemma elem_of_removeListener_ne f g l :
  g ≠ f → g ∈ l → g ∈ removeListener f l.
Proof.
  intros Hne. induction l as [|h l IH]; simpl; [done|].
  rewrite elem_of_cons. case_decide as Hd.
  - intros [->|Hin]; [by subst|done].
  - rewrite elem_of_cons. intros [->|Hin]; [by left | right; by apply IH].
Qed.

Lemma removeListener_NoDup f l : NoDup l → f ∉ removeListener f l.
Proof.
  induction l as [|h l IH]; simpl; [intros _; apply not_elem_of_nil|].
  rewrite NoDup_cons. intros [Hh Hnd].
  case_decide as Hd; [by subst|].
  rewrite not_elem_of_cons. split; [done | by apply IH].
Qed.

Lemma removeListener_sublist f l : sublist (removeListener f l) l.
Proof.
  induction l as [|h l IH]; simpl; [done|].
  case_decide; [by apply sublist_cons | by apply sublist_skip].
Qed.

Lemma elem_of_Set_add f g l : g ∈ Set_add f l ↔ g = f ∨ g ∈ l.
Proof.
  unfold Set_add. case_bool_decide as Hin.
  - split; [by right | by intros [->|?]].
  - rewrite elem_of_app, list_elem_of_singleton. tauto.
Qed.

Lemma NoDup_Set_add f l : NoDup l → NoDup (Set_add f l).
Proof.
  unfold Set_add. case_bool_decide as Hin; [done|].
  intros Hnd. apply NoDup_app. split_and!; [done| |apply NoDup_singleton].
  intros x Hx ->%list_elem_of_singleton. done.
Qed.

Lemma new_Set_spec l :
  NoDup (new_Set l) ∧ ∀ f, f ∈ new_Set l ↔ f ∈ l.
Proof.
  unfold new_Set.
  cut (∀ acc, NoDup acc →
         NoDup (fold_left (λ set x, Set_add x set) l acc)
         ∧ ∀ f, f ∈ fold_left (λ set x, Set_add x set) l acc ↔ f ∈ acc ∨ f ∈ l).
  { intros Hc. destruct (Hc [] (NoDup_nil_2)) as [Hnd Hin].
    split; [done|]. intros f. rewrite Hin.
    split; [intros [Hf|Hf]; [by apply elem_of_nil in Hf | done] | by right]. }
  induction l as [|g l IH]; simpl; intros acc Hacc.
  - split; [done|]. intros f. split; [by left|].
    intros [Hf|Hf]; [done | by apply elem_of_nil in Hf].
  - destruct (IH (Set_add g acc) (NoDup_Set_add g acc Hacc)) as [Hnd Hin].
    split; [done|]. intros f.
    rewrite Hin, elem_of_Set_add, elem_of_cons. tauto.
Qed.

End removeListener_facts.

(** ** [getTrackPublication] *)

Lemma getTrackPublication_Some m track p :
  getTrackPublication m track = Some p →
  p ∈ JsMap.values m ∧ publication_of track p = true.
Proof.
  unfold getTrackPublication. intros [Hin Hp]%find_some.
  split; [by apply list_elem_of_In | done].
Qed.

Lemma getTrackPublication_None m track p :
  getTrackPublication m track = None →
  p ∈ JsMap.values m → publication_of track p = false.
Proof.
  unfold getTrackPublication. intros Hnone Hin%list_elem_of_In.
  by apply (find_none _ _ Hnone).
Qed.

Lemma publication_of_LocalTrack t p :
  publication_of (VLocalTrack t) p = true ↔ pub_track p = t.
Proof.
  unfold publication_of, is_track, is_mediaStreamTrack.
  destruct (mediaStreamTrack (pub_track p));
    rewrite orb_false_r, bool_decide_eq_true; done.
Qed.

Lemma getTrackPublication_get m track p :
  NoDup (JsMap.keys m) →
  getTrackPublication m track = Some p →
  ∃ sid, JsMap.get m sid = Some p ∧ publication_of track p = true.
Proof.
  intros Hnd [Hin Hp]%getTrackPublication_Some.
  apply JsMapFacts.elem_values in Hin as [sid Hin].
  exists sid. split; [by apply JsMapFacts.elem_get | done].
Qed.

Lemma getTrackPublication_None_get m track sid p :
  getTrackPublication m track = None →
  JsMap.get m sid = Some p → publication_of track p = false.
Proof.
  intros Hnone Hget. apply (getTrackPublication_None m track p Hnone).
  eapply JsMapFacts.values_elem, JsMapFacts.get_Some_elem, Hget.
Qed.

(** ** [publishTracks] on an array *)

Lemma publishTracks_array elements s :
  snd (publishTracks (VArray elements) s) = snd (map_publishTrack elements s)
  ∧ fst (publishTracks (VArray elements) s)
    = match fst (map_publishTrack elements s) with
      | Return promises => Return (Promise_all promises)
      | Throw e => Throw e
      end.
Proof.
  unfold publishTracks, bind.
  by destruct (map_publishTrack elements s) as [[promises|e] s'].
Qed.

(** ** Later turns *)

Lemma tick_cons s callback rest :
  timers s = callback :: rest →
  tick s = log (Emit callback) (with_timers rest s).
Proof. unfold tick. by intros ->. Qed.

Lemma tick_iter n s :
  n ≤ length (timers s) →
  trace (Nat.iter n tick s) = trace s ++ map Emit (take n (timers s))
  ∧ timers (Nat.iter n tick s) = drop n (timers s).
Proof.
  induction n as [|n IH]; intros Hn.
  - simpl. by rewrite app_nil_r.
  - destruct IH as [Htr Htm]; [lia|].
    destruct (lookup_lt_is_Some_2 (timers s) n) as [c Hl]; [lia|].
    rewrite (drop_S _ _ _ Hl) in Htm.
    rewrite Nat.iter_succ, (tick_cons _ _ _ Htm). simpl. rewrite Htr.
    by rewrite (take_S_r _ _ _ Hl), map_app, <- app_assoc.
Qed.

Lemma tick_idle s : timers s = [] → tick s = s.
Proof. unfold tick. by intros ->. Qed.

Lemma tick_iter_all n s :
  trace (Nat.iter n tick s) = trace s ++ map Emit (take n (timers s))
  ∧ timers (Nat.iter n tick s) = drop n (timers s).
Proof.
  induction n as [|n [Htr Htm]].
  { simpl. by rewrite app_nil_r. }
  destruct (decide (n < length (timers s))) as [Hlt|Hge].
  { apply tick_iter. lia. }
  assert (Hnil : timers (Nat.iter n tick s) = []).
  { rewrite Htm. apply drop_ge. lia. }
  assert (Hidle : tick (Nat.iter n tick s) = Nat.iter n tick s).
  { by apply tick_idle. }
  rewrite Nat.iter_succ, Hidle.
  split.
  - rewrite Htr. by rewrite !take_ge by lia.
  - rewrite Hnil. symmetry. apply drop_ge. lia.
Qed.

(** ** The four branches of [updated] *)

Section updated_branches.
Variables (s : State) (l : Listener) (ts : TrackSignaling).
Hypothesis Hts : heap s !! l_signaling l = Some ts.

Lemma updated_error_eq error :
  ts_error ts = Some error →
  updated l s =
    log (Reject (l_promise l) error)
      (setTimeout (trackPublicationFailed error (l_track l))
         (snd (_removeTrack (l_track l)
                 (removeListener_updated (l_signaling l) l s)))).
Proof. intros He. unfold updated. by rewrite Hts, He. Qed.

Lemma updated_unregistered_eq :
  ts_error ts = None →
  JsMap.has (tracks s) (track_id (l_track l)) = false →
  updated l s =
    log (Reject (l_promise l) (ErrWasUnpublished (l_track l)))
      (removeListener_updated (l_signaling l) l s).
Proof. intros He Hh. unfold updated. by rewrite Hts, He, Hh. Qed.

Lemma updated_waiting_eq :
  ts_error ts = None →
  JsMap.has (tracks s) (track_id (l_track l)) = true →
  truthy (ts_sid ts) = None →
  updated l s = s.
Proof. intros He Hh Hs. unfold updated. by rewrite Hts, He, Hh, Hs. Qed.

Lemma updated_reuse_eq sid p :
  ts_error ts = None →
  JsMap.has (tracks s) (track_id (l_track l)) = true →
  truthy (ts_sid ts) = Some sid →
  getTrackPublication (trackPublications s) (VLocalTrack (l_track l)) = Some p →
  updated l s =
    log (Resolve (l_promise l) p)
      (let s := removeListener_updated (l_signaling l) l s in
       if decide (signaling_state s = "connected")
       then setTimeout (trackPublished p) s else s).
Proof.
  intros He Hh Hs Hp. unfold updated. rewrite Hts, He, Hh, Hs. simpl.
  by rewrite Hp.
Qed.

Lemma updated_create_eq sid :
  ts_error ts = None →
  JsMap.has (tracks s) (track_id (l_track l)) = true →
  truthy (ts_sid ts) = Some sid →
  getTrackPublication (trackPublications s) (VLocalTrack (l_track l)) = None →
  updated l s =
    let p := asLocalTrackPublication (l_track l) sid in
    log (Resolve (l_promise l) p)
      (let s := removeListener_updated (l_signaling l) l s in
       let s :=
         with_trackPublications (JsMap.set (trackPublications s) sid p) s in
       let k := track_kind (l_track l) in
       let s :=
         with_publishedKindTracks k
           (JsMap.set (publishedKindTracks k s) sid p) s in
       if decide (signaling_state s = "connected")
       then setTimeout (trackPublished p) s else s).
Proof.
  intros He Hh Hs Hp. unfold updated. rewrite Hts, He, Hh, Hs. simpl.
  rewrite Hp. by destruct (track_kind (l_track l)).
Qed.

End updated_branches.

(** ** Projections of the state after a primitive *)

Lemma settlements_log n e s :
  settlements n (log e s) = settlements n s ++ from_option (λ o, [o]) [] (settlement_of n e).
Proof.
  unfold settlements, log. simpl. rewrite omap_app. simpl.
  by destruct (settlement_of n e).
Qed.

Lemma heap_removeTrack t s : heap (snd (_removeTrack t s)) = heap s.
Proof.
  unfold _removeTrack. destruct (JsMap.get _ _); [|done]. simpl.
  unfold emit_trackRemoved. by destruct (listening _ _).
Qed.

Lemma timers_removeTrack t s : timers (snd (_removeTrack t s)) = timers s.
Proof.
  unfold _removeTrack. destruct (JsMap.get _ _); [|done]. simpl.
  unfold emit_trackRemoved. by destruct (listening _ _).
Qed.

Lemma tracks_removeTrack t s :
  tracks (snd (_removeTrack t s)) = JsMap.delete (tracks s) (track_id t).
Proof.
  unfold _removeTrack. destruct (JsMap.get _ _) eqn:Hg.
  - simpl. unfold emit_trackRemoved. by destruct (listening _ _).
  - simpl. by rewrite JsMapFacts.delete_absent.
Qed.

Lemma trace_removeTrack t s :
  trace (snd (_removeTrack t s)) =
    trace s ++ match JsMap.get (tracks s) (track_id t) with
               | Some t' => [Emit (trackRemoved t')]
               | None => []
               end.
Proof.
  unfold _removeTrack. destruct (JsMap.get _ _) eqn:Hg; simpl.
  - unfold emit_trackRemoved. by destruct (listening _ _).
  - by rewrite app_nil_r.
Qed.

Lemma signaling_state_removeTrack t s :
  signaling_state (snd (_removeTrack t s)) = signaling_state s.
Proof.
  unfold _removeTrack. destruct (JsMap.get _ _); [|done]. simpl.
  unfold emit_trackRemoved. by destruct (listening _ _).
Qed.

Lemma lookup_removeListener_updated r l s ts :
  heap s !! r = Some ts →
  heap (removeListener_updated r l s) !! r = Some (ts_removeListener_updated l ts).
Proof.
  intros Hts. unfold removeListener_updated. simpl.
  by rewrite list_lookup_alter_eq, Hts.
Qed.

Lemma updated_error_effects s l ts error :
  heap s !! l_signaling l = Some ts → ts_error ts = Some error →
  timers (updated l s) =
    timers s ++ [trackPublicationFailed error (l_track l)]
  ∧ trace (updated l s) =
      trace s
      ++ match JsMap.get (tracks s) (track_id (l_track l)) with
         | Some t => [Emit (trackRemoved t)]
         | None => []
         end
      ++ [Reject (l_promise l) error].
Proof.
  intros Hts He. rewrite (updated_error_eq s l ts Hts error He). simpl.
  rewrite timers_removeTrack, trace_removeTrack. simpl.
  by rewrite <- app_assoc.
Qed.

(** ** What only the constructor and the teardown touch *)

Lemma stable_refl s : stable s s.
Proof. done. Qed.

Lemma stable_trans s1 s2 s3 : stable s1 s2 → stable s2 s3 → stable s1 s3.
Proof. unfold stable. intros (-> & -> & ->) (-> & -> & ->). done. Qed.

Lemma stable_fold {A} (f : State → A → State) (l : list A) :
  (∀ s a, stable s (f s a)) → ∀ s, stable s (fold_left f l s).
Proof.
  intros Hf. induction l as [|a l IH]; simpl; intros s; [done|].
  eapply stable_trans; [apply Hf | apply IH].
Qed.

Lemma stable_addTrack t s : stable s (snd (_addTrack t s)).
Proof.
  unfold _addTrack. destruct (JsMap.has _ _); [done|]. simpl.
  unfold emit_trackAdded. by destruct (listening _ _).
Qed.

Lemma stable_removeTrack t s : stable s (snd (_removeTrack t s)).
Proof.
  unfold _removeTrack. destruct (JsMap.get _ _); [|done]. simpl.
  unfold emit_trackRemoved. by destruct (listening _ _).
Qed.

Lemma stable_getOrCreate t s :
  stable s (snd (_getOrCreateLocalTrackPublication t s)).
Proof.
  unfold _getOrCreateLocalTrackPublication.
  destruct (getTrackPublication _ _); [done|].
  by destruct (JsMap.get _ _).
Qed.

Lemma stable_updated l s : stable s (updated l s).
Proof.
  unfold updated. destruct (heap s !! l_signaling l) as [ts|]; [|done].
  destruct (ts_error ts).
  { eapply stable_trans; [|apply (stable_removeTrack (l_track l))]. done. }
  destruct (negb _); [done|].
  destruct (truthy _); [|done]. simpl.
  destruct (getTrackPublication _ _).
  - by destruct (decide _).
  - destruct (track_kind (l_track l)); by destruct (decide _).
Qed.

Lemma stable_emit_updated r s : stable s (emit_updated r s).
Proof.
  unfold emit_updated. destruct (heap s !! r); [|done].
  apply stable_fold. intros. apply stable_updated.
Qed.

Lemma stable_publishFailed r e s : stable s (publishFailed r e s).
Proof.
  unfold publishFailed.
  eapply stable_trans; [|apply stable_emit_updated]. done.
Qed.

Lemma stable_setSid r sid s : stable s (setSid r sid s).
Proof.
  unfold setSid. eapply stable_trans; [|apply stable_emit_updated]. done.
Qed.

Lemma stable_publishTrack track name s :
  stable s (snd (publishTrack track name s)).
Proof.
  unfold publishTrack. destruct (getTrackPublication _ _); [done|].
  destruct (asLocalTrack track name s) as [[t|e] s1] eqn:Has; [|].
  - assert (Hs1 : stable s s1).
    { unfold asLocalTrack in Has. destruct track; by simplify_eq. }
    destruct (_addTrack t s1) as [added s2] eqn:Hadd.
    assert (Hs2 : stable s1 s2).
    { pose proof (stable_addTrack t s1) as H. by rewrite Hadd in H. }
    destruct added as [t'|]; [|destruct (JsMap.get _ _) as [t'|]].
    + unfold lift.
      pose proof (stable_getOrCreate t' s2) as H.
      destruct (_getOrCreateLocalTrackPublication t' s2). simpl in *.
      eauto using stable_trans.
    + unfold lift.
      pose proof (stable_getOrCreate t' s2) as H.
      destruct (_getOrCreateLocalTrackPublication t' s2). simpl in *.
      eauto using stable_trans.
    + simpl. eauto using stable_trans.
  - unfold asLocalTrack in Has. destruct track; by simplify_eq.
Qed.

Lemma stable_map_publishTrack tracks s :
  stable s (snd (map_publishTrack tracks s)).
Proof.
  revert s. induction tracks as [|track tracks IH]; intros s; [done|].
  simpl. unfold bind.
  pose proof (stable_publishTrack track None s) as H1.
  destruct (publishTrack track None s) as [[r|e] s1]; [|done].
  pose proof (IH s1) as H2.
  destruct (map_publishTrack tracks s1) as [[rs|e] s2]; simpl in *;
    eauto using stable_trans.
Qed.

Lemma validateLocalTrack_eq track s :
  validateLocalTrack track s =
    (if is_track_type track then Return tt
     else Throw (INVALID_TYPE "track" track_types), s).
Proof. by destruct track. Qed.

Lemma unpublishTrack_invalid track s :
  is_track_type track = false →
  unpublishTrack track s = (Throw (INVALID_TYPE "track" track_types), s).
Proof.
  intros Hv. unfold unpublishTrack, bind.
  by rewrite validateLocalTrack_eq, Hv.
Qed.

Lemma stable_unpublishTrack track s :
  stable s (snd (unpublishTrack track s)).
Proof.
  unfold unpublishTrack, bind. rewrite validateLocalTrack_eq.
  destruct (is_track_type track); [|done].
  - destruct (value_id track ≫= JsMap.get (tracks s)) as [t|]; [|done].
    destruct (JsMap.get (signaling_tracks s) (track_id t)) as [r|]; [|done].
    simpl.
    eapply stable_trans; [apply (stable_publishFailed r (ErrWasUnpublished t))|].
    eapply stable_trans; [|apply stable_removeTrack].
    destruct (getTrackPublication _ _); [|done].
    by destruct (track_kind t).
Qed.

Lemma stable_reduce_unpublishTrack tracks acc s :
  stable s (snd (reduce_unpublishTrack tracks acc s)).
Proof.
  revert acc s. induction tracks as [|track tracks IH]; intros acc s; [done|].
  simpl. unfold bind.
  pose proof (stable_unpublishTrack track s) as H1.
  destruct (unpublishTrack track s) as [[r|e] s1]; [|done].
  eapply stable_trans; [exact H1 | apply IH].
Qed.

Lemma stable_tick s : stable s (tick s).
Proof. unfold tick. by destruct (timers s). Qed.

Lemma tracksToStop_stateChanged state s :
  _tracksToStop (stateChanged state s) = _tracksToStop s.
Proof.
  unfold stateChanged. case_decide; [|done].
  set (s0 := self_removeListener HLocalTrackRemoved _).
  destruct (stable_fold (λ s track, track_stop track s) (_tracksToStop s0)
              (λ s t, stable_refl _) s0) as [-> _].
  done.
Qed.

(** Computations built with [bind]. *)
Section composition.
Context {A B : Type}.

Lemma keeps_bind P (c : M A) (k : A → M B) :
  keeps P c → (∀ a, keeps P (k a)) → keeps P (bind c k).
Proof.
  intros Hc Hk s Hs. unfold bind. specialize (Hc s Hs).
  destruct (c s) as [[a|e] s1]; [by apply Hk | done].
Qed.

Lemma keeps_ret P (a : A) : keeps P (ret a).
Proof. by intros s Hs. Qed.

Lemma keeps_throw P e : keeps P (@throw A e).
Proof. by intros s Hs. Qed.

Lemma keeps_gets P (f : State → A) : keeps P (gets f).
Proof. by intros s Hs. Qed.

End composition.

Lemma keeps_validateLocalTrack P track : keeps P (validateLocalTrack track).
Proof. intros s Hs. rewrite validateLocalTrack_eq. by destruct (is_track_type _). Qed.

Lemma keeps_catch P result : keeps P (catch result).
Proof. intros s Hs. by destruct result. Qed.

Lemma keeps_filter_absent P trs : keeps P (filter_absent trs).
Proof.
  induction trs as [|track trs IH]; [apply keeps_ret|].
  assert (Hgen : keeps P (do present <- gets (tracks_has track);
                          do rest <- filter_absent trs;
                          ret (if present then rest else track :: rest))).
  { apply keeps_bind; [apply keeps_gets|]. intros present.
    apply keeps_bind; [exact IH|]. intros rest. apply keeps_ret. }
  destruct track; try exact Hgen; apply keeps_throw.
Qed.

Lemma keeps_addTrack P track :
  (∀ name, keeps P (publishTrack track name)) → keeps P (addTrack track).
Proof.
  intros Hpub. unfold addTrack.
  apply keeps_bind; [apply keeps_validateLocalTrack|]. intros _.
  apply keeps_bind; [apply keeps_gets|]. intros [|]; [apply keeps_ret|].
  apply keeps_bind; [apply Hpub|]. intros result.
  apply keeps_bind; [apply keeps_catch|]. intros _. apply keeps_gets.
Qed.

Lemma keeps_addTracks P trs :
  (∀ elements, keeps P (publishTracks (VArray elements))) →
  keeps P (addTracks trs).
Proof.
  intros Hpub. unfold addTracks.
  destruct trs; try apply keeps_throw.
  apply keeps_bind; [apply keeps_filter_absent|]. intros filtered.
  apply keeps_bind; [apply Hpub|]. intros _. apply keeps_gets.
Qed.

Lemma keeps_removeTrack P track stop :
  keeps P (unpublishTrack track) →
  (∀ t s, P s → P (track_stop t s)) →
  keeps P (removeTrack track stop).
Proof.
  intros Hun Hstop. unfold removeTrack.
  apply keeps_bind; [exact Hun|]. intros [p|]; simpl; [|apply keeps_ret].
  destruct (default true stop); [|apply keeps_ret].
  apply keeps_bind; [|intros _; apply keeps_ret].
  intros s Hs. by apply Hstop.
Qed.

Lemma keeps_removeTracks P trs stop :
  keeps P (unpublishTracks trs) →
  (∀ t s, P s → P (track_stop t s)) →
  keeps P (removeTracks trs stop).
Proof.
  intros Hun Hstop. unfold removeTracks.
  apply keeps_bind; [exact Hun|]. intros pubs.
  apply keeps_bind; [|intros _; apply keeps_ret].
  intros s Hs. simpl. revert s Hs.
  induction pubs as [|p pubs IH]; intros s Hs; simpl; [done|].
  apply IH. destruct (default true stop); [by apply Hstop | done].
Qed.

(** [stable] as a property of the state after, for a fixed state before. *)
Lemma stable_keeps {A} (c : M A) :
  (∀ s0, keeps (stable s0) c) → ∀ s, stable s (snd (c s)).
Proof. intros Hc s. apply Hc, stable_refl. Qed.

Lemma keeps_stable_publishTrack s0 track name :
  keeps (stable s0) (publishTrack track name).
Proof.
  intros s Hs. eapply stable_trans; [exact Hs | apply stable_publishTrack].
Qed.

Lemma keeps_stable_publishTracks s0 trs : keeps (stable s0) (publishTracks trs).
Proof.
  intros s Hs. eapply stable_trans; [exact Hs|].
  destruct trs as [| | | |elements| |]; try done.
  rewrite (proj1 (publishTracks_array elements s)).
  apply stable_map_publishTrack.
Qed.

Lemma keeps_stable_unpublishTrack s0 track :
  keeps (stable s0) (unpublishTrack track).
Proof.
  intros s Hs. eapply stable_trans; [exact Hs | apply stable_unpublishTrack].
Qed.

Lemma keeps_stable_unpublishTracks s0 trs :
  keeps (stable s0) (unpublishTracks trs).
Proof.
  intros s Hs. eapply stable_trans; [exact Hs|].
  unfold unpublishTracks. destruct trs; try done.
  apply stable_reduce_unpublishTrack.
Qed.

Lemma stable_call op s :
  (∀ state, op ≠ Signaling_state state) →
  (∀ r sid, op ≠ Signaling_sid r sid) →
  (∀ r e, op ≠ Signaling_publishFailed r e) →
  (∀ r, op ≠ Signaling_updated r) →
  op ≠ Turn →
  stable s (exec op s).
Proof.
  intros H1 H2 H3 H4 H5.
  destruct op as [track name|trs|track|trs|track|trs|track stop|trs stop
                 |r sid|r e|r|state|]; simpl; try done.
  - apply stable_publishTrack.
  - by apply (keeps_stable_publishTracks s).
  - apply stable_unpublishTrack.
  - by apply (keeps_stable_unpublishTracks s).
  - apply (stable_keeps (addTrack track)). intros s0.
    apply keeps_addTrack. intros name. apply keeps_stable_publishTrack.
  - apply (stable_keeps (addTracks trs)). intros s0.
    apply keeps_addTracks. intros elements. apply keeps_stable_publishTracks.
  - apply (stable_keeps (removeTrack track stop)). intros s0.
    apply keeps_removeTrack; [apply keeps_stable_unpublishTrack|].
    intros t s1 Hs1. exact Hs1.
  - apply (stable_keeps (removeTracks trs stop)). intros s0.
    apply keeps_removeTracks; [apply keeps_stable_unpublishTracks|].
    intros t s1 Hs1. exact Hs1.
  - by destruct (H2 r sid).
  - by destruct (H3 r e).
  - by destruct (H4 r).
  - exfalso. by eapply H1.
Qed.

Lemma stable_exec op s :
  (∀ state, op ≠ Signaling_state state) → stable s (exec op s).
Proof.
  intros Hop.
  destruct op as [track name|trs|track|trs|track|trs|track stop|trs stop
                 |r sid|r e|r|state|];
    try (apply stable_call; intros; discriminate).
  - apply stable_setSid.
  - apply stable_publishFailed.
  - apply stable_emit_updated.
  - exfalso. by eapply Hop.
  - apply stable_tick.
Qed.

Lemma tracksToStop_exec op s : _tracksToStop (exec op s) = _tracksToStop s.
Proof.
  destruct op as [track name|trs|track|trs|track|trs|track stop|trs stop
                 |r sid|r e|r|state|];
    try (by apply stable_exec).
  simpl. unfold signaling_setState. destruct (listening _ _); [|done].
  by rewrite tracksToStop_stateChanged.
Qed.

Lemma handlers_exec op s :
  (∀ state, op ≠ Signaling_state state) → handlers (exec op s) = handlers s.
Proof. intros Hop. by apply stable_exec. Qed.

(** The teardown, effect by effect. *)
Lemma stateChanged_disconnected s :
  let s' := stateChanged "disconnected" s in
  trace s' =
    trace s
    ++ map RemoveListener
         [HStateChanged; HLocalTrackAdded; HLocalTrackDisabled;
          HLocalTrackEnabled; HLocalTrackRemoved]
    ++ map Stop (_tracksToStop s)
  ∧ handlers s' =
      removeListener HLocalTrackRemoved
        (removeListener HLocalTrackEnabled
           (removeListener HLocalTrackDisabled
              (removeListener HLocalTrackAdded
                 (removeListener HStateChanged (handlers s)))))
  ∧ tracks s' = tracks s
  ∧ trackPublications s' = trackPublications s
  ∧ signaling_tracks s' = signaling_tracks s
  ∧ heap s' = heap s
  ∧ timers s' = timers s
  ∧ signaling_state s' = signaling_state s.
Proof.
  unfold stateChanged. rewrite decide_True by done.
  set (s0 := self_removeListener HLocalTrackRemoved _).
  change (_tracksToStop s) with (_tracksToStop s0).
  assert (Hfold : ∀ ts s1,
    let s' := fold_left (λ s track, track_stop track s) ts s1 in
    trace s' = trace s1 ++ map Stop ts
    ∧ handlers s' = handlers s1 ∧ tracks s' = tracks s1
    ∧ trackPublications s' = trackPublications s1
    ∧ signaling_tracks s' = signaling_tracks s1
    ∧ heap s' = heap s1 ∧ timers s' = timers s1
    ∧ signaling_state s' = signaling_state s1).
  { induction ts as [|t ts IH]; intros s1; simpl.
    - by rewrite app_nil_r.
    - destruct (IH (track_stop t s1)) as (-> & -> & -> & -> & -> & -> & -> & ->).
      simpl. by rewrite <- app_assoc. }
  destruct (Hfold (_tracksToStop s0) s0) as (-> & -> & -> & -> & -> & -> & -> & ->).
  subst s0. simpl. rewrite <- !app_assoc. done.
Qed.

Lemma handlers_handleTrackSignalingEvents s :
  handlers (_handleTrackSignalingEvents s) =
    if decide (signaling_state s = "disconnected") then handlers s
    else handlers s ++ registered_handlers.
Proof.
  unfold _handleTrackSignalingEvents. case_decide; [done|].
  match goal with
  | |- handlers (self_on _ (fold_left ?f ?l ?s1)) = _ =>
      assert (Hst : stable s1 (fold_left f l s1))
  end.
  { apply stable_fold. intros s2 t.
    eapply stable_trans; [|apply stable_getOrCreate]. done. }
  destruct Hst as (_ & Hh & _).
  match goal with
  | |- handlers (self_on ?h ?x) = _ =>
      change (handlers (self_on h x)) with (handlers x ++ [h])
  end.
  rewrite Hh. simpl. by rewrite <- !app_assoc.
Qed.

Lemma handlers_LocalParticipant state localTracks should :
  handlers (LocalParticipant state localTracks should) =
    if decide (state = "disconnected") then [] else registered_handlers.
Proof.
  unfold LocalParticipant.
  rewrite handlers_handleTrackSignalingEvents. reflexivity.
Qed.

Lemma reachable_handlers s :
  reachable s → handlers s = registered_handlers ∨ handlers s = [].
Proof.
  induction 1 as [state localTracks should|s op Hs IH Hp].
  - rewrite handlers_LocalParticipant. case_decide; auto.
  - assert (Hcase : (∃ state, op = Signaling_state state)
                    ∨ ∀ state, op ≠ Signaling_state state).
    { destruct op; eauto. }
    destruct Hcase as [[state ->]|Hno].
    + unfold exec, signaling_setState.
      destruct (listening _ _); [|exact IH].
      destruct (decide (state = "disconnected")) as [->|Hne].
      * destruct (stateChanged_disconnected
                    (with_signaling_state "disconnected" s)) as (_ & Hh & _).
        rewrite Hh.
        change (handlers (with_signaling_state "disconnected" s))
          with (handlers s).
        destruct IH as [->| ->]; right; reflexivity.
      * unfold stateChanged. rewrite decide_False by done. exact IH.
    + by rewrite handlers_exec.
Qed.

Lemma tracksToStop_LocalParticipant state localTracks should :
  _tracksToStop (LocalParticipant state localTracks should) =
    tracksToStop should localTracks.
Proof.
  unfold LocalParticipant.
  set (s0 := Participant state _ _).
  assert (Hts : _tracksToStop s0 = tracksToStop should localTracks)
    by reflexivity.
  unfold _handleTrackSignalingEvents. case_decide; [by rewrite Hts|].
  match goal with
  | |- _tracksToStop (self_on _ (fold_left ?f ?l ?s1)) = _ =>
      assert (Hst : stable s1 (fold_left f l s1))
  end.
  { apply stable_fold. intros s2 t.
    eapply stable_trans; [|apply stable_getOrCreate]. done. }
  destruct Hst as (Hts' & _ & _).
  match goal with
  | |- _tracksToStop (self_on ?h ?x) = _ =>
      change (_tracksToStop (self_on h x)) with (_tracksToStop x)
  end.
  rewrite Hts'. exact Hts.
Qed.

Lemma tracksToStop_execs ops s :
  _tracksToStop (fold_left (λ s op, exec op s) ops s) = _tracksToStop s.
Proof.
  revert s. induction ops as [|op ops IH]; intros s; simpl; [done|].
  by rewrite IH, tracksToStop_exec.
Qed.

Lemma elem_of_tracksToStop should localTracks t :
  t ∈ tracksToStop should localTracks
  ↔ should = true ∧ t ∈ localTracks ∧ track_kind t ≠ data.
Proof.
  unfold tracksToStop. destruct should.
  - destruct (new_Set_spec (filter (λ lt, track_kind lt ≠ data) localTracks))
      as [_ Hin].
    rewrite Hin, list_elem_of_filter. tauto.
  - split; [intros Hin; by apply elem_of_nil in Hin | by intros [? _]].
Qed.

Lemma NoDup_tracksToStop should localTracks :
  NoDup (tracksToStop should localTracks).
Proof.
  unfold tracksToStop. destruct should.
  - apply new_Set_spec.
  - apply NoDup_nil_2.
Qed.


(** ** The invariant depends on part of the state only *)

Lemma lookup_record_ids h h' r ts' :
  map record_ids h' = map record_ids h →
  h' !! r = Some ts' →
  ∃ ts, h !! r = Some ts ∧ ts_id ts = ts_id ts' ∧ ts_sid ts = ts_sid ts'.
Proof.
  intros Hmap Hts'.
  apply (f_equal (λ x, x !! r)) in Hmap.
  rewrite !list_lookup_fmap, Hts' in Hmap.
  destruct (h !! r) as [ts|]; [|done].
  exists ts. simpl in Hmap. unfold record_ids in Hmap. by simplify_eq.
Qed.

Lemma lookup_record_listeners h h' r ts' :
  map record_listeners h' = map record_listeners h →
  h' !! r = Some ts' →
  ∃ ts, h !! r = Some ts ∧ ts_id ts = ts_id ts'
        ∧ ts_listeners ts = ts_listeners ts'.
Proof.
  intros Hmap Hts'.
  apply (f_equal (λ x, x !! r)) in Hmap.
  rewrite !list_lookup_fmap, Hts' in Hmap.
  destruct (h !! r) as [ts|]; [|done].
  exists ts. simpl in Hmap. unfold record_listeners in Hmap. by simplify_eq.
Qed.

Lemma attached_ext s s' r l :
  map record_listeners (heap s') = map record_listeners (heap s) →
  attached s' r l ↔ attached s r l.
Proof.
  intros Hmap. unfold attached. split; intros (ts & Hts & Hin).
  - destruct (lookup_record_listeners _ _ _ _ Hmap Hts) as (ts0 & ? & _ & Hl).
    exists ts0. by rewrite Hl.
  - destruct (lookup_record_listeners _ _ _ _ (eq_sym Hmap) Hts)
      as (ts0 & ? & _ & Hl).
    exists ts0. by rewrite Hl.
Qed.

Lemma map_alter_same {A B} (f : A → B) (g : A → A) (r : nat) (h : list A) :
  (∀ x, f (g x) = f x) → map f (alter g r h) = map f h.
Proof.
  intros Hfg. revert r. induction h as [|x h IH]; intros [|r]; simpl; [done..| |].
  - by rewrite Hfg.
  - f_equal. apply IH.
Qed.

Lemma registries_ok_ext s s' :
  tracks s' = tracks s →
  trackPublications s' = trackPublications s →
  (∀ k, publishedKindTracks k s' = publishedKindTracks k s) →
  signaling_tracks s' = signaling_tracks s →
  map record_ids (heap s') = map record_ids (heap s) →
  registries_ok s → registries_ok s'.
Proof.
  intros Ht Hp Hk Hs Hh [H1 H2 H3 H4 H5 H6 H7 H8 H9].
  split; rewrite ?Ht, ?Hp, ?Hs; try done.
  - intros sid p Hget. destruct (H4 sid p Hget) as (? & ? & r & ts & Hts & ? & ?).
    split_and!; [done..|].
    destruct (lookup_record_ids _ _ _ _ (eq_sym Hh) Hts) as (ts' & ? & ? & ?).
    exists r, ts'. split_and!; congruence.
  - intros k sid p. rewrite Hk. apply H5.
  - intros sid p. rewrite Hk. apply H6.
  - intros r1 ts1 r2 ts2 sid Hr1 Hr2 Hs1 Hs2.
    destruct (lookup_record_ids _ _ _ _ Hh Hr1) as (ts1' & ? & ? & ?).
    destruct (lookup_record_ids _ _ _ _ Hh Hr2) as (ts2' & ? & ? & ?).
    apply (H8 r1 ts1' r2 ts2' sid); congruence.
  - intros i r Hget. destruct (H9 i r Hget) as (ts & Hts & ?).
    destruct (lookup_record_ids _ _ _ _ (eq_sym Hh) Hts) as (ts' & ? & ? & ?).
    exists ts'. split; congruence.
Qed.

Lemma pending_ext s s' n :
  map record_listeners (heap s') = map record_listeners (heap s) →
  pending s' n ↔ pending s n.
Proof.
  intros Hmap. unfold pending. split; intros (r & l & Ha & Hn);
    exists r, l; (split; [|done]).
  - by apply (attached_ext s s').
  - by apply (attached_ext s s').
Qed.

Lemma promises_ok_ext s s' :
  map record_listeners (heap s') = map record_listeners (heap s) →
  (∀ n, settlements n s' = settlements n s) →
  next_promise s' = next_promise s →
  promises_ok s → promises_ok s'.
Proof.
  intros Hh Hset Hn [H1 H2 H3 H4 H5]. split.
  - intros r l Ha%(attached_ext s s') ; [|done].
    destruct (H1 r l Ha) as (? & ? & ? & ts & Hts & ?).
    rewrite Hn, Hset. split_and!; [done..|].
    destruct (lookup_record_listeners _ _ _ _ (eq_sym Hh) Hts)
      as (ts' & ? & ? & ?).
    exists ts'. split; congruence.
  - intros r ts Hts.
    destruct (lookup_record_listeners _ _ _ _ Hh Hts) as (ts' & Hts' & _ & Hl).
    rewrite <- Hl. by apply (H2 r).
  - intros r1 l1 r2 l2 Ha1%(attached_ext s s') Ha2%(attached_ext s s'); try done.
    by apply H3.
  - intros n. rewrite Hn, Hset, (pending_ext s s') by done. apply H4.
  - intros n. rewrite Hn, Hset. apply H5.
Qed.

Lemma settled_listener_ext s s' r l :
  tracks s' = tracks s →
  trackPublications s' = trackPublications s →
  signaling_tracks s' = signaling_tracks s →
  settled_listener s r l → settled_listener s' r l.
Proof. unfold settled_listener. by intros -> -> ->. Qed.

Lemma omap_settles_nothing n (es : list Effect) :
  Forall settles_nothing es → omap (settlement_of n) es = [].
Proof.
  induction 1 as [|e es He _ IH]; [done|].
  destruct e; try done; exact IH.
Qed.

Lemma quiescent_ext s s' es :
  tracks s' = tracks s →
  trackPublications s' = trackPublications s →
  (∀ k, publishedKindTracks k s' = publishedKindTracks k s) →
  signaling_tracks s' = signaling_tracks s →
  heap s' = heap s →
  next_promise s' = next_promise s →
  trace s' = trace s ++ es → Forall settles_nothing es →
  quiescent s → quiescent s'.
Proof.
  intros Ht Hp Hk Hs Hh Hn Htr Hes (Hreg & Hprom & Hl).
  assert (Hset : ∀ n, settlements n s' = settlements n s).
  { intros n. unfold settlements. rewrite Htr, omap_app.
    by rewrite (omap_settles_nothing n es Hes), app_nil_r. }
  split_and!.
  - apply (registries_ok_ext s s'); by rewrite ?Hh.
  - apply (promises_ok_ext s s'); by rewrite ?Hh.
  - intros r l Ha. apply (settled_listener_ext s s'); try done.
    apply Hl. apply (attached_ext s s'); by rewrite ?Hh.
Qed.

(** ** The registry primitives, field by field *)

Lemma publishedKindTracks_with k k' x s :
  publishedKindTracks k' (with_publishedKindTracks k x s) =
    if decide (k = k') then x else publishedKindTracks k' s.
Proof. destruct k, k'; done. Qed.

Lemma removeTrack_fields t s :
  let s' := snd (_removeTrack t s) in
  tracks s' = JsMap.delete (tracks s) (track_id t)
  ∧ trackPublications s' = trackPublications s
  ∧ (∀ k, publishedKindTracks k s' = publishedKindTracks k s)
  ∧ (signaling_tracks s' = signaling_tracks s
     ∨ ∃ t', JsMap.get (tracks s) (track_id t) = Some t'
             ∧ signaling_tracks s' =
                 JsMap.delete (signaling_tracks s) (track_id t'))
  ∧ heap s' = heap s
  ∧ next_promise s' = next_promise s
  ∧ timers s' = timers s
  ∧ trace s' =
      trace s ++ match JsMap.get (tracks s) (track_id t) with
                 | Some t' => [Emit (trackRemoved t')]
                 | None => []
                 end.
Proof.
  simpl. rewrite tracks_removeTrack, trace_removeTrack, heap_removeTrack,
    timers_removeTrack.
  unfold _removeTrack. destruct (JsMap.get _ _) as [t'|] eqn:Hg; simpl.
  - unfold emit_trackRemoved. destruct (listening _ _); simpl.
    + split_and!; first [done | by intros [] | right; by exists t'].
    + split_and!; first [done | by intros [] | by left].
  - split_and!; first [done | by left].
Qed.

Lemma addTrack_fields t s :
  let s' := snd (_addTrack t s) in
  trackPublications s' = trackPublications s
  ∧ (∀ k, publishedKindTracks k s' = publishedKindTracks k s)
  ∧ next_promise s' = next_promise s
  ∧ timers s' = timers s
  ∧ if JsMap.has (tracks s) (track_id t) then s' = s
    else
      tracks s' = JsMap.set (tracks s) (track_id t) t
      ∧ trace s' = trace s ++ [Emit (trackAdded t)]
      ∧ ((signaling_tracks s' = signaling_tracks s ∧ heap s' = heap s
          ∧ listening HLocalTrackAdded s = false)
         ∨ (signaling_tracks s' =
              JsMap.set (signaling_tracks s) (track_id t) (length (heap s))
            ∧ heap s' =
                heap s ++ [{| ts_id := track_id t; ts_name := track_name t;
                              ts_error := None; ts_sid := None;
                              ts_listeners := [] |}]
            ∧ listening HLocalTrackAdded s = true)).
Proof.
  simpl. unfold _addTrack. destruct (JsMap.has _ _) eqn:Hh; simpl.
  - split_and!; done.
  - unfold emit_trackAdded.
    change (listening HLocalTrackAdded (log _ (with_tracks _ s)))
      with (listening HLocalTrackAdded s).
    destruct (listening HLocalTrackAdded s); simpl.
    + split_and!; first [done | by intros [] | by right].
    + split_and!; first [done | by intros [] | by left].
Qed.

Lemma registries_ok_removeTrack t s :
  registries_ok s →
  (∀ sid p, JsMap.get (trackPublications s) sid = Some p →
            track_id (pub_track p) ≠ track_id t) →
  registries_ok (snd (_removeTrack t s)).
Proof.
  intros [H1 H2 H3 H4 H5 H6 H7 H8 H9] Hnone.
  destruct (removeTrack_fields t s) as (Ht & Hp & Hk & Hs & Hh & _).
  split; rewrite ?Ht, ?Hp, ?Hh; try done.
  - intros i t0. rewrite JsMapFacts.get_delete. case_decide; [done|]. apply H1.
  - by apply JsMapFacts.NoDup_keys_delete.
  - intros sid p Hget. destruct (H4 sid p Hget) as (? & ? & ?).
    split_and!; [done| |done].
    rewrite JsMapFacts.get_delete_ne; [done|].
    intros Heq. by apply (Hnone sid p).
  - intros k sid p. rewrite Hk. apply H5.
  - intros sid p. rewrite Hk. apply H6.
  - intros i r. destruct Hs as [->|(t' & _ & ->)]; [apply H9|].
    rewrite JsMapFacts.get_delete. case_decide; [done|]. apply H9.
Qed.

Lemma registries_ok_addTrack t s :
  registries_ok s → registries_ok (snd (_addTrack t s)).
Proof.
  intros Hreg.
  destruct (addTrack_fields t s) as (Hp & Hk & _ & _ & Hcase).
  destruct (JsMap.has (tracks s) (track_id t)) eqn:Hhas.
  { simpl in Hcase. by rewrite Hcase. }
  apply JsMapFacts.has_false in Hhas.
  destruct Hcase as (Ht & _ & Hsig).
  destruct Hreg as [H1 H2 H3 H4 H5 H6 H7 H8 H9].
  assert (Hheap : ∀ r ts, heap s !! r = Some ts →
                    heap (snd (_addTrack t s)) !! r = Some ts).
  { intros r ts Hts. destruct Hsig as [(_ & -> & _)|(_ & -> & _)]; [done|].
    by apply lookup_app_l_Some. }
  assert (Hheap' : ∀ r ts, heap (snd (_addTrack t s)) !! r = Some ts →
                     heap s !! r = Some ts ∨ ts_sid ts = None).
  { intros r ts. destruct Hsig as [(_ & -> & _)|(_ & -> & _)]; [by left|].
    intros Hl. apply lookup_app_Some in Hl as [Hl|[_ Hl]]; [by left|].
    right. destruct (r - length (heap s)); simpl in Hl; by simplify_eq. }
  split; rewrite ?Ht, ?Hp; try done.
  - intros i t0. rewrite JsMapFacts.get_set.
    case_decide; [intros; by simplify_eq | apply H1].
  - by apply JsMapFacts.NoDup_keys_set.
  - intros sid p Hget.
    destruct (H4 sid p Hget) as (? & Hreg & r & ts & Hts & ? & ?).
    split_and!; [done| |].
    + rewrite JsMapFacts.get_set_ne; [done|]. intros Heq.
      rewrite <- Heq in Hreg. congruence.
    + exists r, ts. split_and!; [by apply Hheap|done..].
  - intros k sid p. rewrite Hk. apply H5.
  - intros sid p. rewrite Hk. apply H6.
  - intros r1 ts1 r2 ts2 sid Hr1 Hr2 Hs1 Hs2.
    destruct (Hheap' _ _ Hr1) as [Hr1'|?]; [|congruence].
    destruct (Hheap' _ _ Hr2) as [Hr2'|?]; [|congruence].
    by apply (H8 r1 ts1 r2 ts2 sid).
  - intros i r. destruct Hsig as [(-> & Hh & _)|(-> & Hh & _)].
    + rewrite Hh. apply H9.
    + rewrite JsMapFacts.get_set. case_decide as Hd.
      * intros [= <-]. eexists. rewrite Hh. split.
        { by apply list_lookup_middle. } done.
      * intros Hget. destruct (H9 i r Hget) as (ts & Hts & ?).
        exists ts. split; [|done]. rewrite Hh. by apply lookup_app_l_Some.
Qed.

Lemma registries_ok_heap s h :
  map record_ids h = map record_ids (heap s) →
  registries_ok s → registries_ok (with_heap h s).
Proof. intros Hh. apply registries_ok_ext; try done. Qed.

Lemma registries_ok_publish s t r ts sid :
  registries_ok s →
  JsMap.get (tracks s) (track_id t) = Some t →
  (∀ sid' p', JsMap.get (trackPublications s) sid' = Some p' →
              track_id (pub_track p') ≠ track_id t) →
  heap s !! r = Some ts → ts_sid ts = Some sid → ts_id ts = track_id t →
  let p := asLocalTrackPublication t sid in
  let s1 := with_trackPublications (JsMap.set (trackPublications s) sid p) s in
  registries_ok
    (with_publishedKindTracks (track_kind t)
       (JsMap.set (publishedKindTracks (track_kind t) s1) sid p) s1).
Proof.
  intros [H1 H2 H3 H4 H5 H6 H7 H8 H9] Ht Hnone Hts Hsid Hid p s1.
  assert (Hfresh : JsMap.get (trackPublications s) sid = None).
  { destruct (JsMap.get (trackPublications s) sid) as [p'|] eqn:Hp'; [|done].
    destruct (H4 sid p' Hp') as (_ & _ & r' & ts' & Hts' & Hsid' & Hid').
    assert (r' = r) as -> by (by apply (H8 r' ts' r ts sid)).
    exfalso. apply (Hnone sid p' Hp'). congruence. }
  assert (Hflat : trackPublications
            (with_publishedKindTracks (track_kind t)
               (JsMap.set (publishedKindTracks (track_kind t) s1) sid p) s1)
          = JsMap.set (trackPublications s) sid p).
  { by destruct (track_kind t). }
  split; rewrite ?Hflat.
  - by destruct (track_kind t).
  - by destruct (track_kind t).
  - by apply JsMapFacts.NoDup_keys_set.
  - intros sid' p'. rewrite JsMapFacts.get_set. case_decide as Hd.
    + intros [= <-]. subst sid'. split_and!; [done| |].
      * by destruct (track_kind t).
      * exists r, ts. by destruct (track_kind t).
    + intros Hget. destruct (H4 sid' p' Hget) as (? & ? & r' & ts' & ? & ? & ?).
      split_and!; [done| |].
      * by destruct (track_kind t).
      * exists r', ts'. by destruct (track_kind t).
  - intros k sid' p'. rewrite publishedKindTracks_with. case_decide as Hk.
    + subst k. rewrite !JsMapFacts.get_set. case_decide.
      * intros [= <-]. done.
      * apply H5.
    + intros Hget. destruct (H5 k sid' p' Hget) as [Hf ?].
      split; [|done]. rewrite JsMapFacts.get_set_ne; [done|].
      intros <-. congruence.
  - intros sid' p'. rewrite JsMapFacts.get_set, publishedKindTracks_with.
    case_decide as Hd.
    + intros [= <-]. subst sid'. rewrite decide_True by done.
      apply JsMapFacts.get_set_eq.
    + intros Hget. case_decide.
      * rewrite JsMapFacts.get_set_ne by done.
        replace (track_kind t) with (pub_kind p') by done. by apply H6.
      * by apply H6.
  - intros sid1 p1 sid2 p2. rewrite !JsMapFacts.get_set.
    repeat case_decide; intros; simplify_eq; try done.
    + exfalso. eapply Hnone; [eassumption|]. done.
    + exfalso. eapply Hnone; [eassumption|]. done.
    + by eapply H7.
  - intros r1 ts1 r2 ts2 sid'. destruct (track_kind t); apply H8.
  - intros i r'. destruct (track_kind t); apply H9.
Qed.

Lemma registries_ok_unpublish s sid p :
  registries_ok s →
  JsMap.get (trackPublications s) sid = Some p →
  let k := pub_kind p in
  let s1 :=
    with_publishedKindTracks k (JsMap.delete (publishedKindTracks k s) sid) s in
  let s2 :=
    with_trackPublications (JsMap.delete (trackPublications s1) sid) s1 in
  registries_ok s2
  ∧ ∀ sid' p', JsMap.get (trackPublications s2) sid' = Some p' →
               track_id (pub_track p') ≠ track_id (pub_track p).
Proof.
  intros [H1 H2 H3 H4 H5 H6 H7 H8 H9] Hp k s1 s2.
  assert (Hflat : trackPublications s2 = JsMap.delete (trackPublications s) sid).
  { subst s2 s1 k. by destruct (pub_kind p). }
  assert (Hkind : ∀ k', publishedKindTracks k' s2 =
            if decide (k = k') then JsMap.delete (publishedKindTracks k s) sid
            else publishedKindTracks k' s).
  { intros k'. subst s2 s1.
    change (publishedKindTracks k' (with_trackPublications ?x ?y))
      with (publishedKindTracks k' y).
    apply publishedKindTracks_with. }
  split; [split|]; rewrite ?Hflat.
  - subst s2 s1 k. by destruct (pub_kind p).
  - subst s2 s1 k. by destruct (pub_kind p).
  - by apply JsMapFacts.NoDup_keys_delete.
  - intros sid' p'. rewrite JsMapFacts.get_delete. case_decide; [done|].
    intros Hget. destruct (H4 sid' p' Hget) as (? & ? & r' & ts' & ? & ? & ?).
    split_and!; [done| |].
    + subst s2 s1 k. by destruct (pub_kind p).
    + exists r', ts'. subst s2 s1 k. by destruct (pub_kind p).
  - intros k' sid' p'. rewrite Hkind. case_decide as Hk.
    + rewrite !JsMapFacts.get_delete. case_decide; [done|].
      subst k'. apply H5.
    + intros Hget. destruct (H5 k' sid' p' Hget) as [Hf Hk'].
      split; [|done]. rewrite JsMapFacts.get_delete_ne; [done|].
      intros <-. apply Hk. subst k. congruence.
  - intros sid' p'. rewrite JsMapFacts.get_delete, Hkind.
    case_decide; [done|]. intros Hget.
    case_decide as Hk.
    + rewrite JsMapFacts.get_delete_ne by done.
      rewrite Hk. by apply H6.
    + by apply H6.
  - intros sid1 p1 sid2 p2. rewrite !JsMapFacts.get_delete.
    repeat case_decide; try done. apply H7.
  - intros r1 ts1 r2 ts2 sid'. subst s2 s1 k. destruct (pub_kind p); apply H8.
  - intros i r'. subst s2 s1 k. destruct (pub_kind p); apply H9.
  - intros sid' p'. rewrite JsMapFacts.get_delete. case_decide as Hd; [done|].
    intros Hget Heq. apply Hd. symmetry. by apply (H7 sid' p' sid p).
Qed.

Lemma registries_ok_set_sid s r ts sid :
  registries_ok s →
  heap s !! r = Some ts → ts_sid ts = None →
  (∀ r' ts', heap s !! r' = Some ts' → ts_sid ts' ≠ Some sid) →
  registries_ok (with_heap (alter (ts_set_sid sid) r (heap s)) s).
Proof.
  intros [H1 H2 H3 H4 H5 H6 H7 H8 H9] Hts Hnone Hfresh.
  assert (Hlook : ∀ r' ts', alter (ts_set_sid sid) r (heap s) !! r' = Some ts' →
            (r' = r ∧ ts' = ts_set_sid sid ts)
            ∨ (r' ≠ r ∧ heap s !! r' = Some ts')).
  { intros r' ts'. rewrite list_lookup_alter. case_decide as Hd.
    - subst r'. rewrite Hts. simpl. intros [= <-]. by left.
    - intros ?. by right. }
  split; simpl; try done.
  - intros sid' p Hget.
    destruct (H4 sid' p Hget) as (? & ? & r' & ts' & Hts' & Hsid' & ?).
    split_and!; [done..|].
    exists r', ts'. split_and!; [|done..].
    rewrite list_lookup_alter_ne; [done|]. intros ->. congruence.
  - intros r1 ts1 r2 ts2 sid' Hr1 Hr2 Hs1 Hs2.
    destruct (Hlook _ _ Hr1) as [[-> ->]|[? Hr1']];
      destruct (Hlook _ _ Hr2) as [[-> ->]|[? Hr2']]; try done.
    + simpl in Hs1. simplify_eq. by destruct (Hfresh _ _ Hr2').
    + simpl in Hs2. simplify_eq. by destruct (Hfresh _ _ Hr1').
    + by apply (H8 r1 ts1 r2 ts2 sid').
  - intros i r' Hget. destruct (H9 i r' Hget) as (ts' & Hts' & ?).
    destruct (decide (r' = r)) as [->|Hne].
    + exists (ts_set_sid sid ts'). rewrite list_lookup_alter_eq, Hts'. done.
    + exists ts'. by rewrite list_lookup_alter_ne.
Qed.

(** ** Promises *)

Lemma NoDup_fmap_eq {A B} (f : A → B) (l : list A) x y :
  NoDup (map f l) → x ∈ l → y ∈ l → f x = f y → x = y.
Proof.
  induction l as [|a l IH]; simpl; [by intros _ ?%elem_of_nil|].
  rewrite NoDup_cons, !elem_of_cons. intros [Ha Hnd] [->|Hx] [->|Hy] Heq.
  - done.
  - exfalso. apply Ha. rewrite Heq. apply list_elem_of_fmap. eauto.
  - exfalso. apply Ha. rewrite <- Heq. apply list_elem_of_fmap. eauto.
  - by apply IH.
Qed.

Lemma NoDup_fmap_removeListener {A B} `{EqDecision A} (f : A → B) x (l : list A) :
  NoDup (map f l) → NoDup (map f (removeListener x l)).
Proof.
  intros Hnd. apply (sublist_NoDup _ _ Hnd).
  apply (fmap_sublist f), removeListener_sublist.
Qed.

Lemma NoDup_of_fmap {A B} (f : A → B) (l : list A) :
  NoDup (map f l) → NoDup l.
Proof. apply NoDup_fmap_1. Qed.

Lemma attached_settle s s' r l ts r' l' :
  promises_ok s →
  heap s !! r = Some ts → l ∈ ts_listeners ts →
  heap s' = alter (ts_removeListener_updated l) r (heap s) →
  attached s' r' l' ↔ attached s r' l' ∧ l' ≠ l.
Proof.
  intros Hprom Hts Hl Hheap. unfold attached. rewrite Hheap.
  pose proof (listener_unique s Hprom r ts Hts) as Hnd.
  destruct (decide (r' = r)) as [->|Hne].
  - rewrite list_lookup_alter_eq, Hts. simpl. split.
    + intros (ts' & [= <-] & Hin). simpl in Hin. split.
      * exists ts. split; [done|]. by apply elem_of_removeListener in Hin.
      * intros ->. revert Hin. apply removeListener_NoDup.
        by apply NoDup_of_fmap in Hnd.
    + intros [(ts' & Hts' & Hin) Hneq]. simplify_eq.
      eexists. split; [done|]. simpl. by apply elem_of_removeListener_ne.
  - rewrite list_lookup_alter_ne by done. split.
    + intros (ts' & Hts' & Hin). split; [by exists ts'|].
      intros ->. apply Hne.
      apply (promise_unique s Hprom r' l r l); [by exists ts'|by exists ts|done].
    + intros [? _]. done.
Qed.

Lemma promises_ok_settle s s' r l ts o :
  promises_ok s →
  heap s !! r = Some ts → l ∈ ts_listeners ts →
  heap s' = alter (ts_removeListener_updated l) r (heap s) →
  next_promise s' = next_promise s →
  (∀ n, settlements n s' =
        settlements n s ++ if decide (n = l_promise l) then [o] else []) →
  promises_ok s'.
Proof.
  intros Hprom Hts Hl Hheap Hnext Hset.
  pose proof (attached_settle s s' r l ts) as Hatt.
  assert (Hla : attached s r l) by (by exists ts).
  assert (Hother : ∀ r' l', attached s r' l' → l' ≠ l →
                     l_promise l' ≠ l_promise l).
  { intros r' l' Ha Hneq Heq. apply Hneq.
    assert (r' = r) as -> by (by apply (promise_unique s Hprom r' l' r l)).
    destruct Ha as (ts' & Hts' & Hin). simplify_eq.
    eapply (NoDup_fmap_eq l_promise); [by eapply (listener_unique s)|done..]. }
  split.
  - intros r' l' [Ha Hneq]%Hatt; [|done..].
    destruct (listener_closure s Hprom r' l' Ha) as (? & ? & Hs & ts' & Hts' & ?).
    rewrite Hnext, Hset, Hs, decide_False by (by apply (Hother r')).
    split_and!; [done..|]. rewrite Hheap.
    destruct (decide (r' = r)) as [->|Hne].
    + rewrite list_lookup_alter_eq, Hts'. simpl. eauto.
    + rewrite list_lookup_alter_ne by done. eauto.
  - intros r' ts'. rewrite Hheap, list_lookup_alter. case_decide as Hd.
    + subst r'. rewrite Hts. simpl. intros [= <-]. simpl.
      apply NoDup_fmap_removeListener. by apply (listener_unique s Hprom r).
    + apply (listener_unique s Hprom).
  - intros r1 l1 r2 l2 [Ha1 _]%Hatt [Ha2 _]%Hatt; try done.
    by apply (promise_unique s Hprom).
  - intros n. rewrite Hnext, Hset. intros Hn.
    destruct (decide (n = l_promise l)) as [->|Hne].
    + right. exists o.
      destruct (listener_closure s Hprom r l Hla) as (_ & _ & -> & _). done.
    + destruct (promise_settled s Hprom n Hn) as [(r' & l' & Ha & Hp)|[o' Ho']].
      * left. exists r', l'. split; [|done]. apply Hatt; try done.
        split; [done|]. intros ->. done.
      * right. exists o'. by rewrite Ho', app_nil_r.
  - intros n Hn. rewrite Hnext in Hn. rewrite Hset.
    rewrite (promise_fresh s Hprom n Hn).
    destruct (listener_closure s Hprom r l Hla) as (_ & Hlt & _).
    rewrite decide_False by lia. done.
Qed.

Lemma attached_attach s r ts l r' l' :
  heap s !! r = Some ts →
  attached (on_updated r l s) r' l' ↔ attached s r' l' ∨ (r' = r ∧ l' = l).
Proof.
  intros Hts. unfold attached, on_updated. simpl.
  destruct (decide (r' = r)) as [->|Hne].
  - rewrite list_lookup_alter_eq, Hts. simpl. split.
    + intros (ts' & [= <-] & Hin). simpl in Hin.
      apply elem_of_app in Hin as [Hin|Hin%list_elem_of_singleton].
      * left. by exists ts.
      * by right.
    + intros [(ts' & Hts' & Hin)|[_ ->]]; simplify_eq;
        (eexists; split; [done|]); simpl; apply elem_of_app.
      * by left.
      * right. by apply list_elem_of_singleton.
  - rewrite list_lookup_alter_ne by done. split; [by left|].
    intros [?|[? _]]; done.
Qed.

Lemma promises_ok_attach s r ts t :
  promises_ok s →
  heap s !! r = Some ts → ts_id ts = track_id t →
  let l := {| l_promise := next_promise s; l_track := t; l_signaling := r |} in
  promises_ok (on_updated r l (with_next_promise (S (next_promise s)) s)).
Proof.
  intros Hprom Hts Hid l.
  set (s1 := with_next_promise (S (next_promise s)) s).
  assert (Hatt : ∀ r' l', attached (on_updated r l s1) r' l'
                          ↔ attached s r' l' ∨ (r' = r ∧ l' = l)).
  { intros r' l'. by apply (attached_attach s1 r ts). }
  assert (Hold : ∀ r' l', attached s r' l' → l_promise l' < next_promise s).
  { intros r' l' Ha. by destruct (listener_closure s Hprom r' l' Ha) as (_ & ? & _). }
  split.
  - intros r' l' [Ha|[-> ->]]%Hatt.
    + destruct (listener_closure s Hprom r' l' Ha) as (? & ? & ? & ts' & Hts' & ?).
      split_and!; [done|simpl; lia|done|]. simpl.
      destruct (decide (r' = r)) as [->|Hne].
      * rewrite list_lookup_alter_eq, Hts'. simpl. eauto.
      * rewrite list_lookup_alter_ne by done. eauto.
    + split_and!; [done|simpl; lia| |].
      * apply (promise_fresh s Hprom). simpl. lia.
      * simpl. rewrite list_lookup_alter_eq, Hts. simpl. eauto.
  - intros r' ts'. simpl. rewrite list_lookup_alter. case_decide as Hd.
    + subst r'. rewrite Hts. simpl. intros [= <-]. simpl.
      rewrite map_app. simpl. apply NoDup_app. split_and!.
      * by apply (listener_unique s Hprom r).
      * intros n Hn ->%list_elem_of_singleton.
        apply list_elem_of_fmap in Hn as (l' & Heq & Hin).
        assert (l_promise l' < next_promise s).
        { apply (Hold r). by exists ts. }
        lia.
      * apply NoDup_singleton.
    + apply (listener_unique s Hprom).
  - intros r1 l1 r2 l2 [Ha1|[-> ->]]%Hatt [Ha2|[-> ->]]%Hatt Heq; try done.
    + by apply (promise_unique s Hprom r1 l1 r2 l2).
    + apply Hold in Ha1. simpl in Heq. lia.
    + apply Hold in Ha2. simpl in Heq. lia.
  - intros n Hn. simpl in Hn.
    destruct (decide (n = next_promise s)) as [->|Hne].
    + left. exists r, l. split; [|done]. apply Hatt. by right.
    + destruct (promise_settled s Hprom n) as [(r' & l' & Ha & Hp)|Hdone];
        [lia| |by right].
      left. exists r', l'. split; [|done]. apply Hatt. by left.
  - intros n Hn. simpl in Hn. apply (promise_fresh s Hprom). lia.
Qed.

Lemma promises_ok_addTrack t s :
  promises_ok s → promises_ok (snd (_addTrack t s)).
Proof.
  intros Hprom.
  destruct (addTrack_fields t s) as (_ & _ & Hn & _ & Hcase).
  destruct (JsMap.has (tracks s) (track_id t)).
  { simpl in Hcase. by rewrite Hcase. }
  destruct Hcase as (_ & Htr & Hsig).
  assert (Hset : ∀ n, settlements n (snd (_addTrack t s)) = settlements n s).
  { intros n. unfold settlements. rewrite Htr, omap_app. simpl.
    by rewrite app_nil_r. }
  destruct Hsig as [(_ & Hh & _)|(_ & Hh & _)].
  { apply (promises_ok_ext s); [by rewrite Hh|done..]. }
  assert (Hatt : ∀ r l, attached (snd (_addTrack t s)) r l ↔ attached s r l).
  { intros r l. unfold attached. rewrite Hh. split.
    - intros (ts & Hts & Hin).
      apply lookup_app_Some in Hts as [Hts|[_ Hts]]; [by exists ts|].
      destruct (r - length (heap s)); simpl in Hts; simplify_eq.
      by apply elem_of_nil in Hin.
    - intros (ts & Hts & Hin). exists ts. split; [|done].
      by apply lookup_app_l_Some. }
  split.
  - intros r l Ha%Hatt.
    destruct (listener_closure s Hprom r l Ha) as (? & ? & ? & ts & Hts & ?).
    rewrite Hn, Hset. split_and!; [done..|].
    exists ts. split; [|done]. rewrite Hh. by apply lookup_app_l_Some.
  - intros r ts. rewrite Hh. intros Hts.
    apply lookup_app_Some in Hts as [Hts|[_ Hts]].
    + by apply (listener_unique s Hprom r).
    + destruct (r - length (heap s)); simpl in Hts; simplify_eq.
      simpl. apply NoDup_nil_2.
  - intros r1 l1 r2 l2 Ha1%Hatt Ha2%Hatt. by apply (promise_unique s Hprom).
  - intros n. rewrite Hn, Hset. intros Hlt.
    destruct (promise_settled s Hprom n Hlt) as [(r & l & Ha & Hp)|?];
      [|by right].
    left. exists r, l. split; [by apply Hatt|done].
  - intros n. rewrite Hn, Hset. apply (promise_fresh s Hprom).
Qed.

(** ** One run of [updated], field by field *)

Lemma truthy_Some sid x : truthy sid = Some x → sid = Some x ∧ x ≠ "".
Proof.
  unfold truthy. destruct sid as [y|]; [|done].
  case_decide; [done|]. by intros [= ->].
Qed.

Lemma settlements_trace s s' n es e :
  trace s' = trace s ++ es ++ [e] → Forall settles_nothing es →
  settlements n s' =
    settlements n s ++ from_option (λ o, [o]) [] (settlement_of n e).
Proof.
  intros Htr Hes. unfold settlements. rewrite Htr, !omap_app.
  rewrite (omap_settles_nothing n es Hes). simpl.
  by destruct (settlement_of n e).
Qed.

Lemma updated_error_fields s l ts error :
  heap s !! l_signaling l = Some ts → ts_error ts = Some error →
  let s' := updated l s in
  tracks s' = JsMap.delete (tracks s) (track_id (l_track l))
  ∧ trackPublications s' = trackPublications s
  ∧ (∀ k, publishedKindTracks k s' = publishedKindTracks k s)
  ∧ (signaling_tracks s' = signaling_tracks s
     ∨ ∃ t', JsMap.get (tracks s) (track_id (l_track l)) = Some t'
             ∧ signaling_tracks s' =
                 JsMap.delete (signaling_tracks s) (track_id t'))
  ∧ heap s' = alter (ts_removeListener_updated l) (l_signaling l) (heap s)
  ∧ next_promise s' = next_promise s
  ∧ (∀ n, settlements n s' =
          settlements n s
          ++ if decide (n = l_promise l) then [Rejected error] else []).
Proof.
  intros Hts He s'. subst s'. rewrite (updated_error_eq s l ts Hts error He).
  destruct (removeTrack_fields (l_track l)
              (removeListener_updated (l_signaling l) l s))
    as (Ht & Hp & Hk & Hs & Hh & Hn & _ & Htr).
  split_and!; simpl; try done.
  intros n.
  rewrite (settlements_trace s _ n
             (match JsMap.get (tracks s) (track_id (l_track l)) with
              | Some t' => [Emit (trackRemoved t')]
              | None => []
              end) (Reject (l_promise l) error)).
  - unfold settlement_of.
    destruct (decide (l_promise l = n)), (decide (n = l_promise l));
      simpl; congruence.
  - simpl. rewrite Htr. simpl. by rewrite <- app_assoc.
  - destruct (JsMap.get _ _); repeat constructor.
Qed.

Lemma updated_sid_fields s l ts sid :
  heap s !! l_signaling l = Some ts → ts_error ts = None →
  JsMap.has (tracks s) (track_id (l_track l)) = true →
  truthy (ts_sid ts) = Some sid →
  let s' := updated l s in
  ∃ p,
    tracks s' = tracks s
    ∧ signaling_tracks s' = signaling_tracks s
    ∧ heap s' = alter (ts_removeListener_updated l) (l_signaling l) (heap s)
    ∧ next_promise s' = next_promise s
    ∧ (∀ n, settlements n s' =
            settlements n s
            ++ if decide (n = l_promise l) then [Resolved p] else [])
    ∧ timers s' =
        timers s ++ (if decide (signaling_state s = "connected")
                     then [trackPublished p] else [])
    ∧ match getTrackPublication (trackPublications s)
              (VLocalTrack (l_track l)) with
      | Some p' =>
          p = p'
          ∧ trackPublications s' = trackPublications s
          ∧ ∀ k, publishedKindTracks k s' = publishedKindTracks k s
      | None =>
          p = asLocalTrackPublication (l_track l) sid
          ∧ trackPublications s' = JsMap.set (trackPublications s) sid p
          ∧ ∀ k, publishedKindTracks k s' =
                 if decide (track_kind (l_track l) = k)
                 then JsMap.set (publishedKindTracks k s) sid p
                 else publishedKindTracks k s
      end.
Proof.
  intros Hts He Hh Hsid s'. subst s'.
  destruct (getTrackPublication (trackPublications s) (VLocalTrack (l_track l)))
    as [p|] eqn:Hp.
  - exists p. rewrite (updated_reuse_eq s l ts Hts sid p He Hh Hsid Hp). simpl.
    destruct (decide (signaling_state s = "connected")) as [Hc|Hc]; simpl;
      rewrite ?app_nil_r;
      (split_and!; try done; intros m; unfold settlements; simpl;
       rewrite omap_app; simpl;
       destruct (decide (l_promise l = m)), (decide (m = l_promise l));
       simpl; congruence).
  - exists (asLocalTrackPublication (l_track l) sid).
    rewrite (updated_create_eq s l ts Hts sid He Hh Hsid Hp). simpl.
    destruct (track_kind (l_track l)); simpl;
      (destruct (decide (signaling_state s = "connected")) as [Hc|Hc]; simpl;
       rewrite ?app_nil_r;
       (split_and!; try done;
        first
          [ by intros []
          | intros m; unfold settlements; simpl;
            rewrite omap_app; simpl;
            destruct (decide (l_promise l = m)), (decide (m = l_promise l));
            simpl; congruence ])).
Qed.

Lemma registries_ok_remove s s' i :
  registries_ok s →
  tracks s' = JsMap.delete (tracks s) i →
  trackPublications s' = trackPublications s →
  (∀ k, publishedKindTracks k s' = publishedKindTracks k s) →
  (signaling_tracks s' = signaling_tracks s
   ∨ ∃ j, signaling_tracks s' = JsMap.delete (signaling_tracks s) j) →
  map record_ids (heap s') = map record_ids (heap s) →
  (∀ sid p, JsMap.get (trackPublications s) sid = Some p →
            track_id (pub_track p) ≠ i) →
  registries_ok s'.
Proof.
  intros [H1 H2 H3 H4 H5 H6 H7 H8 H9] Ht Hp Hk Hs Hh Hnone.
  apply (registries_ok_ext
           (with_signaling_tracks (signaling_tracks s')
              (with_tracks (JsMap.delete (tracks s) i) s)));
    try done.
  split; simpl; try done.
  - intros j t0. rewrite JsMapFacts.get_delete. case_decide; [done|]. apply H1.
  - by apply JsMapFacts.NoDup_keys_delete.
  - intros sid p Hget. destruct (H4 sid p Hget) as (? & ? & ?).
    split_and!; [done| |done].
    rewrite JsMapFacts.get_delete_ne; [done|].
    intros Heq. by apply (Hnone sid p).
  - intros j r. destruct Hs as [->|(j' & ->)]; [apply H9|].
    rewrite JsMapFacts.get_delete. case_decide; [done|]. apply H9.
Qed.

Lemma registries_ok_published s s' t r ts sid :
  registries_ok s →
  JsMap.get (tracks s) (track_id t) = Some t →
  (∀ sid' p', JsMap.get (trackPublications s) sid' = Some p' →
              track_id (pub_track p') ≠ track_id t) →
  heap s !! r = Some ts → ts_sid ts = Some sid → ts_id ts = track_id t →
  let p := asLocalTrackPublication t sid in
  tracks s' = tracks s →
  signaling_tracks s' = signaling_tracks s →
  map record_ids (heap s') = map record_ids (heap s) →
  trackPublications s' = JsMap.set (trackPublications s) sid p →
  (∀ k, publishedKindTracks k s' =
        if decide (track_kind t = k)
        then JsMap.set (publishedKindTracks k s) sid p
        else publishedKindTracks k s) →
  registries_ok s'.
Proof.
  intros Hreg Ht Hnone Hts Hsid Hid p Htr Hs Hh Hp Hk.
  pose proof (registries_ok_publish s t r ts sid Hreg Ht Hnone Hts Hsid Hid)
    as Hpub.
  simpl in Hpub. revert Hpub. apply registries_ok_ext.
  - rewrite Htr. by destruct (track_kind t).
  - rewrite Hp. by destruct (track_kind t).
  - intros k. rewrite Hk, publishedKindTracks_with.
    by destruct (track_kind t), k.
  - rewrite Hs. by destruct (track_kind t).
  - rewrite Hh. by destruct (track_kind t).
Qed.

(** ** Delivering 'updated' to the listeners of one record *)

Lemma updated_error_delivering r s l ts error :
  delivering r s →
  heap s !! r = Some ts → l ∈ ts_listeners ts → ts_error ts = Some error →
  (∀ sid p, JsMap.get (trackPublications s) sid = Some p →
            track_id (pub_track p) ≠ ts_id ts) →
  (∀ r' l', attached s r' l' → r' ≠ r → track_id (l_track l') ≠ ts_id ts) →
  let s' := updated l s in
  delivering r s'
  ∧ heap s' !! r = Some (ts_removeListener_updated l ts)
  ∧ trackPublications s' = trackPublications s
  ∧ (∀ r' l', attached s' r' l' → attached s r' l').
Proof.
  intros (Hreg & Hprom & HJ) Hts Hl He Hnopub Hothers s'.
  assert (Ha : attached s r l) by (by exists ts).
  destruct (listener_closure s Hprom r l Ha) as (Hsig & _ & _ & ts0 & Hts0 & Hid).
  rewrite Hts in Hts0. injection Hts0 as <-. subst r.
  destruct (updated_error_fields s l ts error Hts He)
    as (Ht & Hp & Hk & Hs & Hh & Hn & Hset).
  fold s' in Ht, Hp, Hk, Hs, Hh, Hn, Hset.
  assert (Hatt : ∀ r' l', attached s' r' l' ↔ attached s r' l' ∧ l' ≠ l).
  { intros r' l'. by apply (attached_settle s s' (l_signaling l) l ts). }
  split_and!.
  - split_and!.
    + apply (registries_ok_remove s s' (track_id (l_track l))); try done.
      * destruct Hs as [?|(t' & _ & ?)]; [by left | right; eauto].
      * rewrite Hh. by apply map_alter_same.
      * intros sid p Hget. rewrite <- Hid. by apply (Hnopub sid).
    + by apply (promises_ok_settle s s' (l_signaling l) l ts (Rejected error)).
    + intros r' l' [Ha' _]%Hatt Hne.
      destruct (HJ r' l' Ha' Hne) as (Hj1 & Hj2 & Hj3).
      pose proof (Hothers r' l' Ha' Hne) as Hdiff. rewrite Hid in Hdiff.
      split_and!.
      * destruct Hs as [->|(t' & Ht' & ->)]; [done|].
        rewrite JsMapFacts.get_delete_ne; [done|].
        rewrite (tracks_keyed s Hreg _ _ Ht'). congruence.
      * rewrite Ht, JsMapFacts.get_delete_ne; [done|congruence].
      * by rewrite Hp.
  - by rewrite Hh, list_lookup_alter_eq, Hts.
  - done.
  - intros r' l' [? _]%Hatt. done.
Qed.

Lemma fold_updated_error r error ls : ∀ s ts,
  delivering r s →
  heap s !! r = Some ts → ts_listeners ts = ls → ts_error ts = Some error →
  (∀ sid p, JsMap.get (trackPublications s) sid = Some p →
            track_id (pub_track p) ≠ ts_id ts) →
  (∀ r' l', attached s r' l' → r' ≠ r → track_id (l_track l') ≠ ts_id ts) →
  let s' := fold_left (λ s l, updated l s) ls s in
  delivering r s'
  ∧ (∃ ts', heap s' !! r = Some ts' ∧ ts_listeners ts' = [])
  ∧ trackPublications s' = trackPublications s.
Proof.
  induction ls as [|l ls IH]; intros s ts Hd Hts Hls He Hnopub Hothers; simpl.
  - split_and!; [done|by exists ts|done].
  - assert (Hl : l ∈ ts_listeners ts) by (rewrite Hls; left).
    destruct (updated_error_delivering r s l ts error Hd Hts Hl He Hnopub Hothers)
      as (Hd' & Hts' & Hp' & Hatt').
    destruct (IH (updated l s) (ts_removeListener_updated l ts)) as (? & ? & Hp'');
      try done.
    + simpl. rewrite Hls. apply removeListener_head.
    + intros sid p. rewrite Hp'. apply Hnopub.
    + intros r' l' Ha'. apply Hothers. by apply Hatt'.
    + split_and!; [done..|]. by rewrite Hp'', Hp'.
Qed.

Lemma delivering_done r s ts :
  delivering r s → heap s !! r = Some ts → ts_listeners ts = [] → quiescent s.
Proof.
  intros (Hreg & Hprom & HJ) Hts Hnil. split_and!; [done..|].
  intros r' l' Ha. apply HJ; [done|]. intros ->.
  destruct Ha as (ts' & Hts' & Hin). rewrite Hts in Hts'. injection Hts' as <-.
  rewrite Hnil in Hin. by apply elem_of_nil in Hin.
Qed.

Lemma quiescent_delivering r s : quiescent s → delivering r s.
Proof. intros (Hreg & Hprom & HJ). split_and!; [done..|]. eauto. Qed.

Lemma updated_sid_delivering r s l ts sid :
  delivering r s →
  heap s !! r = Some ts → l ∈ ts_listeners ts →
  ts_error ts = None → truthy (ts_sid ts) = Some sid →
  JsMap.get (tracks s) (ts_id ts) = Some (l_track l) →
  JsMap.get (signaling_tracks s) (ts_id ts) = Some r →
  let s' := updated l s in
  delivering r s'
  ∧ heap s' !! r = Some (ts_removeListener_updated l ts)
  ∧ tracks s' = tracks s
  ∧ signaling_tracks s' = signaling_tracks s.
Proof.
  intros (Hreg & Hprom & HJ) Hts Hl He Hsid Htrack Hsig s'.
  assert (Ha : attached s r l) by (by exists ts).
  destruct (listener_closure s Hprom r l Ha) as (Hr & _ & _ & ts0 & Hts0 & Hid).
  rewrite Hts in Hts0. injection Hts0 as <-. subst r.
  assert (Hhas : JsMap.has (tracks s) (track_id (l_track l)) = true).
  { apply JsMapFacts.has_true. rewrite <- Hid. eauto. }
  destruct (updated_sid_fields s l ts sid Hts He Hhas Hsid)
    as (p & Ht & Hs & Hh & Hn & Hset & _ & Hcase).
  fold s' in Ht, Hs, Hh, Hn, Hset, Hcase.
  assert (Hatt : ∀ r' l', attached s' r' l' ↔ attached s r' l' ∧ l' ≠ l).
  { intros r' l'. by apply (attached_settle s s' (l_signaling l) l ts). }
  assert (Hids : map record_ids (heap s') = map record_ids (heap s)).
  { rewrite Hh. by apply map_alter_same. }
  assert (Hprom' : promises_ok s').
  { by apply (promises_ok_settle s s' (l_signaling l) l ts (Resolved p)). }
  split_and!; [|by rewrite Hh, list_lookup_alter_eq, Hts|done..].
  destruct (getTrackPublication (trackPublications s) (VLocalTrack (l_track l)))
    as [p'|] eqn:Hfound.
  - destruct Hcase as (-> & Hp & Hk). split_and!; [|done|].
    + by apply (registries_ok_ext s s').
    + intros r' l' [Ha' _]%Hatt Hne.
      apply (settled_listener_ext s s'); try done. by apply HJ.
  - destruct Hcase as (Hpeq & Hp & Hk).
    assert (Hnone : ∀ sid' p', JsMap.get (trackPublications s) sid' = Some p' →
              track_id (pub_track p') ≠ track_id (l_track l)).
    { intros sid' p' Hget Heq.
      destruct (publication_registered s Hreg sid' p' Hget) as (_ & Hregd & _).
      rewrite Heq, <- Hid, Htrack in Hregd. injection Hregd as Hsame.
      pose proof (getTrackPublication_None_get _ _ _ _ Hfound Hget) as Hno.
      symmetry in Hsame. apply publication_of_LocalTrack in Hsame. congruence. }
    apply truthy_Some in Hsid as [Hsid _].
    split_and!; [|done|].
    + apply (registries_ok_published s s' (l_track l) (l_signaling l) ts sid);
        try done.
      * by rewrite <- Hid.
      * by rewrite Hp, Hpeq.
      * intros k. by rewrite Hk, Hpeq.
    + intros r' l' [Ha' _]%Hatt Hne.
      destruct (HJ r' l' Ha' Hne) as (Hj1 & Hj2 & Hj3).
      split_and!; [by rewrite Hs|by rewrite Ht|].
      intros sid' q. rewrite Hp, JsMapFacts.get_set. case_decide.
      * intros [= <-]. rewrite Hpeq. simpl. intros Heq.
        rewrite <- Heq, <- Hid, Hsig in Hj1. by simplify_eq.
      * apply Hj3.
Qed.

Lemma fold_updated_sid r sid ls : ∀ s ts,
  delivering r s →
  heap s !! r = Some ts → ts_listeners ts = ls →
  ts_error ts = None → truthy (ts_sid ts) = Some sid →
  (∀ l, l ∈ ls → JsMap.get (tracks s) (ts_id ts) = Some (l_track l)) →
  JsMap.get (signaling_tracks s) (ts_id ts) = Some r →
  let s' := fold_left (λ s l, updated l s) ls s in
  delivering r s'
  ∧ (∃ ts', heap s' !! r = Some ts' ∧ ts_listeners ts' = [])
  ∧ tracks s' = tracks s.
Proof.
  induction ls as [|l ls IH]; intros s ts Hd Hts Hls He Hsid Htracks Hsig; simpl.
  - split_and!; [done|by exists ts|done].
  - assert (Hl : l ∈ ts_listeners ts) by (rewrite Hls; left).
    destruct (updated_sid_delivering r s l ts sid Hd Hts Hl He Hsid)
      as (Hd' & Hts' & Ht' & Hs'); [apply Htracks; left|done|].
    destruct (IH (updated l s) (ts_removeListener_updated l ts)) as (? & ? & Ht'');
      try done.
    + simpl. rewrite Hls. apply removeListener_head.
    + intros l' Hl'. simpl. rewrite Ht'. apply Htracks. by right.
    + simpl. by rewrite Hs'.
    + split_and!; [done..|]. by rewrite Ht'', Ht'.
Qed.

Lemma fold_left_fixed {A S} (f : S → A → S) (l : list A) (s : S) :
  (∀ a, a ∈ l → f s a = s) → fold_left f l s = s.
Proof.
  induction l as [|a l IH]; simpl; intros Hf; [done|].
  rewrite Hf by left. apply IH. intros b Hb. apply Hf. by right.
Qed.

(** An 'updated' event, delivered between two operations, leads from one
    quiescent state to another. *)
Lemma quiescent_emit_updated r s : quiescent s → quiescent (emit_updated r s).
Proof.
  intros Hq. unfold emit_updated.
  destruct (heap s !! r) as [ts|] eqn:Hts; [|done].
  destruct (ts_listeners ts) as [|l0 ls0] eqn:Hls; [done|].
  rewrite <- Hls.
  pose proof Hq as (Hreg & Hprom & HJ).
  assert (Hall : ∀ l, l ∈ ts_listeners ts →
            l_signaling l = r ∧ ts_id ts = track_id (l_track l)
            ∧ settled_listener s r l).
  { intros l Hl. assert (Ha : attached s r l) by (by exists ts).
    destruct (listener_closure s Hprom r l Ha) as (? & _ & _ & ts0 & Hts0 & ?).
    rewrite Hts in Hts0. injection Hts0 as <-. split_and!; [done..|]. by apply HJ. }
  destruct (Hall l0) as (_ & Hid0 & Hj1 & Hj2 & Hj3); [rewrite Hls; left|].
  destruct (ts_error ts) as [error|] eqn:He.
  - destruct (fold_updated_error r error (ts_listeners ts) s ts)
      as (Hd & (ts' & Hts' & Hnil) & _); try done.
    + by apply quiescent_delivering.
    + intros sid p. rewrite Hid0. apply Hj3.
    + intros r' l' Ha' Hne Heq. destruct (HJ r' l' Ha') as (Hj1' & _).
      rewrite Heq, Hid0, Hj1 in Hj1'. by simplify_eq.
    + by apply (delivering_done r _ ts').
  - destruct (truthy (ts_sid ts)) as [sid|] eqn:Hsid.
    + destruct (fold_updated_sid r sid (ts_listeners ts) s ts)
        as (Hd & (ts' & Hts' & Hnil) & _); try done.
      * by apply quiescent_delivering.
      * intros l Hl. destruct (Hall l Hl) as (_ & -> & _ & ? & _). done.
      * by rewrite Hid0.
      * by apply (delivering_done r _ ts').
    + rewrite fold_left_fixed; [done|].
      intros l Hl. destruct (Hall l Hl) as (Hr & Hid & _ & Hreg' & _).
      apply (updated_waiting_eq s l ts); try done.
      * by rewrite Hr.
      * apply JsMapFacts.has_true. eauto.
Qed.

(** ** Steps that leave registries, records and promises alone *)

Ltac inert_fields :=
  unfold inert; split_and!; try done; try (by intros []).

Lemma inert_refl s : inert s s.
Proof. inert_fields. exists []. by rewrite app_nil_r. Qed.

Lemma inert_trans s1 s2 s3 : inert s1 s2 → inert s2 s3 → inert s1 s3.
Proof.
  intros (Ha1 & Hb1 & Hk1 & Hc1 & Hd1 & He1 & es1 & Htr1 & Hes1)
         (Ha2 & Hb2 & Hk2 & Hc2 & Hd2 & He2 & es2 & Htr2 & Hes2).
  split_and!; try congruence.
  exists (es1 ++ es2). rewrite Htr2, Htr1, <- app_assoc.
  split; [done|]. by apply Forall_app.
Qed.

Lemma inert_log e s : settles_nothing e → inert s (log e s).
Proof.
  intros He. inert_fields.
  exists [e]. split; [done|]. by constructor.
Qed.

Lemma inert_fold {A} (f : State → A → State) (l : list A) :
  (∀ s a, inert s (f s a)) → ∀ s, inert s (fold_left f l s).
Proof.
  intros Hf. induction l as [|a l IH]; simpl; intros s; [apply inert_refl|].
  eapply inert_trans; [apply Hf | apply IH].
Qed.

Lemma inert_quiescent s s' : inert s s' → quiescent s → quiescent s'.
Proof.
  intros (? & ? & ? & ? & ? & ? & es & ? & ?). by apply (quiescent_ext s s' es).
Qed.

Lemma inert_signaling_setState state s : inert s (signaling_setState state s).
Proof.
  unfold signaling_setState.
  assert (H0 : inert s (with_signaling_state state s)).
  { inert_fields.
    exists []. by rewrite app_nil_r. }
  destruct (listening _ _); [|done].
  eapply inert_trans; [exact H0|].
  unfold stateChanged. case_decide; [|apply inert_refl].
  assert (Hrem : ∀ h s0, inert s0 (self_removeListener h s0)).
  { intros h s0. inert_fields.
    exists [RemoveListener h]. split; [done|]. by repeat constructor. }
  do 5 (eapply inert_trans; [apply Hrem|]).
  apply inert_fold. intros s0 t. by apply inert_log.
Qed.

Lemma inert_tick s : inert s (tick s).
Proof.
  unfold tick. destruct (timers s) as [|c rest]; [apply inert_refl|].
  inert_fields.
  exists [Emit c]. split; [done|]. by repeat constructor.
Qed.

(** ** The effects of delivering an error to all listeners of a record *)

Lemma delete_delete {V} (m : JsMap.t V) i :
  JsMap.delete (JsMap.delete m i) i = JsMap.delete m i.
Proof. apply JsMapFacts.delete_absent, JsMapFacts.get_delete_eq. Qed.

Lemma timers_updated_error s l ts error :
  heap s !! l_signaling l = Some ts → ts_error ts = Some error →
  timers (updated l s) =
    timers s ++ [trackPublicationFailed error (l_track l)]
  ∧ ∃ es, trace (updated l s) = trace s ++ es ++ [Reject (l_promise l) error]
          ∧ Forall settles_nothing es.
Proof.
  intros Hts He.
  destruct (updated_error_effects s l ts error Hts He) as (Htm & Htr).
  split; [done|]. eexists. split; [exact Htr|].
  destruct (JsMap.get _ _); repeat constructor.
Qed.

Lemma fold_updated_error_effects r error i ls : ∀ s ts,
  heap s !! r = Some ts → ts_error ts = Some error →
  (∀ l, l ∈ ls → l_signaling l = r ∧ track_id (l_track l) = i) →
  let s' := fold_left (λ s l, updated l s) ls s in
  tracks s' = match ls with [] => tracks s | _ => JsMap.delete (tracks s) i end
  ∧ trackPublications s' = trackPublications s
  ∧ (∀ k, publishedKindTracks k s' = publishedKindTracks k s)
  ∧ timers s' =
      timers s ++ map (λ l, trackPublicationFailed error (l_track l)) ls
  ∧ (∀ n, settlements n s' =
          settlements n s
          ++ omap (λ l, if decide (n = l_promise l)
                        then Some (Rejected error) else None) ls).
Proof.
  induction ls as [|l ls IH]; intros s ts Hts He Hall; simpl.
  - split_and!; try done; [by rewrite app_nil_r | intros n; by rewrite app_nil_r].
  - destruct (Hall l) as [Hr Hi]; [left|]. subst r i.
    destruct (updated_error_fields s l ts error Hts He)
      as (Ht & Hp & Hk & Hs & Hh & _ & Hset).
    destruct (timers_updated_error s l ts error Hts He) as (Htm & _).
    destruct (IH (updated l s) (ts_removeListener_updated l ts))
      as (Ht' & Hp' & Hk' & Htm' & Hset').
    { by rewrite Hh, list_lookup_alter_eq, Hts. }
    { done. }
    { intros l' Hl'. apply Hall. by right. }
    split_and!.
    + rewrite Ht'. destruct ls; [done|]. by rewrite Ht, delete_delete.
    + by rewrite Hp', Hp.
    + intros k. by rewrite Hk', Hk.
    + rewrite Htm', Htm, <- app_assoc. done.
    + intros n. rewrite Hset', Hset, <- app_assoc. f_equal.
      by case_decide.
Qed.

Lemma fold_updated_error_detaches r error ls : ∀ s ts,
  heap s !! r = Some ts → ts_listeners ts = ls →
  (∀ l, l ∈ ls → l_signaling l = r) → ts_error ts = Some error →
  ∃ ts', heap (fold_left (λ s l, updated l s) ls s) !! r = Some ts'
         ∧ ts_listeners ts' = [] ∧ ts_id ts' = ts_id ts.
Proof.
  induction ls as [|l ls IH]; intros s ts Hts Hls Hall He; simpl.
  - by exists ts.
  - destruct (Hall l) as []; [left|].
    destruct (updated_error_fields s l ts error Hts He) as (_ & _ & _ & _ & Hh & _).
    destruct (IH (updated l s) (ts_removeListener_updated l ts))
      as (ts' & ? & ? & ?); try done.
    + by rewrite Hh, list_lookup_alter_eq, Hts.
    + simpl. rewrite Hls. apply removeListener_head.
    + intros l' Hl'. apply Hall. by right.
    + by exists ts'.
Qed.

(** ** The operations keep the invariant *)

Lemma quiescent_heap s h :
  map record_ids h = map record_ids (heap s) →
  map record_listeners h = map record_listeners (heap s) →
  quiescent s → quiescent (with_heap h s).
Proof.
  intros Hids Hlis (Hreg & Hprom & HJ). split_and!.
  - by apply registries_ok_heap.
  - by apply (promises_ok_ext s).
  - intros r l Ha%(attached_ext s); [|done].
    apply (settled_listener_ext s); try done. by apply HJ.
Qed.

Lemma quiescent_set_error r error s :
  quiescent s → quiescent (with_heap (alter (ts_set_error error) r (heap s)) s).
Proof. intros Hq. apply quiescent_heap; [by apply map_alter_same..|done]. Qed.

Lemma quiescent_publishFailed r error s :
  quiescent s → quiescent (publishFailed r error s).
Proof.
  intros Hq. unfold publishFailed.
  by apply quiescent_emit_updated, quiescent_set_error.
Qed.

Lemma quiescent_setSid r sid s :
  quiescent s → permitted (Signaling_sid r sid) s →
  quiescent (setSid r sid s).
Proof.
  intros (Hreg & Hprom & HJ) [(ts & Hts & Hnone) Hfresh]. unfold setSid.
  apply quiescent_emit_updated.
  assert (Hlis : map record_listeners (alter (ts_set_sid sid) r (heap s))
                 = map record_listeners (heap s)).
  { by apply map_alter_same. }
  split_and!.
  - by apply (registries_ok_set_sid s r ts).
  - by apply (promises_ok_ext s).
  - intros r' l Ha%(attached_ext s); [|done].
    apply (settled_listener_ext s); try done. by apply HJ.
Qed.

Lemma quiescent_addTrack t s : quiescent s → quiescent (snd (_addTrack t s)).
Proof.
  intros (Hreg & Hprom & HJ).
  pose proof (registries_ok_addTrack t s Hreg) as Hreg'.
  pose proof (promises_ok_addTrack t s Hprom) as Hprom'.
  split_and!; [done..|].
  destruct (addTrack_fields t s) as (Hp & _ & _ & _ & Hcase).
  destruct (JsMap.has (tracks s) (track_id t)) eqn:Hhas.
  { simpl in Hcase. by rewrite Hcase. }
  apply JsMapFacts.has_false in Hhas.
  destruct Hcase as (Ht & _ & Hsig).
  assert (Hatt : ∀ r l, attached (snd (_addTrack t s)) r l → attached s r l).
  { intros r l (ts & Hts & Hin).
    destruct Hsig as [(_ & Hh & _)|(_ & Hh & _)]; rewrite Hh in Hts.
    - by exists ts.
    - apply lookup_app_Some in Hts as [Hts|[_ Hts]]; [by exists ts|].
      destruct (r - length (heap s)); simpl in Hts; simplify_eq.
      by apply elem_of_nil in Hin. }
  intros r l Ha%Hatt. destruct (HJ r l Ha) as (Hj1 & Hj2 & Hj3).
  assert (Hne : track_id t ≠ track_id (l_track l)) by congruence.
  split_and!.
  - destruct Hsig as [(-> & _)|(-> & _)]; [done|].
    by rewrite JsMapFacts.get_set_ne.
  - by rewrite Ht, JsMapFacts.get_set_ne.
  - by rewrite Hp.
Qed.

Lemma quiescent_getOrCreate t s :
  quiescent s →
  JsMap.get (tracks s) (track_id t) = Some t →
  quiescent (snd (_getOrCreateLocalTrackPublication t s)).
Proof.
  intros (Hreg & Hprom & HJ) Ht. unfold _getOrCreateLocalTrackPublication.
  destruct (getTrackPublication _ _) eqn:Hfound; [done|].
  destruct (JsMap.get (signaling_tracks s) (track_id t)) as [r|] eqn:Hsig;
    [|done].
  simpl.
  destruct (signaling_tracks_keyed s Hreg _ _ Hsig) as (ts & Hts & Hid).
  set (l := {| l_promise := next_promise s; l_track := t; l_signaling := r |}).
  set (s1 := with_next_promise (S (next_promise s)) s).
  assert (Hatt : ∀ r' l', attached (on_updated r l s1) r' l'
                          ↔ attached s r' l' ∨ (r' = r ∧ l' = l)).
  { intros r' l'. by apply (attached_attach s1 r ts). }
  split_and!.
  - apply (registries_ok_ext s); try done.
    simpl. by apply map_alter_same.
  - by apply (promises_ok_attach s r ts t).
  - intros r' l' [Ha|[-> ->]]%Hatt.
    + by apply HJ.
    + split_and!; [done..|]. simpl. intros sid p Hget Heq.
      destruct (publication_registered s Hreg sid p Hget) as (_ & Hregd & _).
      rewrite Heq, Ht in Hregd. injection Hregd as Hsame.
      pose proof (getTrackPublication_None_get _ _ _ _ Hfound Hget) as Hno.
      symmetry in Hsame. apply publication_of_LocalTrack in Hsame. congruence.
Qed.

Lemma quiescent_publishTrack track name s :
  quiescent s → quiescent (snd (publishTrack track name s)).
Proof.
  intros Hq. unfold publishTrack.
  destruct (getTrackPublication _ _); [done|].
  destruct (asLocalTrack track name s) as [[t|e] s1] eqn:Has.
  - assert (Hq1 : quiescent s1).
    { unfold asLocalTrack in Has. destruct track; simplify_eq; try done.
      revert Hq. apply inert_quiescent. inert_fields.
      exists []. by rewrite app_nil_r. }
    pose proof (quiescent_addTrack t s1 Hq1) as Hq2.
    destruct (addTrack_fields t s1) as (_ & _ & _ & _ & Hcase).
    unfold _addTrack in *.
    destruct (JsMap.has (tracks s1) (track_id t)) eqn:Hhas; simpl in *.
    + destruct (JsMap.get (tracks s1) (track_id t)) as [t'|] eqn:Ht'; [|done].
      unfold lift.
      pose proof (quiescent_getOrCreate t' s1 Hq1) as Hq3.
      destruct Hq1 as (Hreg1 & _).
      rewrite (tracks_keyed s1 Hreg1 _ _ Ht') in Hq3.
      destruct (_getOrCreateLocalTrackPublication t' s1). simpl in *. auto.
    + unfold lift.
      set (s2 := emit_trackAdded t _) in *.
      pose proof (quiescent_getOrCreate t s2 Hq2) as Hq3.
      destruct Hcase as (Ht & _). rewrite Ht, JsMapFacts.get_set_eq in Hq3.
      destruct (_getOrCreateLocalTrackPublication t s2). simpl in *. auto.
  - unfold asLocalTrack in Has. destruct track; by simplify_eq.
Qed.

Lemma quiescent_removeTrack t s :
  quiescent s →
  (∀ sid p, JsMap.get (trackPublications s) sid = Some p →
            track_id (pub_track p) ≠ track_id t) →
  (∀ r l, attached s r l → track_id (l_track l) ≠ track_id t) →
  quiescent (snd (_removeTrack t s)).
Proof.
  intros (Hreg & Hprom & HJ) Hnopub Hnolis.
  destruct (removeTrack_fields t s) as (Ht & Hp & Hk & Hs & Hh & Hn & _ & Htr).
  split_and!.
  - by apply registries_ok_removeTrack.
  - apply (promises_ok_ext s); [by rewrite Hh| |done|done].
    intros n. unfold settlements. rewrite Htr, omap_app.
    destruct (JsMap.get _ _); simpl; by rewrite app_nil_r.
  - intros r l Ha%(attached_ext s); [|by rewrite Hh].
    destruct (HJ r l Ha) as (Hj1 & Hj2 & Hj3).
    pose proof (Hnolis r l Ha) as Hne.
    split_and!.
    + destruct Hs as [->|(t' & Ht' & ->)]; [done|].
      rewrite JsMapFacts.get_delete_ne; [done|].
      rewrite (tracks_keyed s Hreg _ _ Ht'). congruence.
    + rewrite Ht, JsMapFacts.get_delete_ne; [done|congruence].
    + by rewrite Hp.
Qed.

(** ** [publishFailed] and [unpublishTrack] in a quiescent state *)

Lemma fold_updated_error_emitted r error i ls : ∀ s ts,
  heap s !! r = Some ts → ts_error ts = Some error →
  (∀ l, l ∈ ls → l_signaling l = r ∧ track_id (l_track l) = i) →
  emitted (fold_left (λ s l, updated l s) ls s) =
    emitted s ++ match ls, JsMap.get (tracks s) i with
                 | _ :: _, Some t' => [trackRemoved t']
                 | _, _ => []
                 end.
Proof.
  induction ls as [|l ls IH]; intros s ts Hts He Hall; simpl.
  - by rewrite app_nil_r.
  - destruct (Hall l) as [Hr Hi]; [left|]. subst r i.
    destruct (updated_error_fields s l ts error Hts He)
      as (Ht & _ & _ & _ & Hh & _).
    destruct (updated_error_effects s l ts error Hts He) as (_ & Htr).
    rewrite (IH (updated l s) (ts_removeListener_updated l ts)); try done.
    + rewrite Ht, JsMapFacts.get_delete_eq.
      replace (match ls with [] | _ => [] end) with (@nil Event)
        by (by destruct ls).
      rewrite app_nil_r. unfold emitted. rewrite Htr, !omap_app. simpl.
      destruct (JsMap.get _ _); simpl; by rewrite ?app_nil_r.
    + by rewrite Hh, list_lookup_alter_eq, Hts.
    + intros l' Hl'. apply Hall. by right.
Qed.

Lemma publishFailed_facts r error s ts :
  quiescent s → heap s !! r = Some ts →
  let s1 := publishFailed r error s in
  let ls := ts_listeners ts in
  quiescent s1
  ∧ (∃ ts', heap s1 !! r = Some ts' ∧ ts_listeners ts' = [])
  ∧ trackPublications s1 = trackPublications s
  ∧ (∀ k, publishedKindTracks k s1 = publishedKindTracks k s)
  ∧ tracks s1 =
      match ls with [] => tracks s | _ => JsMap.delete (tracks s) (ts_id ts) end
  ∧ (ls = [] → signaling_tracks s1 = signaling_tracks s
               ∧ ∀ r' l', attached s1 r' l' → attached s r' l')
  ∧ timers s1 =
      timers s ++ map (λ l, trackPublicationFailed error (l_track l)) ls
  ∧ (∀ n, settlements n s1 =
          settlements n s
          ++ omap (λ l, if decide (n = l_promise l)
                        then Some (Rejected error) else None) ls)
  ∧ emitted s1 =
      emitted s ++ match ls, JsMap.get (tracks s) (ts_id ts) with
                   | _ :: _, Some t' => [trackRemoved t']
                   | _, _ => []
                   end.
Proof.
  intros Hq Hts s1 ls.
  pose proof (quiescent_publishFailed r error s Hq) as Hq1. fold s1 in Hq1.
  set (s0 := with_heap (alter (ts_set_error error) r (heap s)) s).
  assert (Hts0 : heap s0 !! r = Some (ts_set_error error ts)).
  { subst s0. simpl. by rewrite list_lookup_alter_eq, Hts. }
  assert (Hs1 : s1 = fold_left (λ s l, updated l s) ls s0).
  { subst s1. unfold publishFailed, emit_updated. fold s0. by rewrite Hts0. }
  destruct Hq as (Hreg & Hprom & HJ).
  assert (Hall : ∀ l, l ∈ ls →
            l_signaling l = r ∧ track_id (l_track l) = ts_id ts).
  { intros l Hl. assert (Ha : attached s r l) by (by exists ts).
    destruct (listener_closure s Hprom r l Ha) as (? & _ & _ & ts0 & Hts0' & ?).
    rewrite Hts in Hts0'. by injection Hts0' as <-. }
  destruct (fold_updated_error_effects r error (ts_id ts) ls s0
              (ts_set_error error ts) Hts0 eq_refl Hall)
    as (Ht & Hp & Hk & Htm & Hset).
  destruct (fold_updated_error_detaches r error ls s0 (ts_set_error error ts)
              Hts0 eq_refl) as (ts' & Hts' & Hnil & _); [naive_solver|done|].
  pose proof (fold_updated_error_emitted r error (ts_id ts) ls s0
                (ts_set_error error ts) Hts0 eq_refl Hall) as Hem.
  rewrite <- Hs1 in Ht, Hp, Hk, Htm, Hset, Hts', Hem.
  split_and!; try done.
  - by exists ts'.
  - intros Hnil'. rewrite Hs1. subst ls. rewrite Hnil'.
    simpl. split; [done|]. intros r' l' Ha.
    apply (attached_ext s s0); [|done]. simpl. by apply map_alter_same.
Qed.

Lemma omap_all_None {A B} (g : A → option B) (ls : list A) :
  (∀ y, y ∈ ls → g y = None) → omap g ls = [].
Proof.
  induction ls as [|y ls IH]; intros Hg; [done|].
  simpl. rewrite (Hg y) by left. apply IH. intros z Hz. apply Hg. by right.
Qed.

Lemma omap_settled_once {A} (f : Listener → nat) (x : A) (l : Listener) ls :
  NoDup (map f ls) → l ∈ ls →
  omap (λ l', if decide (f l = f l') then Some x else None) ls = [x].
Proof.
  induction ls as [|l0 ls IH]; [by intros _ ?%elem_of_nil|].
  simpl map. rewrite NoDup_cons, elem_of_cons. intros [Hl0 Hnd] [->|Hin].
  - simpl. rewrite decide_True by done. f_equal.
    apply omap_all_None. intros y Hy. rewrite decide_False; [done|].
    intros Heq. apply Hl0. rewrite Heq. apply list_elem_of_fmap. eauto.
  - simpl. rewrite decide_False; [by apply IH|].
    intros Heq. apply Hl0. rewrite <- Heq. apply list_elem_of_fmap. eauto.
Qed.

Lemma unpublishTrack_unfold track s t r :
  is_track_type track = true →
  (value_id track ≫= JsMap.get (tracks s)) = Some t →
  JsMap.get (signaling_tracks s) (track_id t) = Some r →
  unpublishTrack track s =
    let s1 := publishFailed r (ErrWasUnpublished t) s in
    let found := getTrackPublication (trackPublications s1) (VLocalTrack t) in
    let k := track_kind t in
    let s2 :=
      match found with
      | Some p =>
          let s1' :=
            with_publishedKindTracks k
              (JsMap.delete (publishedKindTracks k s1) (trackSid p)) s1 in
          with_trackPublications
            (JsMap.delete (trackPublications s1') (trackSid p)) s1'
      | None => s1
      end in
    (Return found, snd (_removeTrack t s2)).
Proof.
  intros Hv Hlook Hsig. unfold unpublishTrack, bind.
  rewrite validateLocalTrack_eq, Hv, Hlook, Hsig. done.
Qed.

Lemma unpublishTrack_facts s track t r :
  quiescent s →
  is_track_type track = true →
  (value_id track ≫= JsMap.get (tracks s)) = Some t →
  JsMap.get (signaling_tracks s) (track_id t) = Some r →
  ∃ ts,
    heap s !! r = Some ts ∧ ts_id ts = track_id t
    ∧ JsMap.get (tracks s) (track_id t) = Some t
    ∧ let found := getTrackPublication (trackPublications s) (VLocalTrack t) in
      let s' := snd (unpublishTrack track s) in
      let error := ErrWasUnpublished t in
      fst (unpublishTrack track s) = Return found
      ∧ quiescent s'
      ∧ JsMap.get (tracks s') (track_id t) = None
      ∧ (∀ sid p, JsMap.get (trackPublications s') sid = Some p →
                  track_id (pub_track p) ≠ track_id t)
      ∧ (∀ sid p, JsMap.get (trackPublications s) sid = Some p →
                  Some p ≠ found →
                  JsMap.get (trackPublications s') sid = Some p)
      ∧ emitted s' = emitted s ++ [trackRemoved t]
      ∧ timers s' =
          timers s
          ++ map (λ l, trackPublicationFailed error (l_track l))
               (ts_listeners ts)
      ∧ (∀ n, settlements n s' =
              settlements n s
              ++ omap (λ l, if decide (n = l_promise l)
                            then Some (Rejected error) else None)
                   (ts_listeners ts))
      ∧ ∀ l, ¬ attached s' r l.
Proof.
  intros Hq Hv Hlook Hsig.
  pose proof Hq as (Hreg & Hprom & HJ).
  destruct (signaling_tracks_keyed s Hreg _ _ Hsig) as (ts & Hts & Hid).
  assert (Ht : JsMap.get (tracks s) (track_id t) = Some t).
  { destruct (value_id track) as [i|]; [|done]. simpl in Hlook.
    by rewrite (tracks_keyed s Hreg _ _ Hlook). }
  exists ts. split_and!; [done..|].
  intros found s' error. subst s'.
  rewrite (unpublishTrack_unfold track s t r Hv Hlook Hsig).
  destruct (publishFailed_facts r error s ts Hq Hts)
    as (Hq1 & (ts1 & Hts1 & Hnil1) & Hp1 & Hk1 & Ht1 & Hsame & Htm1 & Hset1 & Hem1).
  cbv zeta. cbn [fst snd]. fold error.
  set (s1 := publishFailed r error s) in *.
  rewrite Hp1. fold found.
  pose proof Hq1 as (Hreg1 & Hprom1 & HJ1).
  assert (Hdet : ∀ l, ¬ attached s1 r l).
  { intros l (ts' & Hts' & Hin). rewrite Hts1 in Hts'. injection Hts' as <-.
    rewrite Hnil1 in Hin. by apply elem_of_nil in Hin. }
  destruct (ts_listeners ts) as [|l0 ls0] eqn:Hls.
  - (* nobody was waiting *)
    destruct (Hsame eq_refl) as (Hs1 & Hatt1).
    simpl in Htm1, Hem1. rewrite app_nil_r in Htm1, Hem1.
    assert (Hnolis : ∀ r' l', attached s1 r' l' →
                       track_id (l_track l') ≠ track_id t).
    { intros r' l' Ha Heq. destruct (HJ1 r' l' Ha) as (Hj1 & _).
      rewrite Heq, Hs1, Hsig in Hj1. injection Hj1 as <-. by apply (Hdet l'). }
    destruct found as [p|] eqn:Hfound.
    + destruct (getTrackPublication_get _ _ _ (publications_nodup s Hreg) Hfound)
        as (sid & Hget & Hof).
      apply publication_of_LocalTrack in Hof.
      destruct (publication_registered s Hreg sid p Hget) as (Hsid & _).
      rewrite <- Hp1 in Hget.
      destruct (registries_ok_unpublish s1 sid p Hreg1 Hget) as (Hreg2 & Hnone2).
      unfold pub_kind in Hreg2, Hnone2. rewrite Hof in Hreg2, Hnone2.
      rewrite Hsid.
      set (s2 := with_trackPublications _ _) in *.
      assert (Hq2 : quiescent s2).
      { split_and!; [done| |].
        - apply (promises_ok_ext s1); [idtac..|done];
            subst s2; by destruct (track_kind t).
        - intros r' l' Ha.
          assert (Ha1 : attached s1 r' l').
          { revert Ha. apply attached_ext. subst s2. by destruct (track_kind t). }
          destruct (HJ1 r' l' Ha1) as (Hj1 & Hj2 & Hj3).
          split_and!; [subst s2; by destruct (track_kind t)..|].
          intros sid' p'. subst s2.
          replace (trackPublications
                     (with_trackPublications
                        (JsMap.delete
                           (trackPublications
                              (with_publishedKindTracks (track_kind t)
                                 (JsMap.delete
                                    (publishedKindTracks (track_kind t) s1) sid)
                                 s1)) sid)
                        (with_publishedKindTracks (track_kind t)
                           (JsMap.delete
                              (publishedKindTracks (track_kind t) s1) sid) s1)))
            with (JsMap.delete (trackPublications s1) sid)
            by (by destruct (track_kind t)).
          rewrite JsMapFacts.get_delete. case_decide; [done|]. apply Hj3. }
      assert (Hflat2 : trackPublications s2 = JsMap.delete (trackPublications s1) sid).
      { subst s2. by destruct (track_kind t). }
      assert (Hnolis2 : ∀ r' l', attached s2 r' l' →
                          track_id (l_track l') ≠ track_id t).
      { intros r' l' Ha. apply (Hnolis r'). revert Ha. apply attached_ext.
        subst s2. by destruct (track_kind t). }
      assert (Htr2 : tracks s2 = tracks s ∧ trace s2 = trace s1
                     ∧ timers s2 = timers s1 ∧ heap s2 = heap s1).
      { subst s2. rewrite <- Ht1. by destruct (track_kind t). }
      destruct Htr2 as (Htk2 & Htr2 & Htm2 & Hh2).
      destruct (removeTrack_fields t s2)
        as (Ht3 & Hp3 & _ & _ & Hh3 & _ & Htm3 & Htr3).
      split_and!.
      * done.
      * by apply quiescent_removeTrack.
      * rewrite Ht3. apply JsMapFacts.get_delete_eq.
      * intros sid' p'. rewrite Hp3. apply Hnone2.
      * intros sid' p' Hget' Hne. rewrite Hp3, Hflat2, Hp1.
        rewrite JsMapFacts.get_delete_ne; [done|]. intros <-.
        rewrite Hp1 in Hget. congruence.
      * unfold emitted in *. rewrite Htr3, Htk2, Ht, omap_app, Htr2.
        simpl. by rewrite Hem1.
      * rewrite Htm3, Htm2, Htm1. simpl. by rewrite app_nil_r.
      * intros n. unfold settlements in *.
        rewrite Htr3, omap_app, Htr2, Hset1, Htk2, Ht. simpl.
        by rewrite !app_nil_r.
      * intros l Ha. apply (Hdet l). revert Ha. apply attached_ext.
        by rewrite Hh3, Hh2.
    + assert (Hnopub : ∀ sid p, JsMap.get (trackPublications s1) sid = Some p →
                         track_id (pub_track p) ≠ track_id t).
      { intros sid p. rewrite Hp1. intros Hget Heq.
        destruct (publication_registered s Hreg sid p Hget) as (_ & Hregd & _).
        rewrite Heq, Ht in Hregd. injection Hregd as Hsame'.
        pose proof (getTrackPublication_None_get _ _ _ _ Hfound Hget) as Hno.
        symmetry in Hsame'. apply publication_of_LocalTrack in Hsame'. congruence. }
      destruct (removeTrack_fields t s1)
        as (Ht3 & Hp3 & _ & _ & Hh3 & _ & Htm3 & Htr3).
      split_and!.
      * done.
      * by apply quiescent_removeTrack.
      * rewrite Ht3. apply JsMapFacts.get_delete_eq.
      * intros sid' p'. rewrite Hp3. apply Hnopub.
      * intros sid' p' Hget' _. by rewrite Hp3, Hp1.
      * unfold emitted in *. rewrite Htr3, Ht1, Ht, omap_app.
        simpl. by rewrite Hem1.
      * rewrite Htm3, Htm1. simpl. by rewrite app_nil_r.
      * intros n. unfold settlements in *.
        rewrite Htr3, omap_app, Hset1, Ht1, Ht. simpl.
        by rewrite !app_nil_r.
      * intros l Ha. apply (Hdet l). revert Ha. apply attached_ext.
        by rewrite Hh3.
  - (* the pending publishes were rejected and took the track out *)
    assert (Hl0 : attached s r l0).
    { exists ts. split; [done|]. rewrite Hls. left. }
    destruct (HJ r l0 Hl0) as (_ & _ & Hj3).
    destruct (listener_closure s Hprom r l0 Hl0) as (_ & _ & _ & ts0 & Hts0 & Hid0).
    rewrite Hts in Hts0. injection Hts0 as <-.
    assert (Hnopub : ∀ sid p, JsMap.get (trackPublications s) sid = Some p →
                       track_id (pub_track p) ≠ track_id t).
    { intros sid p Hget. rewrite <- Hid, Hid0. by apply (Hj3 sid). }
    assert (Hfound : found = None).
    { destruct found as [p|] eqn:Hfound; [|done].
      destruct (getTrackPublication_get _ _ _ (publications_nodup s Hreg) Hfound)
        as (sid & Hget & Hof).
      apply publication_of_LocalTrack in Hof.
      exfalso. apply (Hnopub sid p Hget). by rewrite Hof. }
    rewrite Hfound.
    assert (Hgone : JsMap.get (tracks s1) (track_id t) = None).
    { rewrite Ht1, Hid. apply JsMapFacts.get_delete_eq. }
    assert (Hnoop : snd (_removeTrack t s1) = s1).
    { unfold _removeTrack. by rewrite Hgone. }
    rewrite Hnoop. rewrite Hid, Ht in Hem1.
    split_and!; try done.
    + intros sid p. rewrite Hp1. apply Hnopub.
    + intros sid p Hget _. by rewrite Hp1.
Qed.

Lemma unpublishTrack_unregistered track s :
  is_track_type track = true →
  (value_id track ≫= JsMap.get (tracks s)) = None →
  unpublishTrack track s = (Return None, s).
Proof.
  intros Hv Hlook. unfold unpublishTrack, bind.
  by rewrite validateLocalTrack_eq, Hv, Hlook.
Qed.

Lemma unpublishTrack_no_record track s t :
  is_track_type track = true →
  (value_id track ≫= JsMap.get (tracks s)) = Some t →
  JsMap.get (signaling_tracks s) (track_id t) = None →
  unpublishTrack track s =
    (Throw (TypeError "Cannot read property 'publishFailed' of undefined"), s).
Proof.
  intros Hv Hlook Hsig. unfold unpublishTrack, bind.
  by rewrite validateLocalTrack_eq, Hv, Hlook, Hsig.
Qed.

Lemma quiescent_unpublishTrack track s :
  quiescent s → quiescent (snd (unpublishTrack track s)).
Proof.
  intros Hq. destruct (is_track_type track) eqn:Hv.
  - destruct (value_id track ≫= JsMap.get (tracks s)) as [t|] eqn:Hlook.
    + destruct (JsMap.get (signaling_tracks s) (track_id t)) as [r|] eqn:Hsig.
      * destruct (unpublishTrack_facts s track t r Hq Hv Hlook Hsig)
          as (ts & _ & _ & _ & _ & Hq' & _). exact Hq'.
      * by rewrite (unpublishTrack_no_record track s t).
    + by rewrite unpublishTrack_unregistered.
  - by rewrite unpublishTrack_invalid.
Qed.

Lemma quiescent_map_publishTrack trs s :
  quiescent s → quiescent (snd (map_publishTrack trs s)).
Proof.
  revert s. induction trs as [|track trs IH]; intros s Hq; [done|].
  simpl. unfold bind.
  pose proof (quiescent_publishTrack track None s Hq) as H1.
  destruct (publishTrack track None s) as [[res|e] s1]; [|done].
  pose proof (IH s1 H1) as H2.
  by destruct (map_publishTrack trs s1) as [[rs|e] s2].
Qed.

Lemma quiescent_reduce_unpublishTrack trs acc s :
  quiescent s → quiescent (snd (reduce_unpublishTrack trs acc s)).
Proof.
  revert acc s. induction trs as [|track trs IH]; intros acc s Hq; [done|].
  simpl. unfold bind.
  pose proof (quiescent_unpublishTrack track s Hq) as H1.
  destruct (unpublishTrack track s) as [[res|e] s1]; [|done].
  by apply IH.
Qed.

Lemma keeps_quiescent_publishTracks trs : keeps quiescent (publishTracks trs).
Proof.
  intros s Hq. destruct trs as [| | | |elements| |]; try done.
  rewrite (proj1 (publishTracks_array elements s)).
  by apply quiescent_map_publishTrack.
Qed.

Lemma keeps_quiescent_unpublishTracks trs :
  keeps quiescent (unpublishTracks trs).
Proof.
  intros s Hq. unfold unpublishTracks. destruct trs; try done.
  by apply quiescent_reduce_unpublishTrack.
Qed.

Lemma quiescent_track_stop t s : quiescent s → quiescent (track_stop t s).
Proof. apply inert_quiescent. by apply inert_log. Qed.

Lemma quiescent_exec op s :
  quiescent s → permitted op s → quiescent (exec op s).
Proof.
  intros Hq Hp.
  destruct op as [track name|trs|track|trs|track|trs|track stop|trs stop
                 |r sid|r e|r|state|]; simpl.
  - by apply quiescent_publishTrack.
  - by apply keeps_quiescent_publishTracks.
  - by apply quiescent_unpublishTrack.
  - by apply keeps_quiescent_unpublishTracks.
  - revert Hq. apply keeps_addTrack. intros name s0.
    apply quiescent_publishTrack.
  - revert Hq. apply keeps_addTracks. intros elements.
    apply keeps_quiescent_publishTracks.
  - revert Hq. apply keeps_removeTrack.
    + intros s0. apply quiescent_unpublishTrack.
    + apply quiescent_track_stop.
  - revert Hq. apply keeps_removeTracks.
    + apply keeps_quiescent_unpublishTracks.
    + apply quiescent_track_stop.
  - by apply quiescent_setSid.
  - by apply quiescent_publishFailed.
  - by apply quiescent_emit_updated.
  - revert Hq. apply inert_quiescent, inert_signaling_setState.
  - revert Hq. apply inert_quiescent, inert_tick.
Qed.

(** ** Construction establishes the invariant *)

Lemma quiescent_blank state toStop : quiescent (blank state toStop).
Proof.
  split_and!.
  - split; simpl; try done; try apply NoDup_nil_2.
    intros [] sid p; done.
  - split; simpl; try done.
    + intros r l (ts & Hts & _). done.
    + intros r1 l1 r2 l2 (ts & Hts & _). done.
    + intros n Hn. lia.
  - intros r l (ts & Hts & _). done.
Qed.

Lemma new_Map_keyed (localTracks : list LocalTrack) : ∀ m,
  (∀ i t, JsMap.get m i = Some t → track_id t = i) →
  NoDup (JsMap.keys m) →
  let m' := fold_left (λ map track, JsMap.set map (track_id track) track)
              localTracks m in
  (∀ i t, JsMap.get m' i = Some t → track_id t = i)
  ∧ NoDup (JsMap.keys m').
Proof.
  induction localTracks as [|t lts IH]; intros m Hkeyed Hnd; [done|].
  simpl. apply IH.
  - intros i t'. rewrite JsMapFacts.get_set.
    case_decide; [intros; by simplify_eq | apply Hkeyed].
  - by apply JsMapFacts.NoDup_keys_set.
Qed.

Lemma quiescent_Participant state toStop localTracks :
  quiescent (Participant state toStop localTracks).
Proof.
  destruct (new_Map_keyed localTracks JsMap.empty) as [Hkeyed Hnd];
    [done | apply NoDup_nil_2 |].
  split_and!.
  - split; simpl; try done; try apply NoDup_nil_2.
    intros [] sid p; done.
  - split; simpl; try done.
    + intros r l (ts & Hts & _). done.
    + intros r1 l1 r2 l2 (ts & Hts & _). done.
    + intros n Hn. lia.
  - intros r l (ts & Hts & _). done.
Qed.

Lemma quiescent_signaling_addTrack t s :
  quiescent s →
  JsMap.get (tracks s) (track_id t) = Some t →
  (∀ r l, attached s r l → track_id (l_track l) ≠ track_id t) →
  quiescent (signaling_addTrack t s)
  ∧ ∀ r l, attached (signaling_addTrack t s) r l → attached s r l.
Proof.
  intros (Hreg & Hprom & HJ) Ht Hnolis.
  assert (Hatt : ∀ r l, attached (signaling_addTrack t s) r l ↔ attached s r l).
  { intros r l. unfold attached. simpl. split.
    - intros (ts & Hts & Hin).
      apply lookup_app_Some in Hts as [Hts|[_ Hts]]; [by exists ts|].
      destruct (r - length (heap s)); simpl in Hts; simplify_eq.
      by apply elem_of_nil in Hin.
    - intros (ts & Hts & Hin). exists ts. split; [|done].
      by apply lookup_app_l_Some. }
  split; [|intros r l; apply Hatt].
  split_and!.
  - destruct Hreg as [H1 H2 H3 H4 H5 H6 H7 H8 H9]. split; simpl; try done.
    + intros sid p Hget. destruct (H4 sid p Hget) as (? & ? & r & ts & Hts & ? & ?).
      split_and!; [done..|]. exists r, ts. split_and!; [|done..].
      by apply lookup_app_l_Some.
    + intros r1 ts1 r2 ts2 sid Hr1 Hr2 Hs1 Hs2.
      apply lookup_app_Some in Hr1 as [Hr1|[_ Hr1]];
        [|destruct (r1 - length (heap s)); simpl in Hr1; by simplify_eq].
      apply lookup_app_Some in Hr2 as [Hr2|[_ Hr2]];
        [|destruct (r2 - length (heap s)); simpl in Hr2; by simplify_eq].
      by apply (H8 r1 ts1 r2 ts2 sid).
    + intros i r. rewrite JsMapFacts.get_set. case_decide as Hd.
      * intros [= <-]. eexists. split; [by apply list_lookup_middle|]. done.
      * intros Hget. destruct (H9 i r Hget) as (ts & Hts & ?).
        exists ts. split; [|done]. by apply lookup_app_l_Some.
  - split.
    + intros r l Ha%Hatt.
      destruct (listener_closure s Hprom r l Ha) as (? & ? & ? & ts & Hts & ?).
      split_and!; [done..|]. exists ts. split; [|done].
      simpl. by apply lookup_app_l_Some.
    + intros r ts. simpl. intros Hts.
      apply lookup_app_Some in Hts as [Hts|[_ Hts]].
      * by apply (listener_unique s Hprom r).
      * destruct (r - length (heap s)); simpl in Hts; simplify_eq.
        simpl. apply NoDup_nil_2.
    + intros r1 l1 r2 l2 Ha1%Hatt Ha2%Hatt. by apply (promise_unique s Hprom).
    + intros n Hn.
      destruct (promise_settled s Hprom n Hn) as [(r & l & Ha & Hp)|?];
        [|by right].
      left. exists r, l. split; [by apply Hatt|done].
    + intros n. apply (promise_fresh s Hprom).
  - intros r l Ha%Hatt. destruct (HJ r l Ha) as (Hj1 & Hj2 & Hj3).
    split_and!; [|done..]. simpl.
    rewrite JsMapFacts.get_set_ne; [done|].
    intros Heq. by apply (Hnolis r l Ha).
Qed.

Lemma track_id_values (m : JsMap.t LocalTrack) :
  (∀ i t, JsMap.get m i = Some t → track_id t = i) →
  NoDup (JsMap.keys m) →
  map track_id (JsMap.values m) = JsMap.keys m.
Proof.
  induction m as [|[k v] m IH]; simpl; [done|].
  rewrite NoDup_cons. intros Hkeyed [Hk Hnd]. f_equal.
  - apply Hkeyed. by rewrite decide_True.
  - apply IH; [|done]. intros i t Hget. apply Hkeyed.
    rewrite decide_False; [done|]. intros ->.
    apply JsMapFacts.get_None_keys in Hk. unfold JsMap.keys in Hk. congruence.
Qed.

Lemma attached_getOrCreate t s r l :
  attached (snd (_getOrCreateLocalTrackPublication t s)) r l →
  attached s r l ∨ l_track l = t.
Proof.
  unfold _getOrCreateLocalTrackPublication.
  destruct (getTrackPublication _ _); [by left|].
  destruct (JsMap.get _ _) as [r0|]; [|by left]. simpl.
  unfold attached, on_updated. simpl. intros (ts & Hts & Hin).
  rewrite list_lookup_alter in Hts. case_decide as Hd; [|left; by exists ts].
  subst r0. destruct (heap s !! r) as [ts0|] eqn:Hts0; [|done].
  simpl in Hts. injection Hts as <-. simpl in Hin.
  apply elem_of_app in Hin as [Hin|Hin%list_elem_of_singleton].
  - left. by exists ts0.
  - right. by subst l.
Qed.

Lemma tracks_getOrCreate t s :
  tracks (snd (_getOrCreateLocalTrackPublication t s)) = tracks s.
Proof.
  unfold _getOrCreateLocalTrackPublication.
  destruct (getTrackPublication _ _); [done|].
  by destruct (JsMap.get _ _).
Qed.

Lemma quiescent_handle_tracks (todo : list LocalTrack) : ∀ s,
  quiescent s →
  (∀ t, t ∈ todo → JsMap.get (tracks s) (track_id t) = Some t) →
  NoDup (map track_id todo) →
  (∀ r l, attached s r l → track_id (l_track l) ∉ map track_id todo) →
  quiescent
    (fold_left
       (λ s track,
          let s := localTrackAdded track s in
          snd (_getOrCreateLocalTrackPublication track s))
       todo s).
Proof.
  induction todo as [|t todo IH]; intros s Hq Hreg Hnd Hnolis; [done|].
  simpl. simpl in Hnd. apply NoDup_cons in Hnd as [Ht Hnd].
  destruct (quiescent_signaling_addTrack t s Hq) as [Hq1 Hatt1].
  { apply Hreg. left. }
  { intros r l Ha Heq. apply (Hnolis r l Ha). simpl. rewrite Heq. left. }
  apply IH.
  - apply quiescent_getOrCreate; [done|]. simpl. apply Hreg. left.
  - intros t' Ht'. rewrite tracks_getOrCreate. simpl. apply Hreg. by right.
  - done.
  - intros r l [Ha| ->]%attached_getOrCreate.
    + apply Hatt1 in Ha. intros Hin. apply (Hnolis r l Ha). simpl. by right.
    + done.
Qed.

Lemma quiescent_LocalParticipant state localTracks should :
  quiescent (LocalParticipant state localTracks should).
Proof.
  unfold LocalParticipant.
  set (s1 := Participant state _ localTracks).
  pose proof (quiescent_Participant state
                (tracksToStop should localTracks) localTracks) as Hq1.
  assert (Hh1 : heap s1 = []) by reflexivity.
  fold s1 in Hq1.
  unfold _handleTrackSignalingEvents. case_decide; [done|].
  assert (Hon : ∀ h s, inert s (self_on h s)).
  { intros h s. inert_fields. exists []. by rewrite app_nil_r. }
  eapply inert_quiescent; [apply Hon|].
  set (s2 := self_on HLocalTrackRemoved _).
  assert (Hq2 : quiescent s2).
  { revert Hq1. apply inert_quiescent.
    do 3 (eapply inert_trans; [apply Hon|]). apply Hon. }
  destruct Hq1 as (Hreg1 & _).
  apply quiescent_handle_tracks; [done| | |].
  - intros t Hin. apply JsMapFacts.elem_values in Hin as [k Hin].
    apply JsMapFacts.elem_get in Hin; [|apply (tracks_nodup s1 Hreg1)].
    change (tracks s2) with (tracks s1).
    by rewrite (tracks_keyed s1 Hreg1 _ _ Hin).
  - change (tracks s2) with (tracks s1).
    rewrite track_id_values; [apply (tracks_nodup s1 Hreg1)| |].
    + apply (tracks_keyed s1 Hreg1).
    + apply (tracks_nodup s1 Hreg1).
  - intros r l (ts & Hts & _). change (heap s2) with (heap s1) in Hts.
    by rewrite Hh1 in Hts.
Qed.

(** Between operations the invariant holds. *)
Lemma reachable_quiescent s : reachable s → quiescent s.
Proof.
  induction 1 as [state localTracks should|s op Hs IH Hp].
  - apply quiescent_LocalParticipant.
  - by apply quiescent_exec.
Qed.

(** ** Pending publishes in a quiescent state *)

Lemma attached_updated s r l :
  quiescent s → attached s r l →
  ∃ ts,
    heap s !! l_signaling l = Some ts
    ∧ l_signaling l = r
    ∧ JsMap.get (tracks s) (track_id (l_track l)) = Some (l_track l)
    ∧ settlements (l_promise l) s = []
    ∧ match ts_error ts, truthy (ts_sid ts) with
      | Some error, _ =>
          settlements (l_promise l) (updated l s) = [Rejected error]
          ∧ ¬ attached (updated l s) r l
      | None, Some sid =>
          ∃ p, pub_track p = l_track l
               ∧ settlements (l_promise l) (updated l s) = [Resolved p]
               ∧ ¬ attached (updated l s) r l
      | None, None => updated l s = s
      end.
Proof.
  intros (Hreg & Hprom & HJ) Ha.
  destruct (listener_closure s Hprom r l Ha) as (Hr & _ & Hset0 & _).
  destruct (HJ r l Ha) as (_ & Hregd & _).
  destruct Ha as (ts & Hts & Hin). subst r.
  exists ts. split_and!; [done..|].
  assert (Hhas : JsMap.has (tracks s) (track_id (l_track l)) = true).
  { apply JsMapFacts.has_true. eauto. }
  assert (Hdet : ∀ s', heap s' = alter (ts_removeListener_updated l)
                                   (l_signaling l) (heap s) →
                       ¬ attached s' (l_signaling l) l).
  { intros s' Hh Ha'.
    apply (attached_settle s s' (l_signaling l) l ts) in Ha'; try done.
    by destruct Ha'. }
  destruct (ts_error ts) as [error|] eqn:He.
  - destruct (updated_error_fields s l ts error Hts He)
      as (_ & _ & _ & _ & Hh & _ & Hset).
    split; [|by apply Hdet].
    by rewrite Hset, Hset0, decide_True.
  - destruct (truthy (ts_sid ts)) as [sid|] eqn:Hsid.
    + destruct (updated_sid_fields s l ts sid Hts He Hhas Hsid)
        as (p & _ & _ & Hh & _ & Hset & _ & Hcase).
      exists p. split_and!; [| |by apply Hdet].
      * destruct (getTrackPublication _ _) as [p'|] eqn:Hfound.
        -- destruct Hcase as (-> & _).
           apply getTrackPublication_Some in Hfound as [_ Hof].
           by apply publication_of_LocalTrack in Hof.
        -- by destruct Hcase as (-> & _).
      * by rewrite Hset, Hset0, decide_True.
    + by apply (updated_waiting_eq s l ts).
Qed.

Lemma unpublishTrack_pending s r l :
  quiescent s → attached s r l →
  let t := l_track l in
  let error := ErrWasUnpublished t in
  let s' := snd (unpublishTrack (VLocalTrack t) s) in
  fst (unpublishTrack (VLocalTrack t) s) = Return None
  ∧ quiescent s'
  ∧ settlements (l_promise l) s' = [Rejected error]
  ∧ ¬ pending s' (l_promise l)
  ∧ trackPublicationFailed error t ∈ drop (length (timers s)) (timers s')
  ∧ JsMap.get (tracks s') (track_id t) = None
  ∧ emitted s' = emitted s ++ [trackRemoved t].
Proof.
  intros Hq Ha t error s'.
  pose proof Hq as (Hreg & Hprom & HJ).
  destruct (HJ r l Ha) as (Hsig & Hregd & Hnopub).
  destruct (listener_closure s Hprom r l Ha) as (_ & _ & Hset0 & _).
  destruct (unpublishTrack_facts s (VLocalTrack t) t r Hq eq_refl Hregd Hsig)
    as (ts & Hts & _ & _ & Hres & Hq' & Hgone & _ & _ & Hem & Htm & Hset & _).
  fold s' error in Hres, Hq', Hgone, Hem, Htm, Hset.
  assert (Hin : l ∈ ts_listeners ts).
  { destruct Ha as (ts0 & Hts0 & ?). rewrite Hts in Hts0. by injection Hts0 as <-. }
  assert (Hfound : getTrackPublication (trackPublications s) (VLocalTrack t)
                   = None).
  { destruct (getTrackPublication _ _) as [p|] eqn:Hfound; [|done].
    destruct (getTrackPublication_get _ _ _ (publications_nodup s Hreg) Hfound)
      as (sid & Hget & Hof).
    apply publication_of_LocalTrack in Hof.
    exfalso. apply (Hnopub sid p Hget). by rewrite Hof. }
  assert (Hone : settlements (l_promise l) s' = [Rejected error]).
  { rewrite Hset, Hset0. simpl.
    apply (omap_settled_once l_promise); [|done].
    by apply (listener_unique s Hprom r). }
  split_and!; try done.
  - by rewrite Hres, Hfound.
  - intros (r' & l' & Ha' & Hp).
    destruct Hq' as (_ & Hprom' & _).
    destruct (listener_closure s' Hprom' r' l' Ha') as (_ & _ & Hnil & _).
    rewrite Hp, Hone in Hnil. done.
  - rewrite Htm, drop_app_length. apply list_elem_of_fmap. by exists l.
Qed.

Lemma publishTrack_result track name s :
  quiescent s →
  match fst (publishTrack track name s) with
  | Return (NewPromise n) =>
      n = next_promise s
      ∧ pending (snd (publishTrack track name s)) n
      ∧ settlements n (snd (publishTrack track name s)) = []
  | Return (PromiseReject e) =>
      e = INVALID_TYPE "track" track_types ∨ ∃ t, e = ErrCannotBePublished t
  | Return (PromiseResolve p) | Return (ThePublication p) =>
      p ∈ JsMap.values (trackPublications s)
  | Throw _ => False
  end.
Proof.
  intros Hq. unfold publishTrack.
  destruct (getTrackPublication (trackPublications s) track) as [p|] eqn:Hp.
  { simpl. by apply getTrackPublication_Some in Hp as [? _]. }
  destruct (asLocalTrack track name s) as [[t|e] s1] eqn:Has; cycle 1.
  { simpl. left. unfold asLocalTrack in Has. destruct track; by simplify_eq. }
  assert (Hs1 : trackPublications s1 = trackPublications s
                ∧ next_promise s1 = next_promise s ∧ quiescent s1).
  { unfold asLocalTrack in Has. destruct track; simplify_eq; try done.
    split_and!; [done..|]. revert Hq. apply inert_quiescent. inert_fields.
    exists []. by rewrite app_nil_r. }
  destruct Hs1 as (Hs1 & Hn1 & Hq1).
  pose proof (quiescent_addTrack t s1 Hq1) as Hq2.
  destruct (addTrack_fields t s1) as (Hp2 & _ & Hn2 & _ & _).
  assert (Hget : ∃ t', match fst (_addTrack t s1) with
                       | Some t0 => Some t0
                       | None => JsMap.get (tracks (snd (_addTrack t s1)))
                                   (track_id t)
                       end = Some t').
  { unfold _addTrack.
    destruct (JsMap.has (tracks s1) (track_id t)) eqn:Hhas; simpl.
    - by apply JsMapFacts.has_true in Hhas.
    - eauto. }
  destruct (_addTrack t s1) as [added s2]. simpl in Hp2, Hn2, Hq2, Hget.
  destruct Hget as [t' ->]. unfold lift.
  unfold _getOrCreateLocalTrackPublication.
  destruct (getTrackPublication (trackPublications s2) (VLocalTrack t'))
    as [p|] eqn:Hfound.
  { simpl. apply getTrackPublication_Some in Hfound as [? _].
    by rewrite <- Hs1, <- Hp2. }
  destruct (JsMap.get (signaling_tracks s2) (track_id t')) as [r|] eqn:Hsig.
  2:{ simpl. right. eauto. }
  simpl.
  destruct Hq2 as (Hreg2 & Hprom2 & _).
  destruct (signaling_tracks_keyed s2 Hreg2 _ _ Hsig) as (ts & Hts & _).
  set (l := {| l_promise := next_promise s2; l_track := t'; l_signaling := r |}).
  split_and!.
  - by rewrite Hn2.
  - exists r, l. split; [|done].
    apply (attached_attach _ r ts); [done|]. by right.
  - apply (promise_fresh s2 Hprom2). done.
Qed.

(** * What the operations are made of

    Every operation but the teardown is built from the same few steps:
    writes to the heap of records, to the counters, to the timer queue and
    to the publication registries, the effects [Emit], [Resolve] and
    [Reject], and the two methods of the Track Registry. A relation that
    contains these steps contains the operations. *)
Section closure.

Variable R : State → State → Prop.
Hypothesis R_refl : ∀ s, R s s.
Hypothesis R_trans : ∀ s1 s2 s3, R s1 s2 → R s2 s3 → R s1 s3.
Hypothesis R_heap : ∀ h s, R s (with_heap h s).
Hypothesis R_next_promise : ∀ n s, R s (with_next_promise n s).
Hypothesis R_next_ref : ∀ n s, R s (with_next_ref n s).
Hypothesis R_timers : ∀ x s, R s (with_timers x s).
Hypothesis R_trackPublications : ∀ x s, R s (with_trackPublications x s).
Hypothesis R_publishedKindTracks :
  ∀ k x s, R s (with_publishedKindTracks k x s).
Hypothesis R_emit : ∀ ev s, R s (log (Emit ev) s).
Hypothesis R_resolve : ∀ n p s, R s (log (Resolve n p) s).
Hypothesis R_reject : ∀ n e s, R s (log (Reject n e) s).
Hypothesis R_addTrack : ∀ t s, R s (snd (_addTrack t s)).
Hypothesis R_removeTrack : ∀ t s, R s (snd (_removeTrack t s)).

Local Ltac step :=
  eapply R_trans;
  [|first [ apply R_heap | apply R_next_promise | apply R_next_ref
          | apply R_timers | apply R_trackPublications
          | apply R_publishedKindTracks | apply R_emit | apply R_resolve
          | apply R_reject | apply R_addTrack | apply R_removeTrack ]].

Lemma closure_fold {A} (f : State → A → State) (l : list A) :
  (∀ s a, R s (f s a)) → ∀ s, R s (fold_left f l s).
Proof.
  intros Hf. induction l as [|a l IH]; intros s; simpl; [done|].
  eapply R_trans; [apply Hf | apply IH].
Qed.

Lemma closure_updated l s : R s (updated l s).
Proof.
  unfold updated. destruct (heap s !! l_signaling l) as [ts|]; [|done].
  destruct (ts_error ts) as [error|].
  { unfold setTimeout, removeListener_updated. do 4 step. done. }
  destruct (negb _).
  { unfold removeListener_updated. do 2 step. done. }
  destruct (truthy _) as [sid|]; [|done].
  unfold removeListener_updated, setTimeout.
  destruct (getTrackPublication _ _) as [p|]; simpl.
  - step. destruct (decide _); [step|]; step; done.
  - step. destruct (decide _); [step|]; do 3 step; done.
Qed.

Lemma closure_emit_updated r s : R s (emit_updated r s).
Proof.
  unfold emit_updated. destruct (heap s !! r); [|done].
  apply closure_fold. intros. apply closure_updated.
Qed.

Lemma closure_publishFailed r e s : R s (publishFailed r e s).
Proof.
  unfold publishFailed.
  eapply R_trans; [|apply closure_emit_updated]. apply R_heap.
Qed.

Lemma closure_setSid r sid s : R s (setSid r sid s).
Proof.
  unfold setSid. eapply R_trans; [|apply closure_emit_updated]. apply R_heap.
Qed.

Lemma closure_getOrCreate t s :
  R s (snd (_getOrCreateLocalTrackPublication t s)).
Proof.
  unfold _getOrCreateLocalTrackPublication.
  destruct (getTrackPublication _ _); [done|].
  destruct (JsMap.get _ _); [|done]. simpl.
  unfold on_updated. do 2 step. done.
Qed.

Lemma closure_asLocalTrack track name s :
  R s (snd (asLocalTrack track name s)).
Proof. destruct track; simpl; first [apply R_next_ref | apply R_refl]. Qed.

Lemma closure_publishTrack track name s :
  R s (snd (publishTrack track name s)).
Proof.
  unfold publishTrack. destruct (getTrackPublication _ _); [done|].
  pose proof (closure_asLocalTrack track name s) as Hs1.
  destruct (asLocalTrack track name s) as [[t|e] s1]; [|done].
  simpl in Hs1.
  pose proof (R_addTrack t s1) as Hs2.
  destruct (_addTrack t s1) as [added s2]. simpl in Hs2.
  assert (Hget : ∀ t', R s (snd (lift (_getOrCreateLocalTrackPublication t') s2))).
  { intros t'. unfold lift.
    pose proof (closure_getOrCreate t' s2) as H.
    destruct (_getOrCreateLocalTrackPublication t' s2). simpl in *.
    eauto using R_trans. }
  destruct added as [t'|]; [apply Hget|].
  destruct (JsMap.get _ _) as [t'|]; [apply Hget|].
  simpl. eauto using R_trans.
Qed.

Lemma closure_keeps {A} (c : M A) s0 :
  (∀ s, R s (snd (c s))) → keeps (R s0) c.
Proof. intros Hc s Hs. eapply R_trans; [exact Hs | apply Hc]. Qed.

Lemma closure_of_keeps {A} (c : M A) :
  (∀ s0, keeps (R s0) c) → ∀ s, R s (snd (c s)).
Proof. intros Hc s. apply Hc, R_refl. Qed.

Lemma closure_map_publishTrack trs s : R s (snd (map_publishTrack trs s)).
Proof.
  revert s. induction trs as [|track trs IH]; intros s; [done|].
  simpl. unfold bind.
  pose proof (closure_publishTrack track None s) as H1.
  destruct (publishTrack track None s) as [[r|e] s1]; [|done].
  pose proof (IH s1) as H2.
  destruct (map_publishTrack trs s1) as [[rs|e] s2]; simpl in *;
    eauto using R_trans.
Qed.

Lemma closure_publishTracks trs s : R s (snd (publishTracks trs s)).
Proof.
  destruct trs as [| | | |elements| |]; try done.
  rewrite (proj1 (publishTracks_array elements s)).
  apply closure_map_publishTrack.
Qed.

Lemma closure_unpublishTrack track s : R s (snd (unpublishTrack track s)).
Proof.
  unfold unpublishTrack, bind. rewrite validateLocalTrack_eq.
  destruct (is_track_type track); [|done].
  destruct (value_id track ≫= JsMap.get (tracks s)) as [t|]; [|done].
  destruct (JsMap.get (signaling_tracks s) (track_id t)) as [r|]; [|done].
  simpl.
  eapply R_trans; [apply (closure_publishFailed r (ErrWasUnpublished t))|].
  eapply R_trans; [|apply R_removeTrack].
  destruct (getTrackPublication _ _); [|done].
  do 2 step. done.
Qed.

Lemma closure_reduce_unpublishTrack trs acc s :
  R s (snd (reduce_unpublishTrack trs acc s)).
Proof.
  revert acc s. induction trs as [|track trs IH]; intros acc s; [done|].
  simpl. unfold bind.
  pose proof (closure_unpublishTrack track s) as H1.
  destruct (unpublishTrack track s) as [[r|e] s1]; [|done].
  eapply R_trans; [exact H1 | apply IH].
Qed.

Lemma closure_unpublishTracks trs s : R s (snd (unpublishTracks trs s)).
Proof.
  unfold unpublishTracks. destruct trs; try done.
  apply closure_reduce_unpublishTrack.
Qed.

Lemma closure_addTrack track s : R s (snd (addTrack track s)).
Proof.
  apply (closure_of_keeps (addTrack track)). intros s0.
  apply keeps_addTrack. intros name.
  apply closure_keeps, closure_publishTrack.
Qed.

Lemma closure_addTracks trs s : R s (snd (addTracks trs s)).
Proof.
  apply (closure_of_keeps (addTracks trs)). intros s0.
  apply keeps_addTracks. intros elements.
  apply closure_keeps, closure_publishTracks.
Qed.

Lemma closure_tick s : R s (tick s).
Proof.
  unfold tick. destruct (timers s); [done|]. do 2 step. done.
Qed.

(** The two deprecated removals also stop tracks. *)
Lemma closure_removeTrack track stop s :
  (∀ t s, R s (track_stop t s)) → R s (snd (removeTrack track stop s)).
Proof.
  intros Hstop. apply (closure_of_keeps (removeTrack track stop)). intros s0.
  apply keeps_removeTrack.
  - apply closure_keeps, closure_unpublishTrack.
  - intros t s1 Hs1. eapply R_trans; [exact Hs1 | apply Hstop].
Qed.

Lemma closure_removeTracks trs stop s :
  (∀ t s, R s (track_stop t s)) → R s (snd (removeTracks trs stop s)).
Proof.
  intros Hstop. apply (closure_of_keeps (removeTracks trs stop)). intros s0.
  apply keeps_removeTracks.
  - apply closure_keeps, closure_unpublishTracks.
  - intros t s1 Hs1. eapply R_trans; [exact Hs1 | apply Hstop].
Qed.

Lemma closure_exec op s : plain op → R s (exec op s).
Proof.
  destruct op as [track name|trs|track|trs|track|trs|track stop|trs stop
                 |r sid|r e|r|state|]; simpl; intros Hop; try done.
  - apply closure_publishTrack.
  - apply closure_publishTracks.
  - apply closure_unpublishTrack.
  - apply closure_unpublishTracks.
  - apply closure_addTrack.
  - apply closure_addTracks.
  - apply closure_setSid.
  - apply closure_publishFailed.
  - apply closure_emit_updated.
  - apply closure_tick.
Qed.

End closure.

(** * Who stops tracks *)

Lemma calm_refl s : calm s s.
Proof. exists []. by rewrite app_nil_r. Qed.

Lemma calm_trans s1 s2 s3 : calm s1 s2 → calm s2 s3 → calm s1 s3.
Proof.
  intros (es1 & H1 & Hq1) (es2 & H2 & Hq2). exists (es1 ++ es2).
  rewrite H2, H1, (assoc_L (++)). split; [done|]. by apply Forall_app.
Qed.

Lemma calm_same s s' : trace s' = trace s → calm s s'.
Proof. intros H. exists []. by rewrite app_nil_r. Qed.

Lemma calm_log e s : quiet e → calm s (log e s).
Proof. intros He. exists [e]. split; [done|]. by apply Forall_singleton. Qed.

Lemma calm_addTrack t s : calm s (snd (_addTrack t s)).
Proof.
  destruct (addTrack_fields t s) as (_ & _ & _ & _ & H).
  destruct (JsMap.has (tracks s) (track_id t)).
  - rewrite H. apply calm_refl.
  - destruct H as (_ & Htrace & _). eexists. split; [exact Htrace|].
    by apply Forall_singleton.
Qed.

Lemma calm_removeTrack t s : calm s (snd (_removeTrack t s)).
Proof.
  eexists. split; [apply trace_removeTrack|].
  destruct (JsMap.get _ _); [by apply Forall_singleton | done].
Qed.

Ltac calm_steps :=
  first [ exact calm_refl | exact calm_trans | exact calm_addTrack
        | exact calm_removeTrack
        | by (intros; apply calm_log)
        | by (intros; apply calm_same)
        | by (intros [] ? ?; apply calm_same) ].

Lemma calm_exec op s : plain op → calm s (exec op s).
Proof. apply (closure_exec calm); calm_steps. Qed.

Lemma calm_publishTrack track name s : calm s (snd (publishTrack track name s)).
Proof. apply (closure_publishTrack calm); calm_steps. Qed.

Lemma calm_unpublishTrack track s : calm s (snd (unpublishTrack track s)).
Proof. apply (closure_unpublishTrack calm); calm_steps. Qed.

Lemma calm_unpublishTracks trs s : calm s (snd (unpublishTracks trs s)).
Proof. apply (closure_unpublishTracks calm); calm_steps. Qed.

Lemma calm_observed s s' :
  calm s s' → stopped s' = stopped s ∧ removals s' = removals s.
Proof.
  intros (es & Htrace & Hq). unfold stopped, removals. rewrite Htrace.
  rewrite !omap_app.
  assert (H1 : omap (λ e, match e with Stop t => Some t | _ => None end) es = []).
  { apply omap_all_None. intros e He.
    rewrite Forall_forall in Hq. specialize (Hq e He). by destruct e. }
  assert (H2 : omap (λ e, match e with RemoveListener h => Some h | _ => None end)
                 es = []).
  { apply omap_all_None. intros e He.
    rewrite Forall_forall in Hq. specialize (Hq e He). by destruct e. }
  by rewrite H1, H2, !app_nil_r.
Qed.

Lemma stopped_log e s :
  stopped (log e s) =
    stopped s ++ match e with Stop t => [t] | _ => [] end.
Proof.
  unfold stopped, log. simpl. rewrite omap_app. simpl.
  by destruct e; rewrite ?app_nil_r.
Qed.

Lemma removals_log e s :
  removals (log e s) =
    removals s ++ match e with RemoveListener h => [h] | _ => [] end.
Proof.
  unfold removals, log. simpl. rewrite omap_app. simpl.
  by destruct e; rewrite ?app_nil_r.
Qed.

(** * Tracks and their records before the teardown *)

Lemma pairing_refl s : pairing s s.
Proof. done. Qed.

Lemma pairing_trans s1 s2 s3 : pairing s1 s2 → pairing s2 s3 → pairing s1 s3.
Proof.
  intros [H1 H1'] [H2 H2']. split; [congruence | tauto].
Qed.

Lemma pairing_same s s' :
  handlers s' = handlers s → tracks s' = tracks s →
  signaling_tracks s' = signaling_tracks s → pairing s s'.
Proof.
  intros Hh Ht Hs. split; [done|]. unfold submitted, paired.
  rewrite Hh, Ht, Hs. done.
Qed.

Lemma listening_registered h s :
  handlers s = registered_handlers → listening h s = true.
Proof.
  intros Hh. unfold listening. rewrite Hh. by destruct h.
Qed.

Lemma pairing_addTrack t s : pairing s (snd (_addTrack t s)).
Proof.
  split; [apply stable_addTrack|].
  intros Hsub Hh.
  destruct (stable_addTrack t s) as (_ & Hh' & _). rewrite Hh' in Hh.
  destruct (Hsub Hh) as [Hkeyed Hpair].
  destruct (addTrack_fields t s) as (_ & _ & _ & _ & Hcase).
  destruct (JsMap.has (tracks s) (track_id t)) eqn:Hhas.
  { simpl in Hcase. rewrite Hcase. done. }
  destruct Hcase as (Ht & _ & [(_ & _ & Hlis)|(Hs & _ & _)]).
  { by rewrite (listening_registered _ _ Hh) in Hlis. }
  split.
  - intros i t0. rewrite Ht, JsMapFacts.get_set.
    case_decide; [congruence | apply Hkeyed].
  - intros i. unfold JsMap.has. rewrite Ht, Hs, !JsMapFacts.get_set.
    case_decide; [done | apply Hpair].
Qed.

Lemma pairing_removeTrack t s : pairing s (snd (_removeTrack t s)).
Proof.
  split; [apply stable_removeTrack|].
  intros Hsub Hh.
  destruct (stable_removeTrack t s) as (_ & Hh' & _). rewrite Hh' in Hh.
  destruct (Hsub Hh) as [Hkeyed Hpair].
  unfold _removeTrack.
  destruct (JsMap.get (tracks s) (track_id t)) as [t'|] eqn:Hget; [|done].
  simpl. unfold emit_trackRemoved.
  replace (listening HLocalTrackRemoved _) with true
    by (symmetry; by apply listening_registered).
  pose proof (Hkeyed _ _ Hget) as Hid.
  split; simpl.
  - intros i t0. rewrite JsMapFacts.get_delete.
    case_decide; [done | apply Hkeyed].
  - intros i. unfold JsMap.has. rewrite Hid, !JsMapFacts.get_delete.
    case_decide; [done | apply Hpair].
Qed.

Ltac pairing_steps :=
  first [ exact pairing_refl | exact pairing_trans | exact pairing_addTrack
        | exact pairing_removeTrack
        | by (intros; apply pairing_same)
        | by (intros [] ? ?; apply pairing_same) ].

Lemma pairing_exec op s : plain op → pairing s (exec op s).
Proof. apply (closure_exec pairing); pairing_steps. Qed.

Lemma pairing_track_stop t s : pairing s (track_stop t s).
Proof. by apply pairing_same. Qed.

Lemma pairing_signaling_setState state s :
  reachable s → pairing s (signaling_setState state s) ∨
                handlers (signaling_setState state s) = [].
Proof.
  intros Hreach. unfold signaling_setState.
  destruct (listening HStateChanged _) eqn:Hlis; [|left; by apply pairing_same].
  destruct (decide (state = "disconnected")) as [->|Hstate].
  - right.
    destruct (stateChanged_disconnected
                (with_signaling_state "disconnected" s)) as (_ & Hh & _).
    rewrite Hh. simpl.
    destruct (reachable_handlers s Hreach) as [H|H]; by rewrite H.
  - left. unfold stateChanged. rewrite decide_False by done.
    by apply pairing_same.
Qed.

Lemma submitted_exec op s :
  reachable s → submitted s → submitted (exec op s).
Proof.
  intros Hreach Hsub.
  assert (Hp : pairing s (exec op s) ∨ handlers (exec op s) = []).
  { destruct op as [track name|trs|track|trs|track|trs|track stop|trs stop
                   |r sid|r e|r|state|];
      try (left; by apply pairing_exec).
    - left. apply (closure_removeTrack pairing);
        first [pairing_steps | exact pairing_track_stop].
    - left. apply (closure_removeTracks pairing);
        first [pairing_steps | exact pairing_track_stop].
    - by apply pairing_signaling_setState. }
  destruct Hp as [[_ Hp]|Hp]; [by apply Hp|].
  intros Hreg. by rewrite Hp in Hreg.
Qed.

Lemma signaling_tracks_getOrCreate t s :
  signaling_tracks (snd (_getOrCreateLocalTrackPublication t s)) =
    signaling_tracks s.
Proof.
  unfold _getOrCreateLocalTrackPublication.
  destruct (getTrackPublication _ _); [done|].
  by destruct (JsMap.get _ _).
Qed.

(** The loop of [_handleTrackSignalingEvents] submits every track. *)
Lemma handle_tracks_submits (todo : list LocalTrack) : ∀ s,
  let s' :=
    fold_left
      (λ s track,
         let s := localTrackAdded track s in
         snd (_getOrCreateLocalTrackPublication track s))
      todo s in
  tracks s' = tracks s ∧ handlers s' = handlers s
  ∧ ∀ i, JsMap.has (signaling_tracks s') i =
         JsMap.has (signaling_tracks s) i || bool_decide (i ∈ map track_id todo).
Proof.
  induction todo as [|t todo IH]; intros s; simpl.
  { split_and!; [done|done|]. intros i. by rewrite orb_false_r. }
  destruct (IH (snd (_getOrCreateLocalTrackPublication t (localTrackAdded t s))))
    as (Ht & Hh & Hs).
  split_and!.
  - etrans; [exact Ht|]. by rewrite tracks_getOrCreate.
  - etrans; [exact Hh|].
    by destruct (stable_getOrCreate t (localTrackAdded t s)) as (_ & -> & _).
  - intros i. etrans; [apply Hs|]. rewrite signaling_tracks_getOrCreate.
    unfold localTrackAdded, signaling_addTrack, JsMap.has. simpl.
    rewrite JsMapFacts.get_set.
    change (map track_id (t :: todo)) with (track_id t :: map track_id todo).
    destruct (decide (track_id t = i)) as [->|Hne].
    + rewrite (bool_decide_eq_true_2 (_ ∈ _ :: _)) by (apply elem_of_cons; by left).
      by rewrite orb_true_r.
    + destruct (JsMap.get (signaling_tracks s) i); [done|]. simpl.
      apply bool_decide_ext. rewrite elem_of_cons. naive_solver.
Qed.

Lemma has_keys {V} (m : JsMap.t V) i :
  JsMap.has m i = bool_decide (i ∈ JsMap.keys m).
Proof.
  unfold JsMap.has. destruct (JsMap.get m i) eqn:Hget.
  - symmetry. apply bool_decide_eq_true.
    destruct (decide (i ∈ JsMap.keys m)) as [|Hn]; [done|].
    apply JsMapFacts.get_None_keys in Hn. congruence.
  - symmetry. apply bool_decide_eq_false. by apply JsMapFacts.get_None_keys.
Qed.

Lemma handleTrackSignalingEvents_submits s :
  signaling_state s ≠ "disconnected" →
  let s' := _handleTrackSignalingEvents s in
  tracks s' = tracks s
  ∧ ∀ i, JsMap.has (signaling_tracks s') i =
         JsMap.has (signaling_tracks s) i
         || bool_decide (i ∈ map track_id (JsMap.values (tracks s))).
Proof.
  intros Hstate. unfold _handleTrackSignalingEvents.
  rewrite decide_False by done. cbv zeta.
  destruct (handle_tracks_submits (JsMap.values (tracks s))
              (self_on HLocalTrackRemoved
                 (self_on HLocalTrackEnabled
                    (self_on HLocalTrackDisabled
                       (self_on HLocalTrackAdded s)))))
    as (Ht & _ & Hs).
  split; [exact Ht | intros i; exact (Hs i)].
Qed.

Lemma submitted_LocalParticipant state localTracks should :
  submitted (LocalParticipant state localTracks should).
Proof.
  intros Hreg.
  destruct (quiescent_LocalParticipant state localTracks should) as (Hok & _).
  split; [apply (tracks_keyed _ Hok)|].
  revert Hreg. clear Hok. unfold LocalParticipant.
  destruct (quiescent_Participant state (tracksToStop should localTracks)
              localTracks) as (Hok1 & _).
  set (s1 := Participant state _ localTracks) in *.
  assert (Hh1 : handlers s1 = []) by reflexivity.
  assert (Hs1 : signaling_tracks s1 = []) by reflexivity.
  destruct (decide (signaling_state s1 = "disconnected")) as [Hstate|Hstate].
  { unfold _handleTrackSignalingEvents. rewrite decide_True by done.
    intros Hreg. by rewrite Hh1 in Hreg. }
  intros _ i.
  destruct (handleTrackSignalingEvents_submits s1 Hstate) as (Ht & Hs).
  rewrite Ht, Hs, Hs1. simpl.
  rewrite track_id_values;
    [apply has_keys | apply (tracks_keyed _ Hok1) | apply (tracks_nodup _ Hok1)].
Qed.

Lemma reachable_submitted s : reachable s → submitted s.
Proof.
  induction 1 as [state localTracks should|s op Hreach IH Hperm].
  - apply submitted_LocalParticipant.
  - by apply submitted_exec.
Qed.

(** * More about the public methods *)

Lemma publication_of_cases track p :
  publication_of track p = true ↔
    match track with
    | VLocalTrack t => pub_track p = t
    | VMediaStreamTrack x => mediaStreamTrack (pub_track p) = Some x
    | VUndefined => mediaStreamTrack (pub_track p) = None
    | _ => False
    end.
Proof.
  unfold publication_of, is_track, is_mediaStreamTrack.
  destruct track as [|n|t|x|els| |i]; simpl.
  - destruct (mediaStreamTrack (pub_track p)); naive_solver.
  - destruct (mediaStreamTrack (pub_track p)); naive_solver.
  - rewrite orb_true_iff, bool_decide_eq_true.
    destruct (mediaStreamTrack (pub_track p)); naive_solver.
  - destruct (mediaStreamTrack (pub_track p)) as [x'|]; [|naive_solver].
    rewrite bool_decide_eq_true. naive_solver.
  - destruct (mediaStreamTrack (pub_track p)); naive_solver.
  - destruct (mediaStreamTrack (pub_track p)); naive_solver.
  - destruct (mediaStreamTrack (pub_track p)); naive_solver.
Qed.

Lemma find_first {A} (f : A → bool) (l : list A) :
  match find f l with
  | Some x => ∃ before after,
      l = before ++ x :: after ∧ f x = true ∧ ∀ y, y ∈ before → f y = false
  | None => ∀ y, y ∈ l → f y = false
  end.
Proof.
  induction l as [|a l IH]; simpl.
  { intros y Hy. by apply elem_of_nil in Hy. }
  destruct (f a) eqn:Hfa.
  { exists [], l. split_and!; [done|done|].
    intros y Hy. by apply elem_of_nil in Hy. }
  destruct (find f l) as [x|].
  - destruct IH as (before & after & -> & Hx & Hbefore).
    exists (a :: before), after. split_and!; [done|done|].
    intros y [->|Hy]%elem_of_cons; [done | by apply Hbefore].
  - intros y [->|Hy]%elem_of_cons; [done | by apply IH].
Qed.

(** [_addTrack] returns null for a registered identity only. *)
Lemma addTrack_result t s :
  match fst (_addTrack t s) with
  | Some t' => t' = t ∧ JsMap.has (tracks s) (track_id t) = false
  | None => JsMap.has (tracks s) (track_id t) = true
  end
  ∧ JsMap.get (tracks (snd (_addTrack t s))) (track_id t) =
      match JsMap.get (tracks s) (track_id t) with
      | Some t' => Some t'
      | None => Some t
      end.
Proof.
  unfold _addTrack, JsMap.has.
  destruct (JsMap.get (tracks s) (track_id t)) as [t'|] eqn:Hget; simpl.
  { by rewrite Hget. }
  split; [done|]. unfold emit_trackAdded.
  destruct (listening _ _); simpl; by rewrite JsMapFacts.get_set_eq.
Qed.

Lemma publishTrack_returns track name s :
  ∃ result, fst (publishTrack track name s) = Return result.
Proof.
  unfold publishTrack. destruct (getTrackPublication _ _); [by eexists|].
  destruct (asLocalTrack track name s) as [[t|e] s1]; [|by eexists].
  destruct (addTrack_result t s1) as [Hres Hget].
  destruct (_addTrack t s1) as [added s2]. simpl in *.
  destruct added as [t'|].
  { unfold lift. destruct (_getOrCreateLocalTrackPublication t' s2).
    by eexists. }
  unfold JsMap.has in Hres.
  destruct (JsMap.get (tracks s1) (track_id t)) as [t'|]; [|done].
  rewrite Hget. unfold lift.
  destruct (_getOrCreateLocalTrackPublication t' s2). by eexists.
Qed.

(** What [publishTrack] leaves alone, and what it registers. *)
Lemma publishTrack_registers track name s :
  let s' := snd (publishTrack track name s) in
  trackPublications s' = trackPublications s
  ∧ (∀ k, publishedKindTracks k s' = publishedKindTracks k s)
  ∧ timers s' = timers s
  ∧ (∀ i t, JsMap.get (tracks s) i = Some t → JsMap.get (tracks s') i = Some t)
  ∧ (getTrackPublication (trackPublications s) track = None →
     is_track_type track = true →
     ∀ i, value_id track = Some i → JsMap.has (tracks s') i = true).
Proof.
  unfold publishTrack.
  destruct (getTrackPublication _ _) as [p|]; [done|].
  destruct (asLocalTrack track name s) as [[t|e] s1] eqn:Has.
  2:{ destruct track; by simplify_eq/=. }
  assert (Hs1 : tracks s1 = tracks s ∧ trackPublications s1 = trackPublications s
                ∧ (∀ k, publishedKindTracks k s1 = publishedKindTracks k s)
                ∧ timers s1 = timers s ∧ value_id track = Some (track_id t)).
  { destruct track; simplify_eq/=; split_and!; try done; by intros []. }
  destruct Hs1 as (Ht1 & Hp1 & Hk1 & Htm1 & Hid).
  destruct (addTrack_fields t s1) as (Hp2 & Hk2 & _ & Htm2 & Hcase).
  destruct (addTrack_result t s1) as [_ Hget].
  destruct (_addTrack t s1) as [added s2]. simpl in *.
  assert (Hmono : ∀ i t0, JsMap.get (tracks s) i = Some t0 →
                          JsMap.get (tracks s2) i = Some t0).
  { intros i t0 Hi. rewrite <- Ht1 in Hi. unfold JsMap.has in Hcase.
    destruct (JsMap.get (tracks s1) (track_id t)) eqn:Hg.
    - by rewrite Hcase.
    - destruct Hcase as (-> & _). rewrite JsMapFacts.get_set.
      case_decide; [congruence | done]. }
  assert (Hhas : JsMap.has (tracks s2) (track_id t) = true).
  { unfold JsMap.has. rewrite Hget. by destruct (JsMap.get (tracks s1) _). }
  assert (Hget' : ∀ t', let s3 := snd (lift (_getOrCreateLocalTrackPublication t') s2) in
            trackPublications s3 = trackPublications s
            ∧ (∀ k, publishedKindTracks k s3 = publishedKindTracks k s)
            ∧ timers s3 = timers s
            ∧ (∀ i t0, JsMap.get (tracks s) i = Some t0 →
                       JsMap.get (tracks s3) i = Some t0)
            ∧ (True → is_track_type track = true →
               ∀ i, value_id track = Some i →
                 JsMap.has (tracks s3) i = true)).
  { intros t'. unfold lift.
    pose proof (tracks_getOrCreate t' s2) as Ht3.
    assert (Hrest : let s3 := snd (_getOrCreateLocalTrackPublication t' s2) in
              trackPublications s3 = trackPublications s2
              ∧ (∀ k, publishedKindTracks k s3 = publishedKindTracks k s2)
              ∧ timers s3 = timers s2).
    { cbv zeta. unfold _getOrCreateLocalTrackPublication.
      destruct (getTrackPublication _ _); [by split_and!|].
      destruct (JsMap.get (signaling_tracks s2) _); simpl; split_and!;
        first [done | by intros []]. }
    destruct (_getOrCreateLocalTrackPublication t' s2) as [res s3].
    simpl in *. destruct Hrest as (Hp3 & Hk3 & Htm3).
    split_and!.
    - congruence.
    - intros k. by rewrite Hk3, Hk2, Hk1.
    - congruence.
    - intros i t0 Hi. rewrite Ht3. by apply Hmono.
    - intros _ _ i Hi. rewrite Ht3. congruence. }
  destruct added as [t'|].
  { destruct (Hget' t') as (? & ? & ? & ? & ?). by split_and!; auto. }
  destruct (JsMap.get (tracks s2) (track_id t)) as [t'|].
  { destruct (Hget' t') as (? & ? & ? & ? & ?). by split_and!; auto. }
  simpl. split_and!.
  - congruence.
  - intros k. by rewrite Hk2, Hk1.
  - congruence.
  - done.
  - intros _ _ i Hi. congruence.
Qed.

Lemma getTrackPublication_no_track m track :
  is_track_type track = false → track ≠ VUndefined →
  getTrackPublication m track = None.
Proof.
  intros Htype Hundef.
  destruct (getTrackPublication m track) as [p|] eqn:Hget; [|done].
  apply getTrackPublication_Some in Hget as [_ Hp].
  apply publication_of_cases in Hp. by destruct track.
Qed.

Lemma publishTrack_no_track track name s :
  is_track_type track = false → track ≠ VUndefined →
  publishTrack track name s =
    (Return (PromiseReject (INVALID_TYPE "track" track_types)), s).
Proof.
  intros Htype Hundef. unfold publishTrack.
  rewrite getTrackPublication_no_track by done. by destruct track.
Qed.

Lemma has_get_mono (s s' : State) :
  (∀ i t, JsMap.get (tracks s) i = Some t → JsMap.get (tracks s') i = Some t) →
  ∀ i, JsMap.has (tracks s) i = true → JsMap.has (tracks s') i = true.
Proof.
  intros Hmono i. unfold JsMap.has.
  destruct (JsMap.get (tracks s) i) as [t|] eqn:Hget; [|done].
  by rewrite (Hmono _ _ Hget).
Qed.

Lemma map_publishTrack_results elements : ∀ s,
  ∃ results,
    fst (map_publishTrack elements s) = Return results
    ∧ length results = length elements
    ∧ trackPublications (snd (map_publishTrack elements s)) = trackPublications s
    ∧ timers (snd (map_publishTrack elements s)) = timers s
    ∧ (∀ i t, JsMap.get (tracks s) i = Some t →
              JsMap.get (tracks (snd (map_publishTrack elements s))) i = Some t)
    ∧ (∀ i track, elements !! i = Some track →
         is_track_type track = false → track ≠ VUndefined →
         results !! i = Some (PromiseReject (INVALID_TYPE "track" track_types)))
    ∧ (∀ i track j, elements !! i = Some track →
         is_track_type track = true → value_id track = Some j →
         JsMap.has (tracks (snd (map_publishTrack elements s))) j = true
         ∨ ∃ p, results !! i = Some (PromiseResolve p)
                ∧ publication_of track p = true
                ∧ p ∈ JsMap.values (trackPublications s)).
Proof.
  induction elements as [|track elements IH]; intros s.
  { exists []. by split_and!. }
  simpl. unfold bind.
  destruct (publishTrack_returns track None s) as [r Hr].
  destruct (publishTrack_registers track None s)
    as (Hp1 & _ & Htm1 & Hmono1 & Hreg1).
  destruct (publishTrack track None s) as [c s1] eqn:Hpub.
  simpl in *. subst c.
  destruct (IH s1) as (rs & Hrs & Hlen & Hp2 & Htm2 & Hmono2 & Hbad & Hgood).
  destruct (map_publishTrack elements s1) as [c s2]. simpl in *. subst c.
  exists (r :: rs). simpl. split_and!.
  - done.
  - by rewrite Hlen.
  - congruence.
  - congruence.
  - intros i t Hi. by apply Hmono2, Hmono1.
  - intros [|i] tr Hi Htype Hundef; simpl in *.
    + simplify_eq. rewrite publishTrack_no_track in Hpub by done.
      by simplify_eq.
    + by eapply Hbad.
  - intros [|i] tr j Hi Htype Hj; simpl in *.
    + simplify_eq.
      destruct (getTrackPublication (trackPublications s) tr) as [p|] eqn:Hget.
      * right. exists p. unfold publishTrack in Hpub. rewrite Hget in Hpub.
        simplify_eq. apply getTrackPublication_Some in Hget as [? ?]. done.
      * left. apply (has_get_mono s1 s2 Hmono2). by apply Hreg1.
    + destruct (Hgood i tr j Hi Htype Hj) as [?|(p & ? & ? & Hin)]; [by left|].
      right. exists p. by rewrite <- Hp1.
Qed.

(** No publication without its track in the Track Registry. *)
Lemma unregistered_unpublished s t :
  registries_ok s → JsMap.has (tracks s) (track_id t) = false →
  ∀ sid p, JsMap.get (trackPublications s) sid = Some p →
           track_id (pub_track p) ≠ track_id t.
Proof.
  intros Hok Hhas sid p Hp Hid.
  destruct (publication_registered s Hok sid p Hp) as (_ & Hreg & _).
  unfold JsMap.has in Hhas. rewrite <- Hid, Hreg in Hhas. done.
Qed.

Lemma getTrackPublication_unregistered s t :
  registries_ok s → JsMap.has (tracks s) (track_id t) = false →
  getTrackPublication (trackPublications s) (VLocalTrack t) = None.
Proof.
  intros Hok Hhas.
  destruct (getTrackPublication _ _) as [p|] eqn:Hget; [|done].
  apply getTrackPublication_get in Hget as (sid & Hsid & Hp);
    [|apply (publications_nodup s Hok)].
  apply publication_of_LocalTrack in Hp.
  destruct (unregistered_unpublished s t Hok Hhas sid p Hsid). by rewrite Hp.
Qed.

(** The first publish of a track while the participant listens. *)
Lemma publishTrack_fresh_eq s t name :
  getTrackPublication (trackPublications s) (VLocalTrack t) = None →
  JsMap.has (tracks s) (track_id t) = false →
  listening HLocalTrackAdded s = true →
  let r := length (heap s) in
  let l := {| l_promise := next_promise s; l_track := t; l_signaling := r |} in
  publishTrack (VLocalTrack t) name s =
    (Return (NewPromise (next_promise s)),
     on_updated r l
       (with_next_promise (S (next_promise s))
          (signaling_addTrack t
             (log (Emit (trackAdded t))
                (with_tracks (JsMap.set (tracks s) (track_id t) t) s))))).
Proof.
  intros Hnone Hhas Hlis. unfold publishTrack. rewrite Hnone. simpl.
  unfold _addTrack. rewrite Hhas. unfold emit_trackAdded.
  change (listening HLocalTrackAdded (log _ (with_tracks _ s)))
    with (listening HLocalTrackAdded s).
  rewrite Hlis. unfold lift, _getOrCreateLocalTrackPublication, localTrackAdded.
  change (trackPublications (signaling_addTrack t _)) with (trackPublications s).
  rewrite Hnone. simpl.
  by rewrite JsMapFacts.get_set_eq.
Qed.

(** A publish that the signaling collaborator never hears of. *)
Lemma publishTrack_unheard_eq s t name :
  getTrackPublication (trackPublications s) (VLocalTrack t) = None →
  JsMap.has (tracks s) (track_id t) = false →
  listening HLocalTrackAdded s = false →
  JsMap.get (signaling_tracks s) (track_id t) = None →
  publishTrack (VLocalTrack t) name s =
    (Return (PromiseReject (ErrCannotBePublished t)),
     log (Emit (trackAdded t))
       (with_tracks (JsMap.set (tracks s) (track_id t) t) s)).
Proof.
  intros Hnone Hhas Hlis Hrec. unfold publishTrack. rewrite Hnone. simpl.
  unfold _addTrack. rewrite Hhas. unfold emit_trackAdded.
  change (listening HLocalTrackAdded (log _ (with_tracks _ s)))
    with (listening HLocalTrackAdded s).
  rewrite Hlis. unfold lift, _getOrCreateLocalTrackPublication.
  change (trackPublications (log _ (with_tracks _ s))) with (trackPublications s).
  rewrite Hnone. simpl. by rewrite Hrec.
Qed.

(** Publishing a registered track that has no record changes nothing. *)
Lemma publishTrack_registered_unheard_eq s t name :
  getTrackPublication (trackPublications s) (VLocalTrack t) = None →
  JsMap.get (tracks s) (track_id t) = Some t →
  JsMap.get (signaling_tracks s) (track_id t) = None →
  publishTrack (VLocalTrack t) name s =
    (Return (PromiseReject (ErrCannotBePublished t)), s).
Proof.
  intros Hnone Hget Hrec. unfold publishTrack. rewrite Hnone. simpl.
  unfold _addTrack, JsMap.has. rewrite Hget. simpl. rewrite Hget.
  unfold lift, _getOrCreateLocalTrackPublication. by rewrite Hnone, Hrec.
Qed.

Lemma paired_record s i t :
  registries_ok s → paired s → JsMap.get (tracks s) i = Some t →
  ∃ r ts, JsMap.get (signaling_tracks s) (track_id t) = Some r
          ∧ heap s !! r = Some ts ∧ ts_id ts = track_id t.
Proof.
  intros Hok [Hkeyed Hpair] Hget.
  rewrite (Hkeyed _ _ Hget).
  specialize (Hpair i). unfold JsMap.has in Hpair. rewrite Hget in Hpair.
  destruct (JsMap.get (signaling_tracks s) i) as [r|] eqn:Hr; [|done].
  destruct (signaling_tracks_keyed s Hok i r Hr) as (ts & Hts & Hid).
  by exists r, ts.
Qed.

(** While the participant listens, an accepted track is never refused. *)
Lemma publishTrack_listening track name s e :
  submitted s → handlers s = registered_handlers →
  is_track_type track = true →
  fst (publishTrack track name s) ≠ Return (PromiseReject e).
Proof.
  intros Hsub Hreg Htype. unfold publishTrack.
  destruct (getTrackPublication _ _); [done|].
  destruct (asLocalTrack track name s) as [[t|e'] s1] eqn:Has.
  2:{ destruct track; by simplify_eq/=. }
  assert (Hs1 : pairing s s1).
  { destruct track; simplify_eq/=; by apply pairing_same. }
  destruct Hs1 as [Hh1 Hsub1]. specialize (Hsub1 Hsub).
  destruct (pairing_addTrack t s1) as [Hh2 Hsub2]. specialize (Hsub2 Hsub1).
  destruct (addTrack_result t s1) as [Hres Hget].
  destruct (_addTrack t s1) as [added s2]. simpl in *.
  assert (Hp2 : paired s2) by (apply Hsub2; congruence).
  assert (Hreg' : ∃ t', JsMap.get (tracks s2) (track_id t) = Some t'
                        ∧ match added with
                          | Some t0 => Some t0
                          | None => JsMap.get (tracks s2) (track_id t)
                          end = Some t').
  { destruct added as [t0|].
    - destruct Hres as [-> Hhas]. unfold JsMap.has in Hhas.
      destruct (JsMap.get (tracks s1) (track_id t)); [done|]. by exists t.
    - unfold JsMap.has in Hres.
      destruct (JsMap.get (tracks s1) (track_id t)) as [t'|]; [|done].
      by exists t'. }
  destruct Hreg' as (t' & Ht' & ->).
  unfold lift, _getOrCreateLocalTrackPublication.
  destruct (getTrackPublication _ _); [done|].
  destruct Hp2 as [Hkeyed Hpair].
  rewrite (Hkeyed _ _ Ht').
  specialize (Hpair (track_id t)). unfold JsMap.has in Hpair.
  rewrite Ht' in Hpair.
  by destruct (JsMap.get (signaling_tracks s2) (track_id t)).
Qed.

Lemma value_id_track_type track :
  is_track_type track = true → ∃ i, value_id track = Some i.
Proof. destruct track; naive_solver. Qed.

Lemma tracks_unpublishTrack s track t r :
  quiescent s →
  is_track_type track = true →
  (value_id track ≫= JsMap.get (tracks s)) = Some t →
  JsMap.get (signaling_tracks s) (track_id t) = Some r →
  value_id track = Some (track_id t)
  ∧ JsMap.get (tracks (snd (unpublishTrack track s))) (track_id t) = None.
Proof.
  intros Hq Htype Hlook Hrec.
  destruct (unpublishTrack_facts s track t r Hq Htype Hlook Hrec)
    as (ts & _ & _ & _ & _ & _ & Hgone & _).
  split; [|done].
  destruct Hq as (Hok & _).
  destruct (value_id track) as [i|]; [|done]. simpl in Hlook.
  by rewrite (tracks_keyed s Hok _ _ Hlook).
Qed.

(** The registries after [unpublishTrack], exactly. *)
Lemma unpublishTrack_registries s track t r :
  quiescent s →
  is_track_type track = true →
  (value_id track ≫= JsMap.get (tracks s)) = Some t →
  JsMap.get (signaling_tracks s) (track_id t) = Some r →
  let found := getTrackPublication (trackPublications s) (VLocalTrack t) in
  let s' := snd (unpublishTrack track s) in
  fst (unpublishTrack track s) = Return found
  ∧ tracks s' = JsMap.delete (tracks s) (track_id t)
  ∧ trackPublications s' =
      match found with
      | Some p => JsMap.delete (trackPublications s) (trackSid p)
      | None => trackPublications s
      end
  ∧ ∀ k, publishedKindTracks k s' =
         match found with
         | Some p =>
             if decide (track_kind t = k)
             then JsMap.delete (publishedKindTracks k s) (trackSid p)
             else publishedKindTracks k s
         | None => publishedKindTracks k s
         end.
Proof.
  intros Hq Htype Hlook Hrec. cbv zeta.
  pose proof Hq as (Hok & _).
  destruct (signaling_tracks_keyed s Hok _ _ Hrec) as (ts & Hts & Hid).
  rewrite (unpublishTrack_unfold track s t r Htype Hlook Hrec). cbv zeta.
  destruct (publishFailed_facts r (ErrWasUnpublished t) s ts Hq Hts)
    as (_ & _ & Hp1 & Hk1 & Ht1 & _).
  set (s1 := publishFailed r (ErrWasUnpublished t) s) in *.
  rewrite Hp1. simpl fst.
  set (found := getTrackPublication (trackPublications s) (VLocalTrack t)).
  set (s2 := match found with Some p => _ | None => s1 end).
  destruct (removeTrack_fields t s2) as (Ht3 & Hp3 & Hk3 & _).
  assert (Ht2 : tracks s2 = tracks s1).
  { unfold s2. destruct found; [|done]. by destruct (track_kind t). }
  split_and!.
  - done.
  - simpl. rewrite Ht3, Ht2, Ht1, Hid.
    destruct (ts_listeners ts); [done | apply delete_delete].
  - simpl. rewrite Hp3. unfold s2. destruct found as [p|]; [|done].
    simpl. destruct (track_kind t); simpl; by rewrite Hp1.
  - intros k. simpl. rewrite Hk3. unfold s2. destruct found as [p|]; [|done].
    rewrite <- !Hk1.
    change (publishedKindTracks k (with_trackPublications ?x ?y))
      with (publishedKindTracks k y).
    rewrite publishedKindTracks_with. by case_decide; subst.
Qed.

Lemma reduce_unpublishTrack_stops_at done_ bad rest : ∀ acc s unpublished,
  is_track_type bad = false →
  fst (reduce_unpublishTrack done_ acc s) = Return unpublished →
  reduce_unpublishTrack (done_ ++ bad :: rest) acc s =
    (Throw (INVALID_TYPE "track" track_types),
     snd (reduce_unpublishTrack done_ acc s)).
Proof.
  induction done_ as [|track done_ IH]; intros acc s unpublished Hbad Hret.
  { simpl. unfold bind. by rewrite unpublishTrack_invalid. }
  simpl in *. unfold bind in *.
  destruct (unpublishTrack track s) as [[found|e] s1]; [|done].
  by eapply IH.
Qed.

(** The publication of a registered track, by key. *)
Lemma getTrackPublication_registered s t p :
  registries_ok s → JsMap.get (tracks s) (track_id t) = Some t →
  getTrackPublication (trackPublications s) (VLocalTrack t) = Some p
  ↔ ∃ sid, JsMap.get (trackPublications s) sid = Some p
           ∧ track_id (pub_track p) = track_id t.
Proof.
  intros Hok Hreg. split.
  - intros Hget.
    apply getTrackPublication_get in Hget as (sid & Hsid & Hp);
      [|apply (publications_nodup s Hok)].
    apply publication_of_LocalTrack in Hp. exists sid. by rewrite Hp.
  - intros (sid & Hsid & Hid).
    destruct (publication_registered s Hok sid p Hsid) as (_ & Hp & _).
    rewrite Hid, Hreg in Hp. simplify_eq.
    destruct (getTrackPublication _ _) as [q|] eqn:Hget.
    + apply getTrackPublication_get in Hget as (sid' & Hsid' & Hq);
        [|apply (publications_nodup s Hok)].
      apply publication_of_LocalTrack in Hq.
      assert (sid' = sid).
      { eapply (publication_per_track s Hok); [done..|]. by rewrite Hq. }
      congruence.
    + pose proof (getTrackPublication_None_get _ _ sid p Hget Hsid) as Hno.
      assert (publication_of (VLocalTrack (pub_track p)) p = true)
        by by apply publication_of_LocalTrack.
      congruence.
Qed.

(** One step of [unpublishTracks] while the participant listens. *)
Lemma unpublishTrack_step s track :
  reachable s → handlers s = registered_handlers →
  is_track_type track = true →
  let s1 := snd (unpublishTrack track s) in
  ∃ i found,
    value_id track = Some i
    ∧ fst (unpublishTrack track s) = Return found
    ∧ (∀ j, JsMap.get (tracks s1) j =
            if decide (i = j) then None else JsMap.get (tracks s) j)
    ∧ (∀ sid p, JsMap.get (trackPublications s1) sid = Some p
                ↔ JsMap.get (trackPublications s) sid = Some p
                  ∧ Some p ≠ found)
    ∧ (∀ p, found = Some p
            ↔ ∃ sid, JsMap.get (trackPublications s) sid = Some p
                     ∧ track_id (pub_track p) = i).
Proof.
  intros Hreach Hreg Htype. cbv zeta.
  pose proof (reachable_quiescent s Hreach) as Hq.
  pose proof Hq as (Hok & _).
  pose proof (reachable_submitted s Hreach Hreg) as Hp.
  apply value_id_track_type in Htype as Hi. destruct Hi as [i Hi].
  exists i.
  destruct (JsMap.get (tracks s) i) as [t|] eqn:Hlook.
  - pose proof (tracks_keyed s Hok _ _ Hlook) as Hid. subst i.
    destruct (paired_record s _ t Hok Hp Hlook) as (r & ts & Hr & _ & _).
    assert (Hlook' : (value_id track ≫= JsMap.get (tracks s)) = Some t)
      by by rewrite Hi.
    destruct (unpublishTrack_registries s track t r Hq Htype Hlook' Hr)
      as (Hres & Ht1 & Hp1 & _).
    set (found := getTrackPublication (trackPublications s) (VLocalTrack t))
      in *.
    exists found. split_and!; [done|done| | |].
    + intros j. by rewrite Ht1, JsMapFacts.get_delete.
    + intros sid p. rewrite Hp1.
      destruct found as [q|] eqn:Hfound; [|naive_solver].
      apply (getTrackPublication_registered s t q Hok Hlook)
        in Hfound as (sidq & Hq1 & _).
      destruct (publication_registered s Hok _ _ Hq1) as (Hsidq & _).
      rewrite JsMapFacts.get_delete. case_decide as Hsid.
      * subst. split; [done|]. intros [Hget Hne]. congruence.
      * split; [|naive_solver]. intros Hget. split; [done|].
        intros [= ->].
        destruct (publication_registered s Hok _ _ Hget) as (Hs & _).
        congruence.
    + intros p. apply (getTrackPublication_registered s t p Hok Hlook).
  - rewrite unpublishTrack_unregistered by (by rewrite ?Hi).
    exists None. simpl. split_and!; [done|done| | |].
    + intros j. case_decide; by subst.
    + naive_solver.
    + intros p. split; [done|]. intros (sid & Hsid & Hid).
      destruct (publication_registered s Hok _ _ Hsid) as (_ & Hreg' & _).
      congruence.
Qed.

Lemma reduce_unpublishTrack_listening elements : ∀ s acc,
  reachable s → handlers s = registered_handlers →
  Forall (λ track, is_track_type track = true) elements →
  let s' := snd (reduce_unpublishTrack elements acc s) in
  ∃ pubs,
    fst (reduce_unpublishTrack elements acc s) = Return (acc ++ pubs)
    ∧ reachable s' ∧ handlers s' = registered_handlers
    ∧ (∀ j, JsMap.get (tracks s') j =
            if bool_decide (j ∈ omap value_id elements) then None
            else JsMap.get (tracks s) j)
    ∧ (∀ sid p, JsMap.get (trackPublications s') sid = Some p
                ↔ JsMap.get (trackPublications s) sid = Some p ∧ p ∉ pubs)
    ∧ (∀ p, p ∈ pubs
            ↔ ∃ sid, JsMap.get (trackPublications s) sid = Some p
                     ∧ track_id (pub_track p) ∈ omap value_id elements).
Proof.
  induction elements as [|track elements IH]; intros s acc Hreach Hreg Hall.
  { exists []. simpl. rewrite app_nil_r. split_and!; try done.
    - intros sid p. split; [|naive_solver]. intros Hget. split; [done|].
      by intros ?%elem_of_nil.
    - intros p. split; [by intros ?%elem_of_nil|].
      by intros (sid & _ & ?%elem_of_nil). }
  apply Forall_cons in Hall as [Htype Hall]. cbv zeta.
  destruct (unpublishTrack_step s track Hreach Hreg Htype)
    as (i & found & Hi & Hres & Ht1 & Hp1 & Hfound).
  assert (Hreach1 : reachable (snd (unpublishTrack track s))).
  { by apply (reachable_exec s (Call_unpublishTrack track)). }
  assert (Hreg1 : handlers (snd (unpublishTrack track s)) = registered_handlers).
  { destruct (stable_unpublishTrack track s) as (_ & Hh & _). by rewrite Hh. }
  simpl. unfold bind.
  destruct (unpublishTrack track s) as [c s1]. simpl in *. subst c.
  destruct (IH s1
              (match found with Some p => acc ++ [p] | None => acc end)
              Hreach1 Hreg1 Hall)
    as (rest & Hret & Hreach' & Hreg' & Ht' & Hp' & Hrest).
  exists (match found with Some p => p :: rest | None => rest end).
  rewrite Hi. simpl.
  split_and!; [|done|done| | |].
  - rewrite Hret. destruct found; [|done]. by rewrite <- (assoc_L (++)).
  - intros j. rewrite Ht', Ht1.
    destruct (decide (i = j)) as [->|Hne].
    + rewrite (bool_decide_eq_true_2 (j ∈ j :: _)) by (apply elem_of_cons; by left).
      by destruct (bool_decide _).
    + apply (f_equal (λ b : bool, if b then None else JsMap.get (tracks s) j)).
      apply bool_decide_ext. rewrite elem_of_cons. naive_solver.
  - intros sid p. rewrite Hp', Hp1.
    destruct found as [q|]; [|naive_solver].
    rewrite elem_of_cons. naive_solver.
  - intros p.
    assert (Hin : p ∈ match found with Some q => q :: rest | None => rest end
                  ↔ found = Some p ∨ p ∈ rest).
    { destruct found as [q|]; [rewrite elem_of_cons|]; naive_solver. }
    rewrite Hin, Hfound, Hrest. clear Hin.
    split.
    + intros [(sid & Hsid & Hid)|(sid & Hsid & Hid)].
      * exists sid. split; [done|]. apply elem_of_cons. by left.
      * apply Hp1 in Hsid as [Hsid _]. exists sid. split; [done|].
        apply elem_of_cons. by right.
    + intros (sid & Hsid & [Hid|Hid]%elem_of_cons).
      * left. by exists sid.
      * destruct (decide (found = Some p)) as [Hf|Hf].
        { left. by apply Hfound. }
        right. exists sid. split; [|done]. apply Hp1. split; [done|congruence].
Qed.

Lemma stopped_fold_stop (stop : bool) (publications : list Publication) : ∀ s,
  stopped
    (fold_left
       (λ s publication,
          if stop then track_stop (pub_track publication) s else s)
       publications s) =
    stopped s ++ (if stop then map pub_track publications else []).
Proof.
  induction publications as [|p ps IH]; intros s; simpl.
  { destruct stop; by rewrite app_nil_r. }
  rewrite IH. destruct stop; [|done].
  unfold track_stop. rewrite stopped_log. by rewrite <- (assoc_L (++)).
Qed.

Lemma removeTrack_unfold track stop s :
  removeTrack track stop s =
    match unpublishTrack track s with
    | (Return (Some p), s1) =>
        (Return (Some (pub_track p)),
         if default true stop then track_stop (pub_track p) s1 else s1)
    | (Return None, s1) => (Return None, s1)
    | (Throw e, s1) => (Throw e, s1)
    end.
Proof.
  unfold removeTrack, bind.
  destruct (unpublishTrack track s) as [[[p|]|e] s1]; simpl; try done.
  by destruct (default true stop).
Qed.

(** The constructor stops no track and takes no listener off. *)
Lemma calm_self_on h s : calm s (self_on h s).
Proof. by apply calm_same. Qed.

Lemma calm_fold {A} (f : State → A → State) (l : list A) :
  (∀ s a, calm s (f s a)) → ∀ s, calm s (fold_left f l s).
Proof. apply (closure_fold calm); calm_steps. Qed.

Lemma calm_getOrCreate t s :
  calm s (snd (_getOrCreateLocalTrackPublication t s)).
Proof. apply (closure_getOrCreate calm); calm_steps. Qed.

Lemma calm_handleTrackSignalingEvents s :
  calm s (_handleTrackSignalingEvents s).
Proof.
  unfold _handleTrackSignalingEvents. case_decide; [apply calm_refl|].
  cbv zeta.
  eapply calm_trans; [|apply calm_self_on].
  eapply calm_trans; [|apply calm_fold].
  - do 3 (eapply calm_trans; [|apply calm_self_on]). apply calm_self_on.
  - intros s0 t. eapply calm_trans; [|apply calm_getOrCreate].
    by apply calm_same.
Qed.

Lemma calm_LocalParticipant state localTracks should :
  calm (blank state (tracksToStop should localTracks))
       (LocalParticipant state localTracks should).
Proof.
  unfold LocalParticipant.
  eapply calm_trans; [|apply calm_handleTrackSignalingEvents].
  by apply calm_same.
Qed.

Lemma removals_unchanged_by_removals op s :
  (∀ state, op ≠ Signaling_state state) → removals (exec op s) = removals s.
Proof.
  intros Hop.
  set (R := λ s s' : State, removals s' = removals s).
  assert (Hlog : ∀ e s, (∀ h, e ≠ RemoveListener h) → R s (log e s)).
  { intros e s0 He. unfold R. rewrite removals_log.
    destruct e; rewrite ?app_nil_r; try done. by destruct (He h). }
  assert (Hsame : ∀ s s', trace s' = trace s → R s s').
  { intros s0 s1 H. unfold R, removals. by rewrite H. }
  assert (Hcalm : ∀ s s', calm s s' → R s s').
  { intros s0 s1 H. by destruct (calm_observed _ _ H). }
  assert (Htrans : ∀ s1 s2 s3, R s1 s2 → R s2 s3 → R s1 s3).
  { unfold R. intros. congruence. }
  destruct op as [track name|trs|track|trs|track|trs|track stop|trs stop
                 |r sid|r e|r|state|];
    try (by apply Hcalm, calm_exec).
  - apply (closure_removeTrack R);
      first [ done | by (intros; apply Hsame) | by (intros; apply Hlog)
            | by (intros [] ? ?; apply Hsame)
            | by (intros; apply Hcalm, calm_addTrack)
            | by (intros; apply Hcalm, calm_removeTrack) ].
  - apply (closure_removeTracks R);
      first [ done | by (intros; apply Hsame) | by (intros; apply Hlog)
            | by (intros [] ? ?; apply Hsame)
            | by (intros; apply Hcalm, calm_addTrack)
            | by (intros; apply Hcalm, calm_removeTrack) ].
  - by destruct (Hop state).
Qed.

(** * Delivering an identifier *)

Lemma getTrackPublication_set m track sid p :
  getTrackPublication m track = None → publication_of track p = true →
  getTrackPublication (JsMap.set m sid p) track = Some p.
Proof.
  unfold getTrackPublication, JsMap.values, publication_of.
  intros Hnone Hp. induction m as [|[k v] m IH]; simpl in *.
  { by rewrite Hp. }
  destruct (is_track v track || is_mediaStreamTrack v track) eqn:Hv; [done|].
  case_decide; simpl.
  - by rewrite Hp.
  - rewrite Hv. by apply IH.
Qed.

Lemma getTrackPublication_no_publication s t :
  registries_ok s →
  (∀ sid p, JsMap.get (trackPublications s) sid = Some p →
            track_id (pub_track p) ≠ track_id t) →
  getTrackPublication (trackPublications s) (VLocalTrack t) = None.
Proof.
  intros Hok Hno.
  destruct (getTrackPublication _ _) as [p|] eqn:Hget; [|done].
  apply getTrackPublication_get in Hget as (sid & Hsid & Hp);
    [|apply (publications_nodup s Hok)].
  apply publication_of_LocalTrack in Hp.
  destruct (Hno sid p Hsid). by rewrite Hp.
Qed.

(** One listener that finds an identifier. *)
Lemma updated_sid_step s l ts sid :
  heap s !! l_signaling l = Some ts → ts_error ts = None →
  JsMap.has (tracks s) (track_id (l_track l)) = true →
  truthy (ts_sid ts) = Some sid →
  let found :=
    getTrackPublication (trackPublications s) (VLocalTrack (l_track l)) in
  let p := default (asLocalTrackPublication (l_track l) sid) found in
  let s' := updated l s in
  tracks s' = tracks s
  ∧ signaling_tracks s' = signaling_tracks s
  ∧ signaling_state s' = signaling_state s
  ∧ heap s' = alter (ts_removeListener_updated l) (l_signaling l) (heap s)
  ∧ trace s' = trace s ++ [Resolve (l_promise l) p]
  ∧ timers s' =
      timers s ++ (if decide (signaling_state s = "connected")
                   then [trackPublished p] else [])
  ∧ trackPublications s' =
      match found with
      | Some _ => trackPublications s
      | None => JsMap.set (trackPublications s) sid p
      end
  ∧ ∀ k, publishedKindTracks k s' =
         match found with
         | Some _ => publishedKindTracks k s
         | None =>
             if decide (track_kind (l_track l) = k)
             then JsMap.set (publishedKindTracks k s) sid p
             else publishedKindTracks k s
         end.
Proof.
  intros Hts Herr Hhas Hsid. cbv zeta.
  destruct (getTrackPublication _ _) as [p|] eqn:Hfound; simpl.
  - rewrite (updated_reuse_eq s l ts Hts sid p Herr Hhas Hsid Hfound).
    cbv zeta.
    change (signaling_state (removeListener_updated _ _ s))
      with (signaling_state s).
    destruct (decide (signaling_state s = "connected")); simpl;
      split_and!; try done; by rewrite app_nil_r.
  - rewrite (updated_create_eq s l ts Hts sid Herr Hhas Hsid Hfound).
    cbv zeta.
    assert (Hk : ∀ k x (y : State),
              signaling_state (with_publishedKindTracks k x y)
              = signaling_state y) by by intros [].
    rewrite Hk. simpl.
    assert (Hkind : ∀ k,
              publishedKindTracks k
                (with_publishedKindTracks (track_kind (l_track l))
                   (JsMap.set
                      (publishedKindTracks (track_kind (l_track l)) s) sid
                      (asLocalTrackPublication (l_track l) sid))
                   (with_trackPublications
                      (JsMap.set (trackPublications s) sid
                         (asLocalTrackPublication (l_track l) sid))
                      (removeListener_updated (l_signaling l) l s)))
              = if decide (track_kind (l_track l) = k)
                then JsMap.set (publishedKindTracks k s) sid
                       (asLocalTrackPublication (l_track l) sid)
                else publishedKindTracks k s).
    { intros k. rewrite publishedKindTracks_with.
      case_decide; [by subst|]. by destruct k. }
    destruct (decide (signaling_state s = "connected")); simpl;
      destruct (track_kind (l_track l)) eqn:Hkd; simpl;
      split_and!; try done; try (by rewrite app_nil_r);
      intros k; specialize (Hkind k); by rewrite ?Hkd in Hkind.
Qed.

(** The listeners that find the publication already made. *)
Lemma fold_updated_reuse r sid t p ls : ∀ s ts,
  heap s !! r = Some ts → ts_error ts = None →
  truthy (ts_sid ts) = Some sid → ts_listeners ts = ls →
  (∀ l, l ∈ ls → l_signaling l = r ∧ l_track l = t) →
  JsMap.has (tracks s) (track_id t) = true →
  getTrackPublication (trackPublications s) (VLocalTrack t) = Some p →
  let s' := fold_left (λ s l, updated l s) ls s in
  tracks s' = tracks s
  ∧ signaling_tracks s' = signaling_tracks s
  ∧ trackPublications s' = trackPublications s
  ∧ (∀ k, publishedKindTracks k s' = publishedKindTracks k s)
  ∧ timers s' =
      timers s ++ (if decide (signaling_state s = "connected")
                   then map (λ _, trackPublished p) ls else [])
  ∧ trace s' = trace s ++ map (λ l, Resolve (l_promise l) p) ls
  ∧ ∃ ts', heap s' !! r = Some ts' ∧ ts_listeners ts' = [].
Proof.
  induction ls as [|l ls IH]; intros s ts Hts Herr Hsid Hlist Hls Hhas Hfound.
  { simpl. rewrite !app_nil_r. split_and!; try done.
    - by destruct (decide _); rewrite ?app_nil_r.
    - by exists ts. }
  destruct (Hls l) as [Hr Ht]; [apply elem_of_cons; by left|].
  subst r t.
  destruct (updated_sid_step s l ts sid Hts Herr Hhas Hsid)
    as (Ht1 & Hs1 & Hst1 & Hh1 & Htr1 & Htm1 & Hp1 & Hk1).
  rewrite Hfound in Hp1, Hk1, Htr1, Htm1. simpl in Htr1, Htm1.
  simpl fold_left.
  destruct (IH (updated l s) (ts_removeListener_updated l ts))
    as (Ht2 & Hs2 & Hp2 & Hk2 & Htm2 & Htr2 & Hheap2).
  - rewrite Hh1, list_lookup_alter_eq, Hts. done.
  - done.
  - done.
  - simpl. rewrite Hlist. apply removeListener_head.
  - intros l' Hl'. apply Hls. apply elem_of_cons. by right.
  - by rewrite Ht1.
  - by rewrite Hp1.
  - cbv zeta. split_and!.
    + congruence.
    + congruence.
    + congruence.
    + intros k. by rewrite Hk2, Hk1.
    + rewrite Htm2, Htm1, Hst1.
      destruct (decide _); simpl; by rewrite <- ?(assoc_L (++)).
    + rewrite Htr2, Htr1. simpl. by rewrite <- (assoc_L (++)).
    + done.
Qed.

Lemma settlements_resolves s s' p ls n :
  trace s' = trace s ++ map (λ l, Resolve (l_promise l) p) ls →
  settlements n s' =
    settlements n s
    ++ omap (λ l, if decide (n = l_promise l) then Some (Resolved p) else None)
         ls.
Proof.
  intros Htrace. unfold settlements. rewrite Htrace, omap_app. f_equal.
  assert (Hcons : ∀ {A B} (f : A → option B) x l,
            omap f (x :: l) =
              match f x with Some y => y :: omap f l | None => omap f l end)
    by done.
  clear Htrace. induction ls as [|l ls IH]; [done|].
  change (map ?g (l :: ls)) with (g l :: map g ls).
  rewrite !Hcons, IH. simpl. by repeat case_decide.
Qed.

Lemma emitted_resolves s s' p ls :
  trace s' = trace s ++ map (λ l, Resolve (l_promise l) p) ls →
  emitted s' = emitted s.
Proof.
  intros Htrace. unfold emitted. rewrite Htrace, omap_app.
  rewrite (omap_all_None _ (map _ ls)); [by rewrite app_nil_r|].
  intros e (l & -> & _)%list_elem_of_fmap. done.
Qed.

(** The identifier of a record reaches all that wait for it. *)
Lemma setSid_facts s r ts sid :
  quiescent s → permitted (Signaling_sid r sid) s →
  heap s !! r = Some ts → ts_error ts = None → sid ≠ "" →
  let s' := setSid r sid s in
  let ls := ts_listeners ts in
  ∀ l0 ls', ls = l0 :: ls' →
    let p := asLocalTrackPublication (l_track l0) sid in
    (∀ l, l ∈ ls → l_track l = l_track l0)
    ∧ JsMap.get (tracks s) (ts_id ts) = Some (l_track l0)
    ∧ tracks s' = tracks s
    ∧ signaling_tracks s' = signaling_tracks s
    ∧ trackPublications s' = JsMap.set (trackPublications s) sid p
    ∧ JsMap.get (trackPublications s) sid = None
    ∧ (∀ k, publishedKindTracks k s' =
            if decide (track_kind (l_track l0) = k)
            then JsMap.set (publishedKindTracks k s) sid p
            else publishedKindTracks k s)
    ∧ timers s' =
        timers s ++ (if decide (signaling_state s = "connected")
                     then map (λ _, trackPublished p) ls else [])
    ∧ trace s' = trace s ++ map (λ l, Resolve (l_promise l) p) ls
    ∧ ∃ ts', heap s' !! r = Some ts' ∧ ts_listeners ts' = [].
Proof.
  intros Hq Hperm Hts Herr Hsid. cbv zeta. intros l0 ls' Hls.
  pose proof Hq as (Hok & Hprom & Hsettled).
  assert (Hall : ∀ l, l ∈ ts_listeners ts →
            l_signaling l = r ∧ ts_id ts = track_id (l_track l)
            ∧ JsMap.get (tracks s) (track_id (l_track l)) = Some (l_track l)
            ∧ ∀ sid' p', JsMap.get (trackPublications s) sid' = Some p' →
                track_id (pub_track p') ≠ track_id (l_track l)).
  { intros l Hl. assert (Hatt : attached s r l) by by exists ts.
    destruct (listener_closure s Hprom r l Hatt) as (Hr & _ & _ & ts' & Hts' & Hid).
    destruct (Hsettled r l Hatt) as (_ & Hreg & Hno).
    rewrite Hts in Hts'. by simplify_eq. }
  assert (Hl0 : l0 ∈ ts_listeners ts) by (rewrite Hls; apply elem_of_cons; by left).
  destruct (Hall l0 Hl0) as (Hr0 & Hid0 & Hreg0 & Hno0).
  assert (Hsame : ∀ l, l ∈ ts_listeners ts → l_track l = l_track l0).
  { intros l Hl. destruct (Hall l Hl) as (_ & Hid & Hreg & _).
    rewrite <- Hid, Hid0, Hreg0 in Hreg. by simplify_eq. }
  unfold setSid, emit_updated.
  set (s0 := with_heap (alter (ts_set_sid sid) r (heap s)) s).
  assert (Hts0 : heap s0 !! r = Some (ts_set_sid sid ts)).
  { unfold s0. simpl. by rewrite list_lookup_alter_eq, Hts. }
  rewrite Hts0. simpl ts_listeners. rewrite Hls. simpl fold_left.
  assert (Hhas0 : JsMap.has (tracks s0) (track_id (l_track l0)) = true).
  { unfold JsMap.has. simpl. by rewrite Hreg0. }
  assert (Htruthy : truthy (ts_sid (ts_set_sid sid ts)) = Some sid).
  { simpl. by rewrite decide_False. }
  rewrite <- Hr0 in Hts0.
  destruct (updated_sid_step s0 l0 (ts_set_sid sid ts) sid Hts0 Herr Hhas0
              Htruthy) as (Ht1 & Hs1 & Hst1 & Hh1 & Htr1 & Htm1 & Hp1 & Hk1).
  assert (Hnone : getTrackPublication (trackPublications s0)
                    (VLocalTrack (l_track l0)) = None).
  { by apply (getTrackPublication_no_publication s). }
  rewrite Hnone in Hp1, Hk1, Htr1, Htm1. simpl in Hp1, Hk1, Htr1, Htm1.
  set (p := asLocalTrackPublication (l_track l0) sid) in *.
  set (s1 := updated l0 s0) in *.
  destruct (fold_updated_reuse r sid (l_track l0) p ls' s1
              (ts_removeListener_updated l0 (ts_set_sid sid ts)))
    as (Ht2 & Hs2 & Hp2 & Hk2 & Htm2 & Htr2 & Hheap2).
  - rewrite Hh1, Hr0, list_lookup_alter_eq. rewrite Hr0 in Hts0.
    by rewrite Hts0.
  - done.
  - done.
  - simpl. rewrite Hls. apply removeListener_head.
  - intros l Hl.
    assert (Hl' : l ∈ ts_listeners ts) by (rewrite Hls; apply elem_of_cons; by right).
    destruct (Hall l Hl') as (Hr & _). split; [done | by apply Hsame].
  - by rewrite Ht1.
  - rewrite Hp1. apply getTrackPublication_set; [done|].
    by apply publication_of_LocalTrack.
  - split_and!.
    + intros l Hl. apply Hsame. by rewrite Hls.
    + by rewrite Hid0.
    + by rewrite Ht2, Ht1.
    + by rewrite Hs2, Hs1.
    + by rewrite Hp2, Hp1.
    + destruct (JsMap.get (trackPublications s) sid) as [q|] eqn:Hq'; [|done].
      destruct (publication_registered s Hok sid q Hq')
        as (_ & _ & r' & ts' & Hts' & Hsid' & _).
      destruct Hperm as [_ Hfresh]. by destruct (Hfresh r' ts' Hts').
    + intros k. by rewrite Hk2, Hk1.
    + rewrite Htm2, Htm1, Hst1. simpl.
      destruct (decide _); simpl; by rewrite <- ?(assoc_L (++)).
    + rewrite Htr2, Htr1. simpl. by rewrite <- (assoc_L (++)).
    + done.
Qed.

(** * Publishing and unpublishing again *)

Lemma delete_set_absent {V} (m : JsMap.t V) k v :
  JsMap.get m k = None → JsMap.delete (JsMap.set m k v) k = m.
Proof.
  induction m as [|[k' v'] m IH]; simpl; intros Hget.
  { by rewrite decide_True. }
  destruct (decide (k' = k)) as [->|Hne]; [done|]. simpl.
  rewrite decide_False by done. by rewrite IH.
Qed.

(** What [unpublishTrack] does to a track of which no publish is pending,
    while the participant listens. *)
Lemma unpublishTrack_settled s track t r ts :
  quiescent s → listening HLocalTrackRemoved s = true →
  is_track_type track = true →
  (value_id track ≫= JsMap.get (tracks s)) = Some t →
  JsMap.get (signaling_tracks s) (track_id t) = Some r →
  heap s !! r = Some ts → ts_listeners ts = [] →
  let s' := snd (unpublishTrack track s) in
  signaling_tracks s' = JsMap.delete (signaling_tracks s) (track_id t)
  ∧ timers s' = timers s
  ∧ emitted s' = emitted s ++ [trackRemoved t]
  ∧ ∀ n, settlements n s' = settlements n s.
Proof.
  intros Hq Hlis Htype Hlook Hrec Hts Hnil. cbv zeta.
  destruct (unpublishTrack_facts s track t r Hq Htype Hlook Hrec)
    as (ts' & Hts' & _ & Hreg & _ & _ & _ & _ & _ & Hem & Htm & Hset & _).
  rewrite Hts in Hts'. simplify_eq. rewrite Hnil in Htm, Hset. simpl in *.
  rewrite app_nil_r in Htm.
  split_and!; [|done|done|by intros n; rewrite Hset, app_nil_r].
  rewrite (unpublishTrack_unfold track s t r Htype Hlook Hrec). cbv zeta.
  destruct (publishFailed_facts r (ErrWasUnpublished t) s ts' Hq Hts)
    as (_ & _ & _ & _ & Ht1 & Hs1 & _).
  rewrite Hnil in Ht1. destruct (Hs1 Hnil) as [Hs1' _].
  destruct (stable_publishFailed r (ErrWasUnpublished t) s) as (_ & Hh1 & _).
  set (s1 := publishFailed r (ErrWasUnpublished t) s) in *.
  set (s2 := match getTrackPublication _ _ with Some p => _ | None => s1 end).
  assert (H2 : tracks s2 = tracks s ∧ signaling_tracks s2 = signaling_tracks s
               ∧ handlers s2 = handlers s).
  { unfold s2. destruct (getTrackPublication _ _); [|done].
    by destruct (track_kind t). }
  destruct H2 as (Ht2 & Hs2 & Hh2).
  simpl. unfold _removeTrack. rewrite Ht2, Hreg. simpl.
  unfold emit_trackRemoved.
  replace (listening HLocalTrackRemoved _) with true.
  - simpl. by rewrite Hs2.
  - symmetry. unfold listening in *. simpl. by rewrite Hh2.
Qed.

(** * Construction *)

Lemma values_set_absent {V} (m : JsMap.t V) k v :
  JsMap.has m k = false → JsMap.values (JsMap.set m k v) = JsMap.values m ++ [v].
Proof.
  unfold JsMap.has, JsMap.values.
  induction m as [|[k' v'] m IH]; simpl; [done|].
  destruct (decide (k' = k)) as [->|Hne]; [done|]. simpl.
  intros Hget. by rewrite IH.
Qed.






(** * The deprecated additions *)

Lemma getOrCreate_fields t s :
  let s' := snd (_getOrCreateLocalTrackPublication t s) in
  tracks s' = tracks s ∧ trace s' = trace s
  ∧ trackPublications s' = trackPublications s.
Proof.
  cbv zeta. unfold _getOrCreateLocalTrackPublication.
  destruct (getTrackPublication _ _); [done|].
  by destruct (JsMap.get _ _).
Qed.

(** Where [publishTrack] registers the track it is given, it returns a
    promise. *)
Lemma publishTrack_unregistered_promise track name s :
  is_track_type track = true → tracks_has track s = false →
  let s' := snd (publishTrack track name s) in
  (∃ p, fst (publishTrack track name s) = Return (PromiseResolve p) ∧ s' = s
        ∧ getTrackPublication (trackPublications s) track = Some p)
  ∨ (getTrackPublication (trackPublications s) track = None
     ∧ (∃ t, tracks_get track s' = Some t
             ∧ (∀ t0, track = VLocalTrack t0 → t = t0)
             ∧ trace s' = trace s ++ [Emit (trackAdded t)])
     ∧ ((∃ n, fst (publishTrack track name s) = Return (NewPromise n))
        ∨ ∃ e, fst (publishTrack track name s) = Return (PromiseReject e))).
Proof.
  intros Htype Hhas. cbv zeta. unfold publishTrack.
  destruct (getTrackPublication (trackPublications s) track) as [p|] eqn:Hnone.
  { left. by exists p. }
  right. split; [done|].
  destruct (asLocalTrack track name s) as [[t|e] s1] eqn:Has.
  2:{ destruct track; by simplify_eq/=. }
  assert (Hs1 : tracks s1 = tracks s ∧ trace s1 = trace s
                ∧ trackPublications s1 = trackPublications s
                ∧ value_id track = Some (track_id t)
                ∧ (∀ t0, track = VLocalTrack t0 → t = t0)
                ∧ publication_of track
                    {| pub_track := t; trackSid := "" |} = true).
  { destruct track as [| |t0|m| | |]; simplify_eq/=; split_and!; try done.
    - by intros ? [= ->].
    - unfold publication_of, is_track. simpl. by rewrite bool_decide_eq_true_2.
    - unfold publication_of, is_mediaStreamTrack. simpl.
      by rewrite bool_decide_eq_true_2. }
  destruct Hs1 as (Ht1 & Htr1 & Hp1 & Hid & Hsame & Hof).
  assert (Hhas1 : JsMap.has (tracks s1) (track_id t) = false).
  { unfold tracks_has in Hhas. by rewrite Hid, <- Ht1 in Hhas. }
  destruct (addTrack_fields t s1) as (Hp2 & _ & _ & _ & Hcase).
  destruct (addTrack_result t s1) as [Hres Hget].
  rewrite Hhas1 in Hcase. destruct Hcase as (Ht2 & Htr2 & _).
  destruct (_addTrack t s1) as [added s2]. simpl in *.
  destruct added as [t'|]; [|congruence]. destruct Hres as [-> _].
  destruct (getOrCreate_fields t s2) as (Ht3 & Htr3 & _).
  assert (Hnone2 : getTrackPublication (trackPublications s2) (VLocalTrack t)
                   = None).
  { destruct (getTrackPublication (trackPublications s2) (VLocalTrack t))
      as [p|] eqn:Hfound; [|done].
    apply getTrackPublication_Some in Hfound as [Hin Hp].
    apply publication_of_LocalTrack in Hp.
    rewrite Hp2, Hp1 in Hin.
    pose proof (getTrackPublication_None _ _ p Hnone Hin) as Hno.
    destruct p as [pt ps]. simpl in Hp. subst pt.
    unfold publication_of, is_track, is_mediaStreamTrack in *. simpl in *.
    congruence. }
  unfold lift. unfold _getOrCreateLocalTrackPublication in *.
  rewrite Hnone2 in *.
  split.
  - exists t. unfold tracks_get. rewrite Hid. simpl.
    destruct (JsMap.get (signaling_tracks s2) (track_id t)); simpl in *;
      rewrite ?Ht3, ?Htr3, Ht2, Htr2, Htr1, JsMapFacts.get_set_eq; done.
  - destruct (JsMap.get (signaling_tracks s2) (track_id t)); simpl;
      [left|right]; by eexists.
Qed.

Lemma filter_absent_eq elements s :
  filter_absent elements s =
    match unreadable elements with
    | Some e => (Throw e, s)
    | None =>
        (Return (filter (λ track, tracks_has track s = false) elements), s)
    end.
Proof.
  induction elements as [|track elements IH]; [done|].
  assert (Hstep : is_nullish track = false →
            filter_absent (track :: elements) s =
              match filter_absent elements s with
              | (Return rest, s') =>
                  (Return (if tracks_has track s then rest else track :: rest),
                   s')
              | (Throw e, s') => (Throw e, s')
              end).
  { intros Hne. destruct track; try done; simpl; unfold bind, gets;
      by destruct (filter_absent elements s) as [[?|?] ?]. }
  unfold unreadable in *. simpl find.
  destruct (is_nullish track) eqn:Hundef.
  { by destruct track. }
  rewrite (Hstep eq_refl), IH.
  destruct (find is_nullish elements) as [[]|]; try done.
  rewrite filter_cons. by destruct (tracks_has track s); case_decide.
Qed.

(** * After the teardown *)

Lemma deaf_refl s : deaf s s.
Proof. by intros H. Qed.

Lemma deaf_trans s1 s2 s3 : deaf s1 s2 → deaf s2 s3 → deaf s1 s3.
Proof.
  intros H12 H23 H. destruct (H12 H) as [H2 Hs2].
  destruct (H23 H2) as [H3 Hs3]. split; congruence.
Qed.

Lemma deaf_same s s' :
  handlers s' = handlers s → signaling_tracks s' = signaling_tracks s →
  deaf s s'.
Proof. intros Hh Hs H. split; congruence. Qed.

Lemma deaf_addTrack t s : deaf s (snd (_addTrack t s)).
Proof.
  intros Hh. unfold _addTrack.
  destruct (JsMap.has _ _); [done|]. simpl.
  unfold emit_trackAdded, listening. simpl. by rewrite Hh.
Qed.

Lemma deaf_removeTrack t s : deaf s (snd (_removeTrack t s)).
Proof.
  intros Hh. unfold _removeTrack.
  destruct (JsMap.get _ _); [|done]. simpl.
  unfold emit_trackRemoved, listening. simpl. by rewrite Hh.
Qed.

Ltac deaf_steps :=
  first [ exact deaf_refl | exact deaf_trans | exact deaf_addTrack
        | exact deaf_removeTrack
        | by (intros; apply deaf_same)
        | by (intros [] ? ?; apply deaf_same) ].

Lemma deaf_exec op s : deaf s (exec op s).
Proof.
  destruct op as [track name|trs|track|trs|track|trs|track stop|trs stop
                 |r sid|r e|r|state|];
    try (by apply (closure_exec deaf); first [exact I | deaf_steps]).
  - apply (closure_removeTrack deaf); deaf_steps.
  - apply (closure_removeTracks deaf); deaf_steps.
  - intros Hh. simpl. unfold signaling_setState, listening. simpl.
    by rewrite Hh.
Qed.

(** * A MediaStreamTrack published twice *)

Lemma publishTrack_constructed_eq s m name t s0 :
  asLocalTrack (VMediaStreamTrack m) name s = (Return t, s0) →
  getTrackPublication (trackPublications s) (VMediaStreamTrack m) = None →
  getTrackPublication (trackPublications s) (VLocalTrack t) = None →
  JsMap.has (tracks s) (mst_id m) = false →
  listening HLocalTrackAdded s = true →
  let r := length (heap s) in
  let l := {| l_promise := next_promise s; l_track := t; l_signaling := r |} in
  track_id t = mst_id m ∧ mediaStreamTrack t = Some m
  ∧ publishTrack (VMediaStreamTrack m) name s =
      (Return (NewPromise (next_promise s)),
       on_updated r l
         (with_next_promise (S (next_promise s))
            (signaling_addTrack t
               (log (Emit (trackAdded t))
                  (with_tracks (JsMap.set (tracks s) (track_id t) t) s0))))).
Proof.
  intros Has Hnone Hnone' Hhas Hlis. cbv zeta.
  unfold publishTrack. rewrite Hnone, Has.
  simpl in Has. simplify_eq. simpl. split_and!; [done|done|].
  unfold _addTrack. simpl. rewrite Hhas. unfold emit_trackAdded.
  change (listening HLocalTrackAdded (log _ (with_tracks _ (with_next_ref _ s))))
    with (listening HLocalTrackAdded s).
  rewrite Hlis. unfold lift, _getOrCreateLocalTrackPublication, localTrackAdded.
  change (trackPublications (signaling_addTrack ?t _)) with (trackPublications s).
  rewrite Hnone'. simpl.
  by rewrite JsMapFacts.get_set_eq.
Qed.

Lemma publishTrack_constructed_again_eq s m name t r :
  getTrackPublication (trackPublications s) (VMediaStreamTrack m) = None →
  JsMap.get (tracks s) (mst_id m) = Some t →
  track_id t = mst_id m →
  getTrackPublication (trackPublications s) (VLocalTrack t) = None →
  JsMap.get (signaling_tracks s) (mst_id m) = Some r →
  publishTrack (VMediaStreamTrack m) name s =
    (Return (NewPromise (next_promise s)),
     on_updated r
       {| l_promise := next_promise s; l_track := t; l_signaling := r |}
       (with_next_promise (S (next_promise s))
          (with_next_ref (S (next_ref s)) s))).
Proof.
  intros Hnone Hget Hid Hnone' Hrec.
  unfold publishTrack. rewrite Hnone. simpl.
  unfold _addTrack, JsMap.has. simpl. rewrite Hget. simpl. rewrite Hget.
  unfold lift, _getOrCreateLocalTrackPublication. simpl.
  by rewrite Hnone', Hid, Hrec.
Qed.

(** * The joined promise of [publishTracks] *)

Lemma rejected_at_call_at promises i e0 :
  promises !! i = Some (PromiseReject e0) →
  ∃ e, rejected_at_call promises = Some e
       ∧ ((∀ j e', j < i → promises !! j ≠ Some (PromiseReject e')) → e = e0).
Proof.
  unfold rejected_at_call.
  revert i. induction promises as [|r rs IH]; intros i Hi; [done|].
  destruct i as [|i]; simpl in Hi.
  { simplify_eq. simpl. eauto. }
  destruct (IH i Hi) as (e & He & Hfirst).
  assert (Hrest : (∀ j e', j < S i → (r :: rs) !! j ≠ Some (PromiseReject e')) →
                  e = e0).
  { intros Hno. apply Hfirst. intros j e' Hj. apply (Hno (S j)). lia. }
  destruct r as [p|p|e1|n]; simpl; try (exists e; by split).
  exists e1. split; [done|]. intros Hno.
  by destruct (Hno 0 e1 ltac:(lia)).
Qed.

Lemma rejected_at_call_None promises :
  (∀ e, PromiseReject e ∉ promises) → rejected_at_call promises = None.
Proof.
  unfold rejected_at_call. induction promises as [|r rs IH]; intros Hno; [done|].
  assert (Hrs : ∀ e, PromiseReject e ∉ rs).
  { intros e He. apply (Hno e). by right. }
  destruct r as [p|p|e1|n]; simpl; try by apply IH.
  destruct (Hno e1). by left.
Qed.

Lemma rejected_later_None listed effects : ∀ settled,
  (∀ n e, Reject n e ∈ effects → n ∉ listed) →
  rejected_later listed settled effects = None.
Proof.
  induction effects as [|x effects IH]; intros settled Hno; [done|].
  assert (Hrest : ∀ n e, Reject n e ∈ effects → n ∉ listed).
  { intros n e He. apply (Hno n e). by right. }
  destruct x; simpl; try by apply IH.
  case_bool_decide; [by apply IH|].
  case_bool_decide as Hin; [|by apply IH].
  destruct (Hno promise e); [by left | done].
Qed.

Lemma settlements_Reject n e s :
  Reject n e ∈ trace s → Rejected e ∈ settlements n s.
Proof.
  intros Hin. unfold settlements. apply list_elem_of_omap.
  exists (Reject n e). split; [done|]. simpl. by rewrite decide_True.
Qed.

(** Once every listed promise is resolved, so is the joined one. *)
Lemma Promise_all_resolved promises s values :
  promises_ok s →
  mapM (resolution s) promises = Some values →
  Promise_all_state promises s = JResolved values.
Proof.
  intros Hok Hall. unfold Promise_all_state.
  pose proof Hall as Hvalues. apply mapM_Some in Hall.
  assert (Hres : ∀ r, r ∈ promises → ∃ p, resolution s r = Some p).
  { intros r Hr. apply list_elem_of_lookup in Hr as [i Hi].
    destruct (Forall2_lookup_l _ _ _ _ _ Hall Hi) as (p & _ & Hp). eauto. }
  rewrite rejected_at_call_None.
  2:{ intros e He. by destruct (Hres _ He) as [p Hp]. }
  rewrite rejected_later_None, Hvalues; [done|].
  intros n e Hrej Hin.
  apply list_elem_of_omap in Hin as (r & Hr & Hn).
  destruct r as [p|p|e1|n']; simplify_eq/=.
  destruct (Hres _ Hr) as [p Hp]. simpl in Hp.
  apply settlements_Reject in Hrej.
  destruct (decide (n < next_promise s)) as [Hlt|Hge].
  - destruct (promise_settled s Hok n Hlt) as [(r & l & Ha & Hl)|[o Ho]].
    + destruct (listener_closure s Hok r l Ha) as (_ & _ & Hnone & _).
      rewrite Hl in Hnone. by rewrite Hnone in Hp.
    + rewrite Ho in Hp, Hrej. apply list_elem_of_singleton in Hrej.
      by subst o.
  - rewrite (promise_fresh s Hok n) in Hp by lia. done.
Qed.

(** * The claims *)

(** ** Idempotent publish *)



(** ** Publication failure *)

(** C4. When the TrackSignaling record of a pending publish carries an
    error, [updated] removes the track from the track registry, queues
    the trackPublicationFailed notification with that error and the track
    behind the callbacks already queued, emits nothing but trackRemoved
    itself, rejects the promise with that same error, and takes itself off
    the record: the notification is emitted only on the later turn that
    reaches its callback, and a record that held the listener once no
    longer holds it. *)
Theorem updated_error_fails_publish (s : State) (l : Listener)
    (ts : TrackSignaling) (error : Error) :
  heap s !! l_signaling l = Some ts →
  ts_error ts = Some error →
  let s' := updated l s in
  JsMap.has (tracks s') (track_id (l_track l)) = false
  ∧ timers s' = timers s ++ [trackPublicationFailed error (l_track l)]
  ∧ trace s' =
      trace s
      ++ match JsMap.get (tracks s) (track_id (l_track l)) with
         | Some t => [Emit (trackRemoved t)]
         | None => []
         end
      ++ [Reject (l_promise l) error]
  ∧ settlements (l_promise l) s' = settlements (l_promise l) s ++ [Rejected error]
  ∧ heap s' !! l_signaling l = Some (ts_removeListener_updated l ts)
  ∧ (NoDup (ts_listeners ts) →
     l ∉ ts_listeners (ts_removeListener_updated l ts))
  ∧ trace (Nat.iter (S (length (timers s))) tick s') =
      trace (Nat.iter (length (timers s)) tick s')
      ++ [Emit (trackPublicationFailed error (l_track l))].
Proof.
  intros Hts He s'.
  destruct (updated_error_effects s l ts error Hts He) as (Htm & Htr).
  fold s' in Htm, Htr.
  split_and!; [| done | done | | | |].
  - subst s'. rewrite (updated_error_eq s l ts Hts error He). simpl.
    rewrite tracks_removeTrack. apply JsMapFacts.has_false.
    apply JsMapFacts.get_delete_eq.
  - unfold settlements. rewrite Htr, !omap_app. simpl.
    rewrite decide_True by done.
    by destruct (JsMap.get (tracks s) (track_id (l_track l))).
  - subst s'. rewrite (updated_error_eq s l ts Hts error He). simpl.
    rewrite heap_removeTrack. by apply lookup_removeListener_updated.
  - simpl. apply removeListener_NoDup.
  - destruct (tick_iter (S (length (timers s))) s') as [-> _].
    { rewrite Htm, length_app. simpl. lia. }
    destruct (tick_iter (length (timers s)) s') as [-> _].
    { rewrite Htm, length_app. simpl. lia. }
    rewrite Htm, <- app_assoc. f_equal.
    rewrite take_app_length.
    rewrite (take_ge (timers s ++ _)) by (rewrite length_app; simpl; lia).
    by rewrite map_app.
Qed.

Lemma updated_error_fails_publish_witness :
  ∃ ts,
    heap failingA !! l_signaling listenerA = Some ts
    ∧ ts_error ts = Some (SignalingError 53304%N)
    ∧ JsMap.has (tracks (updated listenerA failingA)) "mic-1" = false
    ∧ timers (updated listenerA failingA)
      = timers failingA ++ [trackPublicationFailed (SignalingError 53304%N) trackA]
    ∧ settlements 0 (updated listenerA failingA)
      = settlements 0 failingA ++ [Rejected (SignalingError 53304%N)].
Proof.
  eexists.
  assert (H1 : heap failingA !! l_signaling listenerA =
               Some {| ts_id := "mic-1"; ts_name := "microphone";
                       ts_error := Some (SignalingError 53304%N);
                       ts_sid := None; ts_listeners := [listenerA] |}).
  { vm_compute. reflexivity. }
  pose proof (updated_error_fails_publish failingA listenerA _
                (SignalingError 53304%N) H1 eq_refl) as (Ha & Hb & _ & Hc & _).
  exact (conj H1 (conj eq_refl (conj Ha (conj Hb Hc)))).
Defined.

(** ** Announcing a publication *)

(** C6, as stated, fails: a trackPublished notification that is not made
    because the channel is not connected yet is not held back until the
    channel connects, it is never made. Here the identifier of [trackA]
    arrives while the channel is still connecting: the promise is
    resolved with the new publication and nothing is queued; then the
    channel connects, and whatever number of later turns run, no
    trackPublished is emitted. *)
Lemma trackPublished_dropped_not_deferred :
  let s := updated listenerA (acknowledgedA "connecting") in
  let p := asLocalTrackPublication trackA "TR123" in
  signaling_state (acknowledgedA "connecting") ≠ "connected"
  ∧ settlements 0 s = [Resolved p]
  ∧ JsMap.get (trackPublications s) "TR123" = Some p
  ∧ timers s = []
  ∧ signaling_state (signaling_setState "connected" s) = "connected"
  ∧ ∀ n, emitted (Nat.iter n tick (signaling_setState "connected" s))
         = [trackAdded trackA].
Proof.
  cbv zeta. split_and!; try (vm_compute; done).
  intros n. unfold emitted.
  destruct (tick_iter_all n
              (signaling_setState "connected"
                 (updated listenerA (acknowledgedA "connecting"))))
    as [-> _].
  replace (timers (signaling_setState "connected"
                     (updated listenerA (acknowledgedA "connecting"))))
    with (@nil Event) by (vm_compute; reflexivity).
  rewrite take_nil, app_nil_r. vm_compute. reflexivity.
Qed.

(** C6, amended. When [updated] finds an identifier (no error, the track
    still registered), it resolves the promise with a publication of the
    track that is in the registry afterwards, and emits nothing itself.
    Exactly when the signaling state is 'connected' at that moment, it
    queues a trackPublished notification behind the callbacks already
    queued, and the notification is emitted on the later turn that reaches
    it. Otherwise nothing is queued, and the notification is not made up
    for: a later change of the signaling state to 'connected' queues and
    emits nothing, and the turns after it emit the callbacks that were
    queued and nothing else, so that no trackPublished of this publication
    is emitted unless one was queued before. *)
Theorem updated_sid_announces_iff_connected (s : State) (l : Listener)
    (ts : TrackSignaling) (sid : string) :
  heap s !! l_signaling l = Some ts →
  ts_error ts = None →
  JsMap.has (tracks s) (track_id (l_track l)) = true →
  truthy (ts_sid ts) = Some sid →
  let s' := updated l s in
  ∃ p,
    pub_track p = l_track l
    ∧ p ∈ JsMap.values (trackPublications s')
    ∧ trace s' = trace s ++ [Resolve (l_promise l) p]
    ∧ timers s' =
        timers s ++ (if decide (signaling_state s = "connected")
                     then [trackPublished p] else [])
    ∧ (timers s' ≠ timers s ↔ signaling_state s = "connected")
    ∧ timers (signaling_setState "connected" s') = timers s'
    ∧ trace (signaling_setState "connected" s') = trace s'
    ∧ (signaling_state s = "connected" →
       trace (Nat.iter (S (length (timers s))) tick s') =
         trace (Nat.iter (length (timers s)) tick s')
         ++ [Emit (trackPublished p)])
    ∧ (signaling_state s ≠ "connected" →
       ∀ n,
         trace (Nat.iter n tick (signaling_setState "connected" s')) =
           trace s' ++ map Emit (take n (timers s))
         ∧ (trackPublished p ∉ timers s →
            Emit (trackPublished p)
              ∉ drop (length (trace s))
                  (trace (Nat.iter n tick
                            (signaling_setState "connected" s'))))).
Proof.
  intros Hts He Hh Hsid s'.
  assert (Hconn : ∀ s0, timers (signaling_setState "connected" s0) = timers s0).
  { intros s0. unfold signaling_setState, stateChanged.
    rewrite decide_False by done. by destruct (listening _ _). }
  assert (Hconn' : ∀ s0, trace (signaling_setState "connected" s0) = trace s0).
  { intros s0. unfold signaling_setState, stateChanged.
    rewrite decide_False by done. by destruct (listening _ _). }
  assert (Hgrow : ∀ (tm : list Event) x, tm ++ [x] ≠ tm).
  { intros tm x Heq. apply (f_equal length) in Heq.
    rewrite length_app in Heq. simpl in Heq. lia. }
  assert (Hmain : ∃ p,
            pub_track p = l_track l
            ∧ p ∈ JsMap.values (trackPublications s')
            ∧ trace s' = trace s ++ [Resolve (l_promise l) p]
            ∧ timers s' =
                timers s ++ (if decide (signaling_state s = "connected")
                             then [trackPublished p] else [])).
  { destruct (getTrackPublication (trackPublications s)
                (VLocalTrack (l_track l))) as [p|] eqn:Hp.
    - exists p. subst s'.
      rewrite (updated_reuse_eq s l ts Hts sid p He Hh Hsid Hp).
      apply getTrackPublication_Some in Hp as [Hin Hof].
      apply publication_of_LocalTrack in Hof.
      split; [done|]. simpl.
      destruct (decide (signaling_state s = "connected")); simpl;
        rewrite ?app_nil_r; by split_and!.
    - exists (asLocalTrackPublication (l_track l) sid). subst s'.
      rewrite (updated_create_eq s l ts Hts sid He Hh Hsid Hp).
      split; [done|].
      assert (Hin : ∀ m, asLocalTrackPublication (l_track l) sid
                          ∈ JsMap.values (JsMap.set m sid
                               (asLocalTrackPublication (l_track l) sid))).
      { intros m. eapply JsMapFacts.values_elem, JsMapFacts.get_Some_elem.
        apply JsMapFacts.get_set_eq. }
      destruct (track_kind (l_track l)); simpl;
        (destruct (decide (signaling_state s = "connected")); simpl;
         rewrite ?app_nil_r; by split_and!). }
  destruct Hmain as (p & Htrack & Hin & Htr & Htm).
  exists p. split_and!; try done.
  - rewrite Htm. destruct (decide (signaling_state s = "connected")) as [Hc|Hc].
    + split; [done | intros _; apply Hgrow].
    + rewrite app_nil_r. split; [intros Hne; by destruct Hne | done].
  - intros Hc. rewrite decide_True in Htm by done.
    destruct (tick_iter (S (length (timers s))) s') as [-> _].
    { rewrite Htm, length_app. simpl. lia. }
    destruct (tick_iter (length (timers s)) s') as [-> _].
    { rewrite Htm, length_app. simpl. lia. }
    rewrite Htm, <- app_assoc. f_equal.
    rewrite take_app_length.
    rewrite (take_ge (timers s ++ _)) by (rewrite length_app; simpl; lia).
    by rewrite map_app.
  - intros Hc n. rewrite decide_False, app_nil_r in Htm by done.
    destruct (tick_iter_all n (signaling_setState "connected" s')) as [Hn _].
    rewrite Hconn, Hconn', Htm in Hn.
    split; [exact Hn|].
    intros Hnot. rewrite Hn, Htr, <- app_assoc, drop_app_length.
    intros [Hres|Hemit]%elem_of_cons; [done|].
    apply list_elem_of_fmap in Hemit as (ev & Hev & Hintake).
    injection Hev as <-.
    apply Hnot. eapply subseteq_take, Hintake.
Qed.

Lemma updated_sid_announces_iff_connected_witness :
  ∃ ts,
    heap (acknowledgedA "connecting") !! l_signaling listenerA = Some ts
    ∧ ts_error ts = None
    ∧ JsMap.has (tracks (acknowledgedA "connecting"))
        (track_id (l_track listenerA)) = true
    ∧ truthy (ts_sid ts) = Some "TR123"
    ∧ ∃ p,
        pub_track p = trackA
        ∧ trace (updated listenerA (acknowledgedA "connecting"))
          = trace (acknowledgedA "connecting") ++ [Resolve 0 p]
        ∧ timers (updated listenerA (acknowledgedA "connecting"))
          = timers (acknowledgedA "connecting") ++ [].
Proof.
  eexists.
  assert (H1 : heap (acknowledgedA "connecting") !! l_signaling listenerA =
               Some {| ts_id := "mic-1"; ts_name := "microphone";
                       ts_error := None; ts_sid := Some "TR123";
                       ts_listeners := [listenerA] |}).
  { vm_compute. reflexivity. }
  assert (H3 : JsMap.has (tracks (acknowledgedA "connecting"))
                 (track_id (l_track listenerA)) = true).
  { vm_compute. reflexivity. }
  destruct (updated_sid_announces_iff_connected (acknowledgedA "connecting")
              listenerA _ "TR123" H1 eq_refl H3 eq_refl)
    as (p & Ha & _ & Hb & Hc & _).
  refine (conj H1 (conj eq_refl (conj H3 (conj eq_refl _)))).
  exists p. exact (conj Ha (conj Hb Hc)).
Defined.

(** ** Disconnect teardown *)




(** ** Invalid arguments *)

(** C9, as stated, fails for [publishTrack]: given a value that is no
    track, it throws nothing and returns a promise rejected with the
    invalid-argument error. *)
Lemma publishTrack_invalid_argument_not_thrown :
  is_track_type (VOther 0) = false
  ∧ publishTrack (VOther 0) None joining =
      (Return (PromiseReject (INVALID_TYPE "track" track_types)), joining)
  ∧ fst (publishTrack (VOther 0) None joining)
      ≠ Throw (INVALID_TYPE "track" track_types).
Proof. vm_compute. split_and!; [reflexivity | reflexivity | discriminate]. Qed.

(** C9, amended. [publishTracks] and [unpublishTracks] throw the
    invalid-type error for [tracks] synchronously when the argument is no
    array, and [unpublishTrack] throws the invalid-type error for [track]
    synchronously when the argument is no accepted track; in each case
    nothing else happens. [publishTrack] never throws an invalid-type
    error: for an argument that is no accepted track it returns a promise,
    rejected with the invalid-type error unless the registry holds a
    publication that the argument matches. *)
Theorem invalid_argument_surfacing (s : State) (tracks track : Value)
    (name : option string) :
  is_array tracks = false →
  is_track_type track = false →
  publishTracks tracks s = (Throw (INVALID_TYPE "tracks" array_types), s)
  ∧ unpublishTracks tracks s = (Throw (INVALID_TYPE "tracks" array_types), s)
  ∧ unpublishTrack track s = (Throw (INVALID_TYPE "track" track_types), s)
  ∧ publishTrack track name s =
      (Return
         match getTrackPublication (trackPublications s) track with
         | Some p => PromiseResolve p
         | None => PromiseReject (INVALID_TYPE "track" track_types)
         end, s)
  ∧ ∀ anything anyname n d,
      fst (publishTrack anything anyname s) ≠ Throw (INVALID_TYPE n d).
Proof.
  intros Ha Ht. split_and!.
  - by destruct tracks.
  - by destruct tracks.
  - by apply unpublishTrack_invalid.
  - unfold publishTrack. destruct (getTrackPublication _ _); [done|].
    by destruct track.
  - intros v nm n d. unfold publishTrack.
    destruct (getTrackPublication _ _); [done|].
    destruct (asLocalTrack v nm s) as [[t|e] s1]; [|done].
    destruct (_addTrack t s1) as [[t'|] s2].
    + unfold lift. by destruct (_getOrCreateLocalTrackPublication t' s2).
    + destruct (JsMap.get _ _) as [t'|]; [|done].
      unfold lift. by destruct (_getOrCreateLocalTrackPublication t' s2).
Qed.

Lemma invalid_argument_surfacing_witness :
  is_array (VOther 1) = false
  ∧ is_track_type VUndefined = false
  ∧ publishTracks (VOther 1) publishedA =
      (Throw (INVALID_TYPE "tracks" array_types), publishedA)
  ∧ unpublishTracks (VOther 1) publishedA =
      (Throw (INVALID_TYPE "tracks" array_types), publishedA)
  ∧ unpublishTrack VUndefined publishedA =
      (Throw (INVALID_TYPE "track" track_types), publishedA)
  ∧ publishTrack VUndefined None publishedA =
      (Return (PromiseReject (INVALID_TYPE "track" track_types)), publishedA).
Proof.
  pose proof (invalid_argument_surfacing publishedA (VOther 1) VUndefined None
                eq_refl eq_refl) as (Ha & Hb & Hc & Hd & _).
  exact (conj eq_refl (conj eq_refl (conj Ha (conj Hb (conj Hc Hd))))).
Defined.

(** ** The auto-stop set *)

(** C10. The auto-stop set is the one computed at construction, whatever
    happens afterwards. With [shouldStopLocalTracks] it holds exactly the
    constructor's local tracks whose kind is not data, each once; without,
    it is empty, and the teardown stops nothing. *)
Theorem tracksToStop_fixed_at_construction (state : string)
    (localTracks : list LocalTrack) (shouldStopLocalTracks : bool)
    (ops : list Op) :
  let s := LocalParticipant state localTracks shouldStopLocalTracks in
  let later := fold_left (λ s op, exec op s) ops s in
  _tracksToStop later = _tracksToStop s
  ∧ NoDup (_tracksToStop s)
  ∧ (∀ t, t ∈ _tracksToStop s
          ↔ shouldStopLocalTracks = true ∧ t ∈ localTracks
            ∧ track_kind t ≠ data)
  ∧ (∀ t, t ∈ _tracksToStop later → track_kind t ≠ data)
  ∧ _tracksToStop (LocalParticipant state localTracks false) = []
  ∧ let unasked :=
      fold_left (λ s op, exec op s) ops
        (LocalParticipant state localTracks false) in
    trace (stateChanged "disconnected" unasked) =
      trace unasked
      ++ map RemoveListener
           [HStateChanged; HLocalTrackAdded; HLocalTrackDisabled;
            HLocalTrackEnabled; HLocalTrackRemoved].
Proof.
  intros s later. subst later s.
  rewrite tracksToStop_execs, !tracksToStop_LocalParticipant.
  split_and!.
  - done.
  - apply NoDup_tracksToStop.
  - apply elem_of_tracksToStop.
  - intros t Hin. by apply elem_of_tracksToStop in Hin as (_ & _ & Hk).
  - done.
  - intros unasked.
    destruct (stateChanged_disconnected unasked) as (-> & _).
    subst unasked.
    rewrite tracksToStop_execs, tracksToStop_LocalParticipant. done.
Qed.

(** ** Registry consistency *)

(** C2. In every state that the participant reaches between operations,
    each publication in the flat registry and in the three registries by
    kind belongs to a track that the track registry holds under the
    track's id, and the registries by kind hold nothing that the flat
    registry does not hold under the same identifier; every further
    operation - a call of a public method, a report of the signaling
    collaborator, a change of the connection state, a later turn -
    leads to such a state again. The reverse fails: while a publish is
    pending the track registry holds a track that has no publication. *)
Theorem registries_consistent (s : State) :
  reachable s →
  let consistent_with_tracks s :=
    (∀ sid p, JsMap.get (trackPublications s) sid = Some p →
              JsMap.get (tracks s) (track_id (pub_track p)) = Some (pub_track p))
    ∧ (∀ k sid p, JsMap.get (publishedKindTracks k s) sid = Some p →
                  JsMap.get (tracks s) (track_id (pub_track p))
                  = Some (pub_track p)
                  ∧ JsMap.get (trackPublications s) sid = Some p
                  ∧ track_kind (pub_track p) = k) in
  consistent_with_tracks s
  ∧ (∀ op, permitted op s → consistent_with_tracks (exec op s))
  ∧ (reachable publishingA
     ∧ JsMap.get (tracks publishingA) (track_id trackA) = Some trackA
     ∧ trackPublications publishingA = []).
Proof.
  intros Hs consistent_with_tracks.
  assert (Hgen : ∀ s0, reachable s0 → consistent_with_tracks s0).
  { intros s0 (Hreg & _)%reachable_quiescent. split.
    - intros sid p Hget.
      by destruct (publication_registered s0 Hreg sid p Hget) as (_ & ? & _).
    - intros k sid p Hget.
      destruct (kind_in_flat s0 Hreg k sid p Hget) as [Hflat Hk].
      destruct (publication_registered s0 Hreg sid p Hflat) as (_ & ? & _).
      done. }
  split_and!.
  - by apply Hgen.
  - intros op Hp. apply Hgen. by apply reachable_exec.
  - apply (reachable_exec joining (Call_publishTrack (VLocalTrack trackA) None));
      [apply reachable_new | exact I].
  - reflexivity.
  - reflexivity.
Qed.

Lemma publishedA_reachable : reachable publishedA.
Proof.
  apply (reachable_exec publishingA (Signaling_sid 0 "TR123")).
  - apply (reachable_exec joining (Call_publishTrack (VLocalTrack trackA) None));
      [apply reachable_new | exact I].
  - split.
    + eexists. split; reflexivity.
    + intros [|[|r']] ts' Hts'; vm_compute in Hts'; [|discriminate..].
      injection Hts' as <-. discriminate.
Defined.

Lemma registries_consistent_witness :
  reachable publishedA
  ∧ (∀ sid p, JsMap.get (trackPublications publishedA) sid = Some p →
              JsMap.get (tracks publishedA) (track_id (pub_track p))
              = Some (pub_track p))
  ∧ JsMap.get (audioTrackPublications publishedA) "TR123"
    = Some (asLocalTrackPublication trackA "TR123").
Proof.
  pose proof (registries_consistent publishedA publishedA_reachable)
    as ((Ha & _) & _).
  exact (conj publishedA_reachable (conj Ha eq_refl)).
Defined.

(** ** One outcome per publish attempt *)

Lemma publishingA_reachable : reachable publishingA.
Proof.
  apply (reachable_exec joining (Call_publishTrack (VLocalTrack trackA) None));
    [apply reachable_new | exact I].
Defined.

Lemma listenerA_attached : attached publishingA 0 listenerA.
Proof. eexists. split; [reflexivity | apply list_elem_of_here]. Defined.

(** C1, as stated, fails: when the signaling collaborator has no record
    for the track - here the room was disconnected before the participant
    was constructed - [publishTrack] returns a promise rejected with the
    'cannot be published' error of line 210. That is none of the three
    outcomes: no TrackSignaling record exists whose error it could be, and
    it is not the 'was unpublished' error. *)
Lemma publishTrack_fourth_outcome :
  let attempt := publishTrack (VLocalTrack trackA) None torn_down in
  reachable torn_down
  ∧ fst attempt = Return (PromiseReject (ErrCannotBePublished trackA))
  ∧ ¬ ((∃ r ts, heap (snd attempt) !! r = Some ts
                ∧ ts_error ts = Some (ErrCannotBePublished trackA))
       ∨ ∃ t, ErrCannotBePublished trackA = ErrWasUnpublished t).
Proof.
  split_and!.
  - apply reachable_new.
  - reflexivity.
  - intros [(r & ts & Hts & _)|(t & Ht)]; [|discriminate].
    vm_compute in Hts. by destruct r.
Qed.

(** C1, amended. Between operations every promise that [publishTrack]
    has created is either pending, with its listener registered and
    nothing settled, or its listener is gone and it was settled exactly
    once. A run of the listener of a pending promise does one of three
    things: with an error on the record it rejects with that error and
    takes the listener off; with an identifier and no error it resolves
    with a publication of the track and takes the listener off; with
    neither it changes nothing. In any state, a listener that finds no
    error and its track gone from the registry rejects with the 'was
    unpublished' error, takes itself off and schedules nothing.
    [unpublishTrack] on the track of a pending promise leaves the promise
    rejected. [publishTrack] never throws; besides a new pending promise
    it can hand back an existing publication, or a promise rejected at
    once with the invalid-type error or with the 'cannot be published'
    error, and then no listener is registered. *)
Theorem publish_attempt_settles_once (s : State) :
  reachable s →
  (∀ n,
     (n < next_promise s
      ∧ ((pending s n ∧ settlements n s = [])
         ∨ (¬ pending s n ∧ ∃ o, settlements n s = [o])))
     ∨ (next_promise s ≤ n ∧ ¬ pending s n ∧ settlements n s = []))
  ∧ (∀ r l, attached s r l →
       ∃ ts,
         heap s !! l_signaling l = Some ts
         ∧ match ts_error ts, truthy (ts_sid ts) with
           | Some error, _ =>
               settlements (l_promise l) (updated l s) = [Rejected error]
               ∧ ¬ attached (updated l s) r l
           | None, Some sid =>
               ∃ p, pub_track p = l_track l
                    ∧ settlements (l_promise l) (updated l s) = [Resolved p]
                    ∧ ¬ attached (updated l s) r l
           | None, None => updated l s = s
           end)
  ∧ (∀ s0 l ts,
       heap s0 !! l_signaling l = Some ts → ts_error ts = None →
       JsMap.has (tracks s0) (track_id (l_track l)) = false →
       updated l s0 =
         log (Reject (l_promise l) (ErrWasUnpublished (l_track l)))
           (removeListener_updated (l_signaling l) l s0))
  ∧ (∀ r l, attached s r l →
       let s' := snd (unpublishTrack (VLocalTrack (l_track l)) s) in
       ¬ pending s' (l_promise l)
       ∧ settlements (l_promise l) s'
         = [Rejected (ErrWasUnpublished (l_track l))])
  ∧ (∀ track name,
       match fst (publishTrack track name s) with
       | Return (NewPromise n) =>
           n = next_promise s
           ∧ pending (snd (publishTrack track name s)) n
           ∧ settlements n (snd (publishTrack track name s)) = []
       | Return (PromiseReject e) =>
           e = INVALID_TYPE "track" track_types
           ∨ ∃ t, e = ErrCannotBePublished t
       | Return (PromiseResolve p) | Return (ThePublication p) =>
           p ∈ JsMap.values (trackPublications s)
       | Throw _ => False
       end).
Proof.
  intros Hq%reachable_quiescent.
  pose proof Hq as (Hreg & Hprom & HJ).
  assert (Hpend : ∀ n, pending s n → n < next_promise s ∧ settlements n s = []).
  { intros n (r & l & Ha & <-).
    by destruct (listener_closure s Hprom r l Ha) as (_ & ? & ? & _). }
  split_and!.
  - intros n. destruct (decide (n < next_promise s)) as [Hn|Hn].
    + left. split; [done|].
      destruct (promise_settled s Hprom n Hn) as [Hp|[o Ho]].
      * left. split; [done|]. by apply Hpend.
      * right. split; [|eauto]. intros [_ Hnil]%Hpend. congruence.
    + right. split_and!; [lia| |apply (promise_fresh s Hprom); lia].
      intros [? _]%Hpend. lia.
  - intros r l Ha.
    destruct (attached_updated s r l Hq Ha) as (ts & Hts & _ & _ & _ & Hcase).
    by exists ts.
  - intros s0 l ts. apply updated_unregistered_eq.
  - intros r l Ha s'.
    destruct (unpublishTrack_pending s r l Hq Ha) as (_ & _ & ? & ? & _).
    done.
  - intros track name. by apply publishTrack_result.
Qed.

Lemma publish_attempt_settles_once_witness :
  reachable publishingA
  ∧ (pending publishingA 0 ∧ settlements 0 publishingA = [])
  ∧ updated listenerA publishingA = publishingA
  ∧ settlements 0 (snd (unpublishTrack (VLocalTrack trackA) publishingA))
    = [Rejected (ErrWasUnpublished trackA)].
Proof.
  pose proof (publish_attempt_settles_once publishingA publishingA_reachable)
    as (Ha & Hb & _ & Hc & _).
  refine (conj publishingA_reachable (conj _ (conj _ _))).
  - destruct (Ha 0) as [[_ [Hp|[Hp _]]]|[Hn _]].
    + exact Hp.
    + destruct Hp. exists 0, listenerA. exact (conj listenerA_attached eq_refl).
    + vm_compute in Hn. inversion Hn.
  - destruct (Hb 0 listenerA listenerA_attached) as (ts & Hts & Hcase).
    vm_compute in Hts. injection Hts as <-. exact Hcase.
  - exact (proj2 (Hc 0 listenerA listenerA_attached)).
Defined.

(** ** Unpublishing a track whose publish is pending *)

(** C5, as stated, fails: [unpublishTrack] marks the record as failed
    before it takes the track out of the registry, so the listener of the
    pending publish finds the error, and with it schedules
    trackPublicationFailed, which the next turn emits. *)
Lemma unpublishTrack_pending_announces_failure :
  let s' := snd (unpublishTrack (VLocalTrack trackA) publishingA) in
  reachable publishingA
  ∧ pending publishingA 0
  ∧ timers s' = [trackPublicationFailed (ErrWasUnpublished trackA) trackA]
  ∧ emitted (tick s') =
      [trackAdded trackA; trackRemoved trackA;
       trackPublicationFailed (ErrWasUnpublished trackA) trackA].
Proof.
  split_and!.
  - exact publishingA_reachable.
  - exists 0, listenerA. exact (conj listenerA_attached eq_refl).
  - reflexivity.
  - reflexivity.
Qed.

(** C5, amended. For every track whose publish is pending, [unpublishTrack]
    returns null and leaves the pending promise rejected, once, with the
    'was unpublished' error that it passed to [publishFailed]: the listener
    takes the error branch. The track is out of the registry, trackRemoved
    is the one event emitted during the call, and a trackPublicationFailed
    notification with that error and the track is scheduled for a later
    turn. *)
Theorem unpublishTrack_rejects_pending_publish (s : State) (r : nat)
    (l : Listener) :
  reachable s →
  attached s r l →
  let t := l_track l in
  let error := ErrWasUnpublished t in
  let s' := snd (unpublishTrack (VLocalTrack t) s) in
  fst (unpublishTrack (VLocalTrack t) s) = Return None
  ∧ settlements (l_promise l) s = []
  ∧ settlements (l_promise l) s' = [Rejected error]
  ∧ ¬ pending s' (l_promise l)
  ∧ JsMap.get (tracks s') (track_id t) = None
  ∧ emitted s' = emitted s ++ [trackRemoved t]
  ∧ trackPublicationFailed error t ∈ drop (length (timers s)) (timers s').
Proof.
  intros Hq%reachable_quiescent Ha t error s'.
  destruct (unpublishTrack_pending s r l Hq Ha)
    as (Hres & _ & Hset & Hpend & Htm & Hgone & Hem).
  destruct Hq as (_ & Hprom & _).
  destruct (listener_closure s Hprom r l Ha) as (_ & _ & Hnil & _).
  done.
Qed.

Lemma unpublishTrack_rejects_pending_publish_witness :
  reachable publishingA
  ∧ attached publishingA 0 listenerA
  ∧ fst (unpublishTrack (VLocalTrack trackA) publishingA) = Return None
  ∧ settlements 0 (snd (unpublishTrack (VLocalTrack trackA) publishingA))
    = [Rejected (ErrWasUnpublished trackA)]
  ∧ trackPublicationFailed (ErrWasUnpublished trackA) trackA
    ∈ drop (length (timers publishingA))
        (timers (snd (unpublishTrack (VLocalTrack trackA) publishingA))).
Proof.
  pose proof (unpublishTrack_rejects_pending_publish publishingA 0 listenerA
                publishingA_reachable listenerA_attached)
    as (Ha & _ & Hb & _ & _ & _ & Hc).
  exact (conj publishingA_reachable
           (conj listenerA_attached (conj Ha (conj Hb Hc)))).
Defined.

(** ** Unpublishing *)

(** What [unpublishTrack] does for a registered track that the signaling
    collaborator has a record for: it returns the track's publication, or
    null if there is none; afterwards no publication of the track is left
    in the flat registry or in a registry by kind, the other publications
    are where they were, the track is out of the track registry, and
    trackRemoved was emitted once. For a valid track that is not
    registered it returns null and changes nothing. *)
Lemma unpublishTrack_registered (s : State) (track : Value) (t : LocalTrack)
    (r : nat) :
  reachable s →
  is_track_type track = true →
  (value_id track ≫= JsMap.get (tracks s)) = Some t →
  JsMap.get (signaling_tracks s) (track_id t) = Some r →
  let found := getTrackPublication (trackPublications s) (VLocalTrack t) in
  let s' := snd (unpublishTrack track s) in
  fst (unpublishTrack track s) = Return found
  ∧ JsMap.get (tracks s') (track_id t) = None
  ∧ (∀ sid p, JsMap.get (trackPublications s') sid = Some p → pub_track p ≠ t)
  ∧ (∀ k sid p, JsMap.get (publishedKindTracks k s') sid = Some p →
                pub_track p ≠ t)
  ∧ (∀ sid p, JsMap.get (trackPublications s) sid = Some p →
              Some p ≠ found →
              JsMap.get (trackPublications s') sid = Some p)
  ∧ emitted s' = emitted s ++ [trackRemoved t].
Proof.
  intros Hq%reachable_quiescent Hv Hlook Hsig found s'.
  destruct (unpublishTrack_facts s track t r Hq Hv Hlook Hsig)
    as (ts & _ & _ & _ & Hres & Hq' & Hgone & Hnone & Hkeep & Hem & _).
  fold s' found in Hres, Hq', Hgone, Hnone, Hkeep, Hem.
  split_and!; try done.
  - intros sid p Hget Heq. apply (Hnone sid p Hget). by rewrite Heq.
  - intros k sid p Hget Heq. destruct Hq' as (Hreg' & _).
    destruct (kind_in_flat s' Hreg' k sid p Hget) as [Hflat _].
    apply (Hnone sid p Hflat). by rewrite Heq.
Qed.

(** C8. [unpublishTrack] does not do what the claim says for a registered
    track that the signaling collaborator has no record for: line 529
    calls [publishFailed] on undefined, a TypeError is thrown, and the
    track stays registered. Such a state is reached by [publishTrack] on a
    participant of a disconnected room: the track is registered, and the
    promise is rejected by the guard of line 209, which [unpublishTrack]
    lacks. *)
Theorem unpublishTrack_without_record_throws :
  let s := snd (publishTrack (VLocalTrack trackA) None torn_down) in
  reachable s
  ∧ JsMap.get (tracks s) (track_id trackA) = Some trackA
  ∧ JsMap.get (signaling_tracks s) (track_id trackA) = None
  ∧ unpublishTrack (VLocalTrack trackA) s =
      (Throw (TypeError "Cannot read property 'publishFailed' of undefined"), s).
Proof.
  split_and!.
  - apply (reachable_exec torn_down (Call_publishTrack (VLocalTrack trackA) None));
      [apply reachable_new | exact I].
  - reflexivity.
  - reflexivity.
  - reflexivity.
Qed.

(** * Further properties of the participant *)

(** ** Looking a publication up *)

(** X1. [getTrackPublication] returns the first publication, in insertion
    order of the registry, whose track is the argument or wraps the
    MediaStreamTrack that is the argument, and null when there is none. A
    LocalTrack is matched by identity only, a MediaStreamTrack by the
    identity of the wrapped object only; [undefined] matches a track that
    has no MediaStreamTrack, and nothing else is ever matched. *)
Theorem getTrackPublication_first_match (m : JsMap.t Publication)
    (track : Value) :
  (∀ p, publication_of track p = true ↔
        match track with
        | VLocalTrack t => pub_track p = t
        | VMediaStreamTrack x => mediaStreamTrack (pub_track p) = Some x
        | VUndefined => mediaStreamTrack (pub_track p) = None
        | _ => False
        end)
  ∧ match getTrackPublication m track with
    | Some p =>
        ∃ before after,
          JsMap.values m = before ++ p :: after
          ∧ publication_of track p = true
          ∧ ∀ q, q ∈ before → publication_of track q = false
    | None => ∀ p, p ∈ JsMap.values m → publication_of track p = false
    end.
Proof.
  split; [apply publication_of_cases|].
  unfold getTrackPublication.
  apply (find_first (λ p, is_track p track || is_mediaStreamTrack p track)).
Qed.

(** ** Publishing several tracks *)

(** X2. Given an array, [publishTracks] never throws: it returns one
    promise, [Promise.all] of one result of [publishTrack] per element, in
    the order of the array. An element that is no track (and not
    [undefined]) yields a promise rejected with the invalid-type error at
    its position, so the joined promise is rejected whatever the signaling
    collaborator does later, and with that error unless an element before
    it was refused as well. The other elements are published all the
    same: afterwards each listed LocalTrack or MediaStreamTrack is
    registered under its identity, unless its promise was resolved at once
    with a publication that was already in the registry. In a later state
    of the participant in which every element has its publication, the
    joined promise is resolved with these publications in array order; for
    an empty array that is at once, with an empty list. No publication is
    created and nothing is scheduled by the call itself. *)
Theorem publishTracks_joins_one_promise_each (elements : list Value)
    (s : State) :
  let s' := snd (publishTracks (VArray elements) s) in
  ∃ promises,
    fst (publishTracks (VArray elements) s) = Return (Promise_all promises)
    ∧ length promises = length elements
    ∧ (∀ i track, elements !! i = Some track →
         is_track_type track = false → track ≠ VUndefined →
         promises !! i = Some (PromiseReject (INVALID_TYPE "track" track_types))
         ∧ ∃ e,
             (∀ later, Promise_all_state promises later = JRejected e)
             ∧ ((∀ j e', j < i → promises !! j ≠ Some (PromiseReject e')) →
                e = INVALID_TYPE "track" track_types))
    ∧ (∀ i track j, elements !! i = Some track →
         is_track_type track = true → value_id track = Some j →
         JsMap.has (tracks s') j = true
         ∨ ∃ p, promises !! i = Some (PromiseResolve p)
                ∧ publication_of track p = true
                ∧ p ∈ JsMap.values (trackPublications s))
    ∧ (∀ later values,
         reachable later →
         mapM (resolution later) promises = Some values →
         Promise_all_state promises later = JResolved values)
    ∧ (elements = [] → ∀ later, Promise_all_state promises later = JResolved [])
    ∧ trackPublications s' = trackPublications s
    ∧ timers s' = timers s.
Proof.
  cbv zeta.
  destruct (publishTracks_array elements s) as [-> ->].
  destruct (map_publishTrack_results elements s)
    as (rs & Hrs & Hlen & Hp & Htm & _ & Hbad & Hgood).
  rewrite Hrs. exists rs. split_and!; try done.
  - intros i track Hi Htype Hundef.
    pose proof (Hbad i track Hi Htype Hundef) as Hrej.
    split; [done|].
    destruct (rejected_at_call_at rs i _ Hrej) as (e & He & Hfirst).
    exists e. split; [|done].
    intros later. unfold Promise_all_state. by rewrite He.
  - intros later values Hreach Hall.
    apply Promise_all_resolved; [|done].
    by destruct (reachable_quiescent later Hreach) as (_ & ? & _).
  - intros -> later. destruct rs; [|done].
    unfold Promise_all_state. simpl.
    rewrite rejected_later_None; [done|].
    intros n e _. apply not_elem_of_nil.
Qed.

(** ** The first publish of a track *)

(** X3. Before the teardown, [publishTrack] of a LocalTrack whose identity
    is not registered yet returns a new pending promise: the track enters
    the Track Registry, trackAdded is emitted once, the signaling
    collaborator gets a record for the track, without identifier and
    without error, and the promise's listener is the only one on it. No
    publication exists yet and nothing is scheduled. *)
Theorem publishTrack_fresh_track (s : State) (t : LocalTrack)
    (name : option string) :
  reachable s →
  handlers s = registered_handlers →
  JsMap.has (tracks s) (track_id t) = false →
  let s' := snd (publishTrack (VLocalTrack t) name s) in
  let promise := next_promise s in
  fst (publishTrack (VLocalTrack t) name s) = Return (NewPromise promise)
  ∧ pending s' promise
  ∧ settlements promise s' = []
  ∧ JsMap.get (tracks s') (track_id t) = Some t
  ∧ emitted s' = emitted s ++ [trackAdded t]
  ∧ (∃ r,
       JsMap.get (signaling_tracks s') (track_id t) = Some r
       ∧ heap s' !! r =
           Some {| ts_id := track_id t; ts_name := track_name t;
                   ts_error := None; ts_sid := None;
                   ts_listeners :=
                     [{| l_promise := promise; l_track := t;
                         l_signaling := r |}] |})
  ∧ trackPublications s' = trackPublications s
  ∧ timers s' = timers s.
Proof.
  intros Hreach Hreg Hhas.
  pose proof (reachable_quiescent s Hreach) as Hq.
  pose proof Hq as (Hok & _).
  pose proof (publishTrack_result (VLocalTrack t) name s Hq) as Hres.
  pose proof (publishTrack_fresh_eq s t name
                (getTrackPublication_unregistered s t Hok Hhas) Hhas
                (listening_registered _ s Hreg)) as Heq.
  simpl in Heq. rewrite Heq in *. clear Heq.
  simpl in Hres. destruct Hres as (_ & Hpend & Hset).
  simpl. split_and!; try done.
  - by rewrite JsMapFacts.get_set_eq.
  - unfold emitted. simpl. by rewrite omap_app.
  - exists (length (heap s)). rewrite JsMapFacts.get_set_eq. split; [done|].
    rewrite list_lookup_alter_eq, lookup_app_r by done.
    by rewrite Nat.sub_diag.
Qed.

Lemma publishTrack_fresh_track_witness :
  let s' := snd (publishTrack (VLocalTrack trackA) None joining) in
  fst (publishTrack (VLocalTrack trackA) None joining) = Return (NewPromise 0)
  ∧ pending s' 0
  ∧ settlements 0 s' = []
  ∧ JsMap.get (tracks s') "mic-1" = Some trackA
  ∧ emitted s' = emitted joining ++ [trackAdded trackA]
  ∧ (∃ r,
       JsMap.get (signaling_tracks s') "mic-1" = Some r
       ∧ heap s' !! r =
           Some {| ts_id := "mic-1"; ts_name := "microphone";
                   ts_error := None; ts_sid := None;
                   ts_listeners :=
                     [{| l_promise := 0; l_track := trackA;
                         l_signaling := r |}] |})
  ∧ trackPublications s' = trackPublications joining
  ∧ timers s' = timers joining.
Proof.
  apply (publishTrack_fresh_track joining trackA None).
  - apply reachable_new.
  - reflexivity.
  - reflexivity.
Defined.

(** ** Publishing after the teardown *)

(** X4. Once the participant no longer listens (after the teardown, or
    when it was constructed on a disconnected channel), [publishTrack] of
    a track that is not registered and has no record is rejected with the
    'cannot be published' error, and yet the track stays in the Track
    Registry and trackAdded was emitted for it. Publishing it again is
    rejected in the same way and changes nothing; nothing is ever
    scheduled or published. *)
Theorem publishTrack_after_teardown (s : State) (t : LocalTrack)
    (name again : option string) :
  reachable s →
  handlers s = [] →
  JsMap.has (tracks s) (track_id t) = false →
  JsMap.get (signaling_tracks s) (track_id t) = None →
  let s' := snd (publishTrack (VLocalTrack t) name s) in
  fst (publishTrack (VLocalTrack t) name s) =
    Return (PromiseReject (ErrCannotBePublished t))
  ∧ JsMap.get (tracks s') (track_id t) = Some t
  ∧ emitted s' = emitted s ++ [trackAdded t]
  ∧ signaling_tracks s' = signaling_tracks s
  ∧ heap s' = heap s
  ∧ trackPublications s' = trackPublications s
  ∧ timers s' = timers s
  ∧ publishTrack (VLocalTrack t) again s' =
      (Return (PromiseReject (ErrCannotBePublished t)), s').
Proof.
  intros Hreach Hh Hhas Hrec.
  pose proof (reachable_quiescent s Hreach) as (Hok & _).
  pose proof (getTrackPublication_unregistered s t Hok Hhas) as Hnone.
  assert (Hlis : listening HLocalTrackAdded s = false).
  { unfold listening. by rewrite Hh. }
  rewrite (publishTrack_unheard_eq s t name Hnone Hhas Hlis Hrec). simpl.
  split_and!; try done.
  - by rewrite JsMapFacts.get_set_eq.
  - unfold emitted. simpl. by rewrite omap_app.
  - apply publishTrack_registered_unheard_eq; simpl; [done| |done].
    by rewrite JsMapFacts.get_set_eq.
Qed.

Lemma publishTrack_after_teardown_witness :
  let s' := snd (publishTrack (VLocalTrack trackA) None torn_down) in
  fst (publishTrack (VLocalTrack trackA) None torn_down) =
    Return (PromiseReject (ErrCannotBePublished trackA))
  ∧ JsMap.get (tracks s') "mic-1" = Some trackA
  ∧ emitted s' = emitted torn_down ++ [trackAdded trackA]
  ∧ signaling_tracks s' = signaling_tracks torn_down
  ∧ heap s' = heap torn_down
  ∧ trackPublications s' = trackPublications torn_down
  ∧ timers s' = timers torn_down
  ∧ publishTrack (VLocalTrack trackA) None s' =
      (Return (PromiseReject (ErrCannotBePublished trackA)), s').
Proof.
  apply (publishTrack_after_teardown torn_down trackA None None).
  - apply reachable_new.
  - reflexivity.
  - reflexivity.
  - reflexivity.
Defined.

(** ** Before the teardown *)

(** X5. Until the teardown, the Track Registry and the signaling
    collaborator agree at every point between two operations: an identity
    is in the Track Registry exactly when the collaborator holds a record
    under it, and the record of a registered track carries the track's
    identity. *)
Theorem tracks_submitted_until_teardown (s : State) :
  reachable s →
  handlers s = registered_handlers →
  (∀ i, JsMap.has (tracks s) i = JsMap.has (signaling_tracks s) i)
  ∧ ∀ i t, JsMap.get (tracks s) i = Some t →
      track_id t = i
      ∧ ∃ r ts, JsMap.get (signaling_tracks s) i = Some r
                ∧ heap s !! r = Some ts ∧ ts_id ts = i.
Proof.
  intros Hreach Hreg.
  pose proof (reachable_quiescent s Hreach) as (Hok & _).
  pose proof (reachable_submitted s Hreach Hreg) as Hp.
  split; [apply Hp|].
  intros i t Hget.
  destruct (paired_record s i t Hok Hp Hget) as (r & ts & Hr & Hts & Hid).
  destruct Hp as [Hkeyed _]. rewrite (Hkeyed _ _ Hget) in *.
  split; [done|]. by exists r, ts.
Qed.

Lemma tracks_submitted_until_teardown_witness :
  (∀ i, JsMap.has (tracks publishedA) i
        = JsMap.has (signaling_tracks publishedA) i)
  ∧ ∀ i t, JsMap.get (tracks publishedA) i = Some t →
      track_id t = i
      ∧ ∃ r ts, JsMap.get (signaling_tracks publishedA) i = Some r
                ∧ heap publishedA !! r = Some ts ∧ ts_id ts = i.
Proof.
  apply (tracks_submitted_until_teardown publishedA).
  - apply publishedA_reachable.
  - reflexivity.
Defined.

(** X6. Until the teardown, the handlers of trackDisabled and trackEnabled
    find the record of every registered track: they call [disable()] or
    [enable()] on the record that carries the track's identity and never
    on [undefined]. *)
Theorem enable_disable_find_record (s : State) (t : LocalTrack) :
  reachable s →
  handlers s = registered_handlers →
  JsMap.get (tracks s) (track_id t) = Some t →
  ∃ r ts,
    localTrackDisabled t s = (Return r, s)
    ∧ localTrackEnabled t s = (Return r, s)
    ∧ heap s !! r = Some ts
    ∧ ts_id ts = track_id t.
Proof.
  intros Hreach Hreg Hget.
  pose proof (reachable_quiescent s Hreach) as (Hok & _).
  pose proof (reachable_submitted s Hreach Hreg) as Hp.
  destruct (paired_record s _ t Hok Hp Hget) as (r & ts & Hr & Hts & Hid).
  exists r, ts. unfold localTrackDisabled, localTrackEnabled.
  by rewrite Hr.
Qed.

Lemma enable_disable_find_record_witness :
  ∃ r ts,
    localTrackDisabled trackA publishedA = (Return r, publishedA)
    ∧ localTrackEnabled trackA publishedA = (Return r, publishedA)
    ∧ heap publishedA !! r = Some ts
    ∧ ts_id ts = track_id trackA.
Proof.
  apply (enable_disable_find_record publishedA trackA).
  - apply publishedA_reachable.
  - reflexivity.
  - reflexivity.
Defined.

(** X7. Until the teardown, [publishTrack] never refuses an accepted track:
    given a LocalTrack or a MediaStreamTrack it returns a new pending
    promise, or a publication that is already in the registry (as a
    resolved promise or, from line 202, as it is); it never returns a
    rejected promise and never throws. *)
Theorem publishTrack_accepted_until_teardown (s : State) (track : Value)
    (name : option string) :
  reachable s →
  handlers s = registered_handlers →
  is_track_type track = true →
  let s' := snd (publishTrack track name s) in
  (fst (publishTrack track name s) = Return (NewPromise (next_promise s))
   ∧ pending s' (next_promise s)
   ∧ settlements (next_promise s) s' = [])
  ∨ ∃ p, p ∈ JsMap.values (trackPublications s)
         ∧ (fst (publishTrack track name s) = Return (PromiseResolve p)
            ∨ fst (publishTrack track name s) = Return (ThePublication p)).
Proof.
  intros Hreach Hreg Htype.
  pose proof (reachable_quiescent s Hreach) as Hq.
  pose proof (reachable_submitted s Hreach) as Hsub.
  pose proof (publishTrack_result track name s Hq) as Hres.
  pose proof (λ e, publishTrack_listening track name s e Hsub Hreg Htype)
    as Hnot.
  destruct (fst (publishTrack track name s)) as [[p|p|e|n]|e]; simpl in *.
  - right. exists p. auto.
  - right. exists p. auto.
  - by destruct (Hnot e).
  - left. by destruct Hres as (-> & ? & ?).
  - done.
Qed.

Lemma publishTrack_accepted_until_teardown_witness :
  let s' := snd (publishTrack (VMediaStreamTrack microphone) None joining) in
  (fst (publishTrack (VMediaStreamTrack microphone) None joining)
     = Return (NewPromise (next_promise joining))
   ∧ pending s' (next_promise joining)
   ∧ settlements (next_promise joining) s' = [])
  ∨ ∃ p, p ∈ JsMap.values (trackPublications joining)
         ∧ (fst (publishTrack (VMediaStreamTrack microphone) None joining)
              = Return (PromiseResolve p)
            ∨ fst (publishTrack (VMediaStreamTrack microphone) None joining)
              = Return (ThePublication p)).
Proof.
  apply (publishTrack_accepted_until_teardown joining
           (VMediaStreamTrack microphone) None).
  - apply reachable_new.
  - reflexivity.
  - reflexivity.
Defined.

(** X8. Until the teardown, [unpublishTrack] never throws for an accepted
    track. It returns the publication of the track registered under the
    argument's identity, or null when that identity is not registered or
    nothing is published for it; afterwards the identity is neither in
    the Track Registry nor known to the signaling collaborator, and the
    participant still listens. *)
Theorem unpublishTrack_until_teardown (s : State) (track : Value) :
  reachable s →
  handlers s = registered_handlers →
  is_track_type track = true →
  let s' := snd (unpublishTrack track s) in
  fst (unpublishTrack track s) =
    Return (tracks_get track s
            ≫= λ t, getTrackPublication (trackPublications s) (VLocalTrack t))
  ∧ tracks_get track s' = None
  ∧ (∀ i, value_id track = Some i →
          JsMap.has (signaling_tracks s') i = false)
  ∧ handlers s' = registered_handlers.
Proof.
  intros Hreach Hreg Htype s'.
  pose proof (reachable_quiescent s Hreach) as Hq.
  pose proof Hq as (Hok & _).
  pose proof (reachable_submitted s Hreach) as Hsub.
  assert (Hreach' : reachable s').
  { by apply (reachable_exec s (Call_unpublishTrack track)). }
  assert (Hreg' : handlers s' = registered_handlers).
  { destruct (stable_unpublishTrack track s) as (_ & Hh & _).
    unfold s'. by rewrite Hh. }
  pose proof (reachable_submitted s' Hreach' Hreg') as [_ Hpair'].
  assert (Hgone : fst (unpublishTrack track s) =
            Return (tracks_get track s
                    ≫= λ t, getTrackPublication (trackPublications s)
                              (VLocalTrack t))
          ∧ tracks_get track s' = None).
  { unfold tracks_get, s'.
    destruct (value_id track ≫= JsMap.get (tracks s)) as [t|] eqn:Hlook.
    - destruct (value_id track) as [i|] eqn:Hid; [|done]. simpl in Hlook.
      destruct (paired_record s i t Hok (Hsub Hreg) Hlook)
        as (r & ts & Hr & _ & _).
      destruct (unpublishTrack_facts s track t r Hq Htype) as
        (ts' & _ & _ & _ & Hres & _ & Hnone & _); [by rewrite Hid|done|].
      rewrite Hres. split; [done|]. simpl.
      by rewrite <- (tracks_keyed s Hok _ _ Hlook).
    - rewrite unpublishTrack_unregistered by done. by simpl. }
  destruct Hgone as [Hres Hgone]. split_and!; [done|done| |done].
  intros i Hi. rewrite <- Hpair'. unfold tracks_get in Hgone.
  rewrite Hi in Hgone. simpl in Hgone. unfold JsMap.has. by rewrite Hgone.
Qed.

Lemma unpublishTrack_until_teardown_witness :
  let s' := snd (unpublishTrack (VMediaStreamTrack microphone) publishedA) in
  fst (unpublishTrack (VMediaStreamTrack microphone) publishedA) =
    Return (tracks_get (VMediaStreamTrack microphone) publishedA
            ≫= λ t, getTrackPublication (trackPublications publishedA)
                      (VLocalTrack t))
  ∧ tracks_get (VMediaStreamTrack microphone) s' = None
  ∧ (∀ i, value_id (VMediaStreamTrack microphone) = Some i →
          JsMap.has (signaling_tracks s') i = false)
  ∧ handlers s' = registered_handlers.
Proof.
  apply (unpublishTrack_until_teardown publishedA
           (VMediaStreamTrack microphone)).
  - apply publishedA_reachable.
  - reflexivity.
  - reflexivity.
Defined.

(** X9. A second [unpublishTrack] is a no-op: whenever [unpublishTrack]
    returns, calling it again with the same argument returns null and
    changes nothing. *)
Theorem unpublishTrack_twice (s : State) (track : Value)
    (found : option Publication) :
  reachable s →
  fst (unpublishTrack track s) = Return found →
  let s' := snd (unpublishTrack track s) in
  unpublishTrack track s' = (Return None, s').
Proof.
  intros Hreach Hret s'.
  pose proof (reachable_quiescent s Hreach) as Hq.
  destruct (is_track_type track) eqn:Htype.
  2:{ by rewrite unpublishTrack_invalid in Hret. }
  destruct (value_id track ≫= JsMap.get (tracks s)) as [t|] eqn:Hlook.
  2:{ unfold s'. rewrite (unpublishTrack_unregistered track s) by done. simpl.
      by apply unpublishTrack_unregistered. }
  destruct (JsMap.get (signaling_tracks s) (track_id t)) as [r|] eqn:Hrec.
  2:{ by rewrite (unpublishTrack_no_record track s t Htype Hlook Hrec) in Hret. }
  destruct (tracks_unpublishTrack s track t r Hq Htype Hlook Hrec)
    as [Hid Hgone].
  apply unpublishTrack_unregistered; [done|].
  rewrite Hid. simpl. exact Hgone.
Qed.

Lemma unpublishTrack_twice_witness :
  let s' := snd (unpublishTrack (VLocalTrack trackA) publishedA) in
  unpublishTrack (VLocalTrack trackA) s' = (Return None, s').
Proof.
  apply (unpublishTrack_twice publishedA (VLocalTrack trackA)
           (Some {| pub_track := trackA; trackSid := "TR123" |})).
  - apply publishedA_reachable.
  - reflexivity.
Defined.

(** ** Unpublishing several tracks *)

(** X10. [unpublishTracks] is not atomic: when an element of the array is
    no accepted track, the invalid-type error is thrown only when the
    loop reaches it, and the tracks listed before it have been
    unpublished by then; the elements after it are not looked at. *)
Theorem unpublishTracks_stops_at_invalid (s : State)
    (before after : list Value) (bad : Value)
    (unpublished : list Publication) :
  is_track_type bad = false →
  fst (unpublishTracks (VArray before) s) = Return unpublished →
  unpublishTracks (VArray (before ++ bad :: after)) s =
    (Throw (INVALID_TYPE "track" track_types),
     snd (unpublishTracks (VArray before) s)).
Proof.
  intros Hbad Hret. simpl in *. by eapply reduce_unpublishTrack_stops_at.
Qed.

Lemma unpublishTracks_stops_at_invalid_witness :
  unpublishTracks (VArray ([VLocalTrack trackA] ++ VOther 0 :: [])) publishedA =
    (Throw (INVALID_TYPE "track" track_types),
     snd (unpublishTracks (VArray [VLocalTrack trackA]) publishedA))
  ∧ JsMap.has (tracks publishedA) "mic-1" = true
  ∧ JsMap.has
      (tracks (snd (unpublishTracks
                      (VArray ([VLocalTrack trackA] ++ VOther 0 :: []))
                      publishedA)))
      "mic-1" = false.
Proof.
  split; [|split; reflexivity].
  apply (unpublishTracks_stops_at_invalid publishedA [VLocalTrack trackA] []
           (VOther 0) [{| pub_track := trackA; trackSid := "TR123" |}]).
  - reflexivity.
  - reflexivity.
Defined.

(** X11. Until the teardown, [unpublishTracks] of an array of accepted
    tracks never throws. It returns exactly the publications whose track
    has a listed identity; afterwards none of the listed identities is in
    the Track Registry, every other track is where it was, the returned
    publications are out of the publication registry and every other
    publication is where it was. *)
Theorem unpublishTracks_until_teardown (s : State) (elements : list Value) :
  reachable s →
  handlers s = registered_handlers →
  Forall (λ track, is_track_type track = true) elements →
  let s' := snd (unpublishTracks (VArray elements) s) in
  let listed := omap value_id elements in
  ∃ unpublished,
    fst (unpublishTracks (VArray elements) s) = Return unpublished
    ∧ (∀ p, p ∈ unpublished
            ↔ ∃ sid, JsMap.get (trackPublications s) sid = Some p
                     ∧ track_id (pub_track p) ∈ listed)
    ∧ (∀ i, JsMap.get (tracks s') i =
            if bool_decide (i ∈ listed) then None else JsMap.get (tracks s) i)
    ∧ (∀ sid p, JsMap.get (trackPublications s') sid = Some p
                ↔ JsMap.get (trackPublications s) sid = Some p
                  ∧ p ∉ unpublished).
Proof.
  intros Hreach Hreg Hall. simpl.
  destruct (reduce_unpublishTrack_listening elements s [] Hreach Hreg Hall)
    as (pubs & Hret & _ & _ & Ht & Hp & Hpubs).
  exists pubs. by split_and!.
Qed.

Lemma unpublishTracks_until_teardown_witness :
  let elements := [VLocalTrack trackA; VLocalTrack trackB] in
  let s' := snd (unpublishTracks (VArray elements) publishedA) in
  let listed := omap value_id elements in
  ∃ unpublished,
    fst (unpublishTracks (VArray elements) publishedA) = Return unpublished
    ∧ (∀ p, p ∈ unpublished
            ↔ ∃ sid, JsMap.get (trackPublications publishedA) sid = Some p
                     ∧ track_id (pub_track p) ∈ listed)
    ∧ (∀ i, JsMap.get (tracks s') i =
            if bool_decide (i ∈ listed) then None
            else JsMap.get (tracks publishedA) i)
    ∧ (∀ sid p, JsMap.get (trackPublications s') sid = Some p
                ↔ JsMap.get (trackPublications publishedA) sid = Some p
                  ∧ p ∉ unpublished).
Proof.
  apply (unpublishTracks_until_teardown publishedA
           [VLocalTrack trackA; VLocalTrack trackB]).
  - apply publishedA_reachable.
  - reflexivity.
  - repeat constructor.
Defined.

(** ** Who stops tracks *)

(** X12. Only the teardown and the two deprecated removals stop tracks or
    take listeners of the participant off: every other operation
    (publishing, unpublishing, a report of the signaling collaborator, a
    later turn of the event loop, and a state change to anything but
    'disconnected') calls [stop()] on no track and removes no listener. *)
Theorem only_teardown_and_removals_stop (op : Op) (s : State) :
  plain op ∨ (∃ state, op = Signaling_state state ∧ state ≠ "disconnected") →
  stopped (exec op s) = stopped s
  ∧ removals (exec op s) = removals s
  ∧ handlers (exec op s) = handlers s.
Proof.
  intros [Hop|(state & -> & Hstate)].
  - destruct (calm_observed s (exec op s) (calm_exec op s Hop)) as [? ?].
    split_and!; [done|done|].
    apply stable_exec. intros state ->. done.
  - simpl. unfold signaling_setState, stateChanged.
    rewrite decide_False by done. by destruct (listening _ _).
Qed.

Lemma only_teardown_and_removals_stop_witness :
  let op := Call_unpublishTrack (VLocalTrack trackA) in
  stopped (exec op acquired) = stopped acquired
  ∧ removals (exec op acquired) = removals acquired
  ∧ handlers (exec op acquired) = handlers acquired.
Proof.
  apply (only_teardown_and_removals_stop
           (Call_unpublishTrack (VLocalTrack trackA)) acquired).
  left. exact I.
Defined.

(** X13. [removeTracks] stops exactly the tracks it returns, in that
    order, unless [stop] is [false]; [stop] defaults to [true] when it is
    no boolean. The tracks returned are those of the publications that
    [unpublishTracks] returns, and when [unpublishTracks] throws, so does
    [removeTracks], and no track is stopped. *)
Theorem removeTracks_stops_what_it_returns (s : State) (tracks : Value)
    (stop : option bool) :
  let s' := snd (removeTracks tracks stop s) in
  match fst (unpublishTracks tracks s) with
  | Return publications =>
      fst (removeTracks tracks stop s) = Return (map pub_track publications)
      ∧ stopped s' =
          stopped s
          ++ (if default true stop then map pub_track publications else [])
  | Throw e =>
      removeTracks tracks stop s = (Throw e, snd (unpublishTracks tracks s))
      ∧ stopped s' = stopped s
  end.
Proof.
  simpl. unfold removeTracks, bind, modify.
  destruct (calm_observed s _ (calm_unpublishTracks tracks s)) as [Hst _].
  destruct (unpublishTracks tracks s) as [[pubs|e] s1]; simpl in *.
  - split; [done|]. by rewrite stopped_fold_stop, Hst.
  - done.
Qed.

(** X14. [removeTrack] of a track whose publish is still pending takes the
    track out of the Track Registry, with one trackRemoved, and rejects
    the pending promise, but it returns null and does not stop the track,
    whatever [stop] says: only a track that has a publication is returned
    and stopped. *)
Theorem removeTrack_pending_not_stopped (s : State) (r : nat) (l : Listener)
    (stop : option bool) :
  reachable s →
  attached s r l →
  let t := l_track l in
  let s' := snd (removeTrack (VLocalTrack t) stop s) in
  fst (removeTrack (VLocalTrack t) stop s) = Return None
  ∧ stopped s' = stopped s
  ∧ JsMap.get (tracks s) (track_id t) = Some t
  ∧ JsMap.get (tracks s') (track_id t) = None
  ∧ emitted s' = emitted s ++ [trackRemoved t]
  ∧ settlements (l_promise l) s' = [Rejected (ErrWasUnpublished t)].
Proof.
  intros Hreach Hatt. cbv zeta.
  pose proof (reachable_quiescent s Hreach) as Hq.
  destruct (unpublishTrack_pending s r l Hq Hatt)
    as (Hres & _ & Hset & _ & _ & Hgone & Hem).
  destruct Hq as (_ & _ & Hsettled).
  destruct (Hsettled r l Hatt) as (_ & Hreg & _).
  destruct (calm_observed s _ (calm_unpublishTrack (VLocalTrack (l_track l)) s))
    as [Hst _].
  rewrite removeTrack_unfold.
  destruct (unpublishTrack (VLocalTrack (l_track l)) s) as [c s1].
  simpl in *. subst c. simpl. by split_and!.
Qed.

Lemma removeTrack_pending_not_stopped_witness :
  let s' := snd (removeTrack (VLocalTrack trackA) (Some true) publishingA) in
  fst (removeTrack (VLocalTrack trackA) (Some true) publishingA) = Return None
  ∧ stopped s' = stopped publishingA
  ∧ JsMap.get (tracks publishingA) (track_id trackA) = Some trackA
  ∧ JsMap.get (tracks s') (track_id trackA) = None
  ∧ emitted s' = emitted publishingA ++ [trackRemoved trackA]
  ∧ settlements 0 s' = [Rejected (ErrWasUnpublished trackA)].
Proof.
  apply (removeTrack_pending_not_stopped publishingA 0 listenerA (Some true)).
  - apply publishingA_reachable.
  - apply listenerA_attached.
Defined.

(** X15. Until the teardown, [removeTrack] of a published track returns
    the track, takes it out of the Track Registry and its publication out
    of the publication registry, and stops the track exactly when [stop]
    is not [false]. *)
Theorem removeTrack_published (s : State) (sid : string) (p : Publication)
    (stop : option bool) :
  reachable s →
  handlers s = registered_handlers →
  JsMap.get (trackPublications s) sid = Some p →
  let t := pub_track p in
  let s' := snd (removeTrack (VLocalTrack t) stop s) in
  fst (removeTrack (VLocalTrack t) stop s) = Return (Some t)
  ∧ stopped s' = stopped s ++ (if default true stop then [t] else [])
  ∧ JsMap.get (tracks s') (track_id t) = None
  ∧ JsMap.get (trackPublications s') sid = None.
Proof.
  intros Hreach Hreg Hp. cbv zeta.
  pose proof (reachable_quiescent s Hreach) as Hq.
  pose proof Hq as (Hok & _).
  pose proof (reachable_submitted s Hreach Hreg) as Hpair.
  destruct (publication_registered s Hok sid p Hp) as (Hsid & Ht & _).
  destruct (paired_record s _ _ Hok Hpair Ht) as (r & ts & Hr & _ & _).
  destruct (unpublishTrack_registries s (VLocalTrack (pub_track p))
              (pub_track p) r Hq eq_refl) as (Hres & Ht1 & Hp1 & _);
    [done|done|].
  assert (Hfound : getTrackPublication (trackPublications s)
                     (VLocalTrack (pub_track p)) = Some p).
  { apply getTrackPublication_registered; [done|done|]. by exists sid. }
  rewrite Hfound in *.
  destruct (calm_observed s _
              (calm_unpublishTrack (VLocalTrack (pub_track p)) s)) as [Hst _].
  rewrite removeTrack_unfold.
  destruct (unpublishTrack (VLocalTrack (pub_track p)) s) as [c s1].
  simpl in *. subst c. simpl.
  assert (Hfields : JsMap.get (tracks s1) (track_id (pub_track p)) = None
                    ∧ JsMap.get (trackPublications s1) sid = None).
  { rewrite Ht1, Hp1, Hsid. by rewrite !JsMapFacts.get_delete_eq. }
  destruct Hfields as [Hf1 Hf2].
  destruct (default true stop); simpl.
  - unfold track_stop. rewrite stopped_log, Hst. by split_and!.
  - rewrite Hst, app_nil_r. by split_and!.
Qed.

Lemma removeTrack_published_witness :
  let s' := snd (removeTrack (VLocalTrack trackA) None publishedA) in
  fst (removeTrack (VLocalTrack trackA) None publishedA) = Return (Some trackA)
  ∧ stopped s' = stopped publishedA ++ [trackA]
  ∧ JsMap.get (tracks s') (track_id trackA) = None
  ∧ JsMap.get (trackPublications s') "TR123" = None.
Proof.
  apply (removeTrack_published publishedA "TR123"
           {| pub_track := trackA; trackSid := "TR123" |} None).
  - apply publishedA_reachable.
  - reflexivity.
  - reflexivity.
Defined.

(** ** The teardown happens once *)

(** X16. The participant takes its listeners off at most once, all five
    in one go: at every point between two operations it either still has
    its five listeners and has removed none, or it has no listener left
    and has removed each of the five exactly once (or never had any,
    when it was constructed on a disconnected channel). Signalling
    'disconnected' again therefore does nothing. *)
Theorem teardown_at_most_once (s : State) :
  reachable s →
  (handlers s = registered_handlers ∧ removals s = [])
  ∨ (handlers s = []
     ∧ (removals s = []
        ∨ removals s =
            [HStateChanged; HLocalTrackAdded; HLocalTrackDisabled;
             HLocalTrackEnabled; HLocalTrackRemoved])).
Proof.
  induction 1 as [state localTracks should|s op Hreach IH Hperm].
  - destruct (calm_observed _ _ (calm_LocalParticipant state localTracks should))
      as [_ Hrem].
    change (removals (blank _ _)) with (@nil Handler) in Hrem.
    rewrite handlers_LocalParticipant, Hrem.
    case_decide; [right|left]; auto.
  - assert (Hcase : (∃ state, op = Signaling_state state)
                    ∨ ∀ state, op ≠ Signaling_state state).
    { destruct op; first [by right | left; by eexists]. }
    destruct Hcase as [[state ->]|Hop].
    + simpl. unfold signaling_setState.
      destruct (listening HStateChanged _) eqn:Hlis; [|exact IH].
      destruct (decide (state = "disconnected")) as [->|Hstate].
      * destruct (stateChanged_disconnected
                    (with_signaling_state "disconnected" s))
          as (Htrace & Hh & _).
        right. split.
        { rewrite Hh. simpl. destruct IH as [[-> _]|[-> _]]; done. }
        destruct IH as [[Hreg Hrem]|[Hnil _]].
        2:{ unfold listening in Hlis. simpl in Hlis. by rewrite Hnil in Hlis. }
        right. unfold removals in *. rewrite Htrace. simpl in *.
        rewrite !omap_app, Hrem. simpl.
        rewrite (omap_all_None _ (map Stop _)); [done|].
        intros e (t & -> & _)%list_elem_of_fmap. done.
      * unfold stateChanged. rewrite decide_False by done. exact IH.
    + rewrite (handlers_exec op s Hop), (removals_unchanged_by_removals op s Hop).
      exact IH.
Qed.

Lemma teardown_at_most_once_witness :
  let s := exec (Signaling_state "disconnected")
             (exec (Signaling_state "disconnected") acquired) in
  (handlers s = registered_handlers ∧ removals s = [])
  ∨ (handlers s = []
     ∧ (removals s = []
        ∨ removals s =
            [HStateChanged; HLocalTrackAdded; HLocalTrackDisabled;
             HLocalTrackEnabled; HLocalTrackRemoved])).
Proof.
  apply (teardown_at_most_once
           (exec (Signaling_state "disconnected")
              (exec (Signaling_state "disconnected") acquired))).
  apply reachable_exec; [|exact I].
  apply reachable_exec; [|exact I].
  apply reachable_new.
Defined.

(** ** A failure report reaches every pending publish *)

(** X17. When the signaling collaborator reports a failure on a record,
    every publish that is pending on it is rejected with that error, once,
    and is pending no more; the track leaves the Track Registry with a
    single trackRemoved, however many publishes were pending; one
    trackPublicationFailed notification per pending publish is queued
    for a later turn, in the order of the publishes; and the publication
    registry is untouched. A record without pending publish changes
    nothing but its error. *)
Theorem publishFailed_rejects_all_pending (s : State) (r : nat)
    (ts : TrackSignaling) (error : Error) :
  reachable s →
  heap s !! r = Some ts →
  let s' := exec (Signaling_publishFailed r error) s in
  let ls := ts_listeners ts in
  (∀ l, l ∈ ls →
        settlements (l_promise l) s' = [Rejected error]
        ∧ ¬ pending s' (l_promise l))
  ∧ timers s' =
      timers s ++ map (λ l, trackPublicationFailed error (l_track l)) ls
  ∧ emitted s' =
      emitted s ++ match ls, JsMap.get (tracks s) (ts_id ts) with
                   | _ :: _, Some t => [trackRemoved t]
                   | _, _ => []
                   end
  ∧ tracks s' =
      match ls with
      | [] => tracks s
      | _ => JsMap.delete (tracks s) (ts_id ts)
      end
  ∧ trackPublications s' = trackPublications s.
Proof.
  intros Hreach Hts. cbv zeta. simpl.
  pose proof (reachable_quiescent s Hreach) as Hq.
  destruct (publishFailed_facts r error s ts Hq Hts)
    as (Hq' & _ & Hp & _ & Ht & _ & Htm & Hset & Hem).
  split_and!; try done.
  intros l Hl.
  destruct Hq as (_ & Hprom & _).
  assert (Hatt : attached s r l) by by exists ts.
  destruct (listener_closure s Hprom r l Hatt) as (_ & _ & Hnone & _).
  assert (Hone : settlements (l_promise l) (publishFailed r error s)
                 = [Rejected error]).
  { rewrite Hset, Hnone. simpl.
    apply (omap_settled_once l_promise); [|done].
    apply (listener_unique s Hprom r ts Hts). }
  split; [done|].
  intros (r' & l' & Hatt' & Heq).
  destruct Hq' as (_ & Hprom' & _).
  destruct (listener_closure _ Hprom' r' l' Hatt') as (_ & _ & Hnone' & _).
  rewrite Heq, Hone in Hnone'. done.
Qed.

Lemma publishFailed_rejects_all_pending_witness :
  let error := SignalingError 53304%N in
  let s' := exec (Signaling_publishFailed 0 error) publishingA in
  (∀ l, l ∈ [listenerA] →
        settlements (l_promise l) s' = [Rejected error]
        ∧ ¬ pending s' (l_promise l))
  ∧ timers s' =
      timers publishingA
      ++ map (λ l, trackPublicationFailed error (l_track l)) [listenerA]
  ∧ emitted s' = emitted publishingA ++ [trackRemoved trackA]
  ∧ tracks s' = JsMap.delete (tracks publishingA) "mic-1"
  ∧ trackPublications s' = trackPublications publishingA.
Proof.
  apply (publishFailed_rejects_all_pending publishingA 0
           {| ts_id := "mic-1"; ts_name := "microphone"; ts_error := None;
              ts_sid := None; ts_listeners := [listenerA] |}
           (SignalingError 53304%N)).
  - apply publishingA_reachable.
  - reflexivity.
Defined.

(** ** An identifier reaches every pending publish *)

(** X18. When the signaling collaborator assigns an identifier to a record
    without error, every publish that is pending on it is resolved, once,
    with one and the same Publication, that of the registered track under
    the new identifier, and is pending no more. Exactly one Publication is
    created, however many publishes were pending: it is entered into the
    flat registry and into the registry of the track's kind under the
    identifier, and all other entries stay. Nothing is emitted during the
    dispatch; when the channel is connected, one trackPublished
    notification per resolved promise is queued for a later turn, and
    none otherwise. *)
Theorem setSid_resolves_all_pending (s : State) (r : nat) (ts : TrackSignaling)
    (sid : string) (l0 : Listener) (ls' : list Listener) :
  reachable s →
  permitted (Signaling_sid r sid) s →
  heap s !! r = Some ts →
  ts_error ts = None →
  sid ≠ "" →
  ts_listeners ts = l0 :: ls' →
  let s' := exec (Signaling_sid r sid) s in
  let t := l_track l0 in
  let p := {| pub_track := t; trackSid := sid |} in
  (∀ l, l ∈ ts_listeners ts →
        l_track l = t
        ∧ settlements (l_promise l) s' = [Resolved p]
        ∧ ¬ pending s' (l_promise l))
  ∧ JsMap.get (tracks s) (track_id t) = Some t
  ∧ JsMap.get (trackPublications s') sid = Some p
  ∧ JsMap.get (publishedKindTracks (track_kind t) s') sid = Some p
  ∧ (∀ sid', sid' ≠ sid →
       JsMap.get (trackPublications s') sid'
       = JsMap.get (trackPublications s) sid')
  ∧ timers s' =
      timers s ++ (if decide (signaling_state s = "connected")
                   then map (λ _, trackPublished p) (ts_listeners ts)
                   else [])
  ∧ emitted s' = emitted s
  ∧ tracks s' = tracks s.
Proof.
  intros Hreach Hperm Hts Herr Hsid Hls. cbv zeta.
  pose proof (reachable_quiescent s Hreach) as Hq.
  assert (Hreach' : reachable (exec (Signaling_sid r sid) s))
    by by apply reachable_exec.
  pose proof (reachable_quiescent _ Hreach') as (_ & Hprom' & _).
  simpl in *.
  destruct (setSid_facts s r ts sid Hq Hperm Hts Herr Hsid l0 ls' Hls)
    as (Hsame & Hreg & Ht & _ & Hp & Hfresh & Hk & Htm & Htr & _).
  pose proof Hq as (Hok & Hprom & _).
  assert (Hid : ts_id ts = track_id (l_track l0)).
  { assert (Hatt : attached s r l0).
    { exists ts. split; [done|]. rewrite Hls. apply elem_of_cons. by left. }
    destruct (listener_closure s Hprom r l0 Hatt) as (_ & _ & _ & ts' & Hts' & Hid).
    rewrite Hts in Hts'. by simplify_eq. }
  split_and!.
  - intros l Hl.
    assert (Hatt : attached s r l) by by exists ts.
    destruct (listener_closure s Hprom r l Hatt) as (_ & _ & Hnone & _).
    assert (Hone : settlements (l_promise l) (setSid r sid s)
                   = [Resolved (asLocalTrackPublication (l_track l0) sid)]).
    { rewrite (settlements_resolves s _ _ _ _ Htr), Hnone. simpl.
      apply (omap_settled_once l_promise); [|done].
      apply (listener_unique s Hprom r ts Hts). }
    split_and!; [by apply Hsame | done |].
    intros (r' & l' & Hatt' & Heq).
    destruct (listener_closure _ Hprom' r' l' Hatt') as (_ & _ & Hnone' & _).
    rewrite Heq, Hone in Hnone'. done.
  - by rewrite <- Hid.
  - rewrite Hp. apply JsMapFacts.get_set_eq.
  - rewrite Hk, decide_True by done. apply JsMapFacts.get_set_eq.
  - intros sid' Hne. rewrite Hp. by apply JsMapFacts.get_set_ne.
  - done.
  - by apply (emitted_resolves s _ _ _ Htr).
  - done.
Qed.

Lemma publishingTwice_reachable : reachable publishingTwice.
Proof.
  apply (reachable_exec
           (exec (Call_publishTrack (VLocalTrack trackA) None)
              (LocalParticipant "connected" [] false))
           (Call_publishTrack (VLocalTrack trackA) None)); [|exact I].
  apply (reachable_exec (LocalParticipant "connected" [] false)
           (Call_publishTrack (VLocalTrack trackA) None)); [|exact I].
  apply reachable_new.
Defined.

Lemma setSid_resolves_all_pending_witness :
  let s := publishingTwice in
  let ts := {| ts_id := "mic-1"; ts_name := "microphone"; ts_error := None;
               ts_sid := None; ts_listeners := [listenerA; listenerA1] |} in
  let s' := exec (Signaling_sid 0 "TR123") s in
  let t := l_track listenerA in
  let p := {| pub_track := t; trackSid := "TR123" |} in
  (∀ l, l ∈ ts_listeners ts →
        l_track l = t
        ∧ settlements (l_promise l) s' = [Resolved p]
        ∧ ¬ pending s' (l_promise l))
  ∧ JsMap.get (tracks s) (track_id t) = Some t
  ∧ JsMap.get (trackPublications s') "TR123" = Some p
  ∧ JsMap.get (publishedKindTracks (track_kind t) s') "TR123" = Some p
  ∧ (∀ sid', sid' ≠ "TR123" →
       JsMap.get (trackPublications s') sid'
       = JsMap.get (trackPublications s) sid')
  ∧ timers s' =
      timers s ++ (if decide (signaling_state s = "connected")
                   then map (λ _, trackPublished p) (ts_listeners ts)
                   else [])
  ∧ emitted s' = emitted s
  ∧ tracks s' = tracks s.
Proof.
  apply (setSid_resolves_all_pending publishingTwice 0
           {| ts_id := "mic-1"; ts_name := "microphone"; ts_error := None;
              ts_sid := None; ts_listeners := [listenerA; listenerA1] |}
           "TR123" listenerA [listenerA1]).
  - apply publishingTwice_reachable.
  - split.
    + exists {| ts_id := "mic-1"; ts_name := "microphone"; ts_error := None;
                ts_sid := None; ts_listeners := [listenerA; listenerA1] |}.
      split; vm_compute; reflexivity.
    + intros [|[|r']] ts' Hts'; vm_compute in Hts'; [|discriminate..].
      injection Hts' as <-. discriminate.
  - vm_compute. reflexivity.
  - reflexivity.
  - discriminate.
  - reflexivity.
Defined.

(** ** Publishing, then unpublishing *)

(** X19. Publishing a track, having it acknowledged and unpublishing it
    again leaves the registries as they were. Until the teardown, for a
    track that is not registered and an identifier that no record carries:
    after [publishTrack], the assignment of the identifier and
    [unpublishTrack], the Track Registry, the publication registries and
    the collaborator's lookup are what they were before; [unpublishTrack]
    returns the publication the promise was resolved with; trackAdded and
    trackRemoved were emitted, once each. A trackPublished notification
    queued while the channel was connected is still in the queue: it will
    be delivered for a track that is no longer published. *)
Theorem publish_acknowledge_unpublish (s : State) (t : LocalTrack)
    (name : option string) (sid : string) :
  reachable s →
  handlers s = registered_handlers →
  JsMap.has (tracks s) (track_id t) = false →
  sid ≠ "" →
  (∀ r ts, heap s !! r = Some ts → ts_sid ts ≠ Some sid) →
  let p := {| pub_track := t; trackSid := sid |} in
  let s1 := exec (Call_publishTrack (VLocalTrack t) name) s in
  let s2 := exec (Signaling_sid (length (heap s)) sid) s1 in
  let s3 := exec (Call_unpublishTrack (VLocalTrack t)) s2 in
  fst (unpublishTrack (VLocalTrack t) s2) = Return (Some p)
  ∧ settlements (next_promise s) s3 = [Resolved p]
  ∧ tracks s3 = tracks s
  ∧ trackPublications s3 = trackPublications s
  ∧ (∀ k, publishedKindTracks k s3 = publishedKindTracks k s)
  ∧ signaling_tracks s3 = signaling_tracks s
  ∧ emitted s3 = emitted s ++ [trackAdded t; trackRemoved t]
  ∧ timers s3 =
      timers s ++ (if decide (signaling_state s = "connected")
                   then [trackPublished p] else []).
Proof.
  intros Hreach Hreg Hhas Hsid Hfresh. cbv zeta.
  pose proof (reachable_quiescent s Hreach) as Hq.
  pose proof Hq as (Hok & _).
  pose proof (reachable_submitted s Hreach Hreg) as [_ Hpair].
  set (r := length (heap s)).
  set (l := {| l_promise := next_promise s; l_track := t; l_signaling := r |}).
  set (ts1 := {| ts_id := track_id t; ts_name := track_name t;
                 ts_error := None; ts_sid := None; ts_listeners := [l] |}).
  (* the publish *)
  assert (Hreach1 : reachable (exec (Call_publishTrack (VLocalTrack t) name) s))
    by by apply reachable_exec.
  pose proof (publishTrack_fresh_eq s t name
                (getTrackPublication_unregistered s t Hok Hhas) Hhas
                (listening_registered _ s Hreg)) as Heq1.
  simpl in Heq1. fold r l in Heq1.
  cbn [exec] in *.
  rewrite Heq1 in *. cbn [snd] in *.
  set (s1 := on_updated r l _) in *.
  assert (Hts1 : heap s1 !! r = Some ts1).
  { unfold s1. simpl. rewrite list_lookup_alter_eq, lookup_app_r by done.
    unfold r. by rewrite Nat.sub_diag. }
  assert (Hfields1 : tracks s1 = JsMap.set (tracks s) (track_id t) t
            ∧ signaling_tracks s1 = JsMap.set (signaling_tracks s) (track_id t) r
            ∧ trackPublications s1 = trackPublications s
            ∧ (∀ k, publishedKindTracks k s1 = publishedKindTracks k s)
            ∧ timers s1 = timers s
            ∧ trace s1 = trace s ++ [Emit (trackAdded t)]
            ∧ signaling_state s1 = signaling_state s
            ∧ handlers s1 = handlers s).
  { split_and!; first [done | by intros []]. }
  destruct Hfields1 as (Ht1 & Hs1 & Hp1 & Hk1 & Htm1 & Htr1 & Hst1 & Hh1).
  (* the identifier *)
  assert (Hperm : permitted (Signaling_sid r sid) s1).
  { split; [by exists ts1|]. intros r' ts' Hts'.
    destruct (decide (r' = r)) as [->|Hne].
    - rewrite Hts1 in Hts'. by simplify_eq.
    - unfold s1 in Hts'. simpl in Hts'.
      rewrite list_lookup_alter_ne in Hts' by done.
      apply lookup_app_Some in Hts' as [Hts'|[Hge Hts']].
      + by apply (Hfresh r' ts').
      + fold r in Hge, Hts'. destruct (r' - r) as [|d] eqn:Hd; [lia|].
        by destruct d. }
  assert (Hreach2 : reachable (exec (Signaling_sid r sid) s1))
    by by apply reachable_exec.
  pose proof (reachable_quiescent s1 Hreach1) as Hq1.
  destruct (setSid_facts s1 r ts1 sid Hq1 Hperm Hts1 eq_refl Hsid l [] eq_refl)
    as (_ & _ & Ht2 & Hs2 & Hp2 & Hnone2 & Hk2 & Htm2 & Htr2 & ts2 & Hts2 & Hnil2).
  set (s2 := setSid r sid s1) in *.
  change (l_track l) with t in *.
  change (ts_listeners ts1) with [l] in *.
  set (p := asLocalTrackPublication t sid) in *.
  pose proof (reachable_quiescent s2 Hreach2) as Hq2.
  (* the unpublish *)
  assert (Hlook2 : JsMap.get (tracks s2) (track_id t) = Some t).
  { by rewrite Ht2, Ht1, JsMapFacts.get_set_eq. }
  assert (Hrec2 : JsMap.get (signaling_tracks s2) (track_id t) = Some r).
  { by rewrite Hs2, Hs1, JsMapFacts.get_set_eq. }
  assert (Hfound : getTrackPublication (trackPublications s2) (VLocalTrack t)
                   = Some p).
  { rewrite Hp2, Hp1. apply getTrackPublication_set.
    - by apply getTrackPublication_unregistered.
    - by apply publication_of_LocalTrack. }
  destruct (unpublishTrack_registries s2 (VLocalTrack t) t r Hq2 eq_refl
              Hlook2 Hrec2) as (Hres & Ht3 & Hp3 & Hk3).
  rewrite Hfound in Hres, Hp3, Hk3.
  assert (Hlis2 : listening HLocalTrackRemoved s2 = true).
  { apply listening_registered.
    destruct (stable_setSid r sid s1) as (_ & Hh2 & _).
    unfold s2. by rewrite Hh2, Hh1. }
  destruct (unpublishTrack_settled s2 (VLocalTrack t) t r ts2 Hq2 Hlis2
              eq_refl Hlook2 Hrec2 Hts2 Hnil2) as (Hs3 & Htm3 & Hem3 & Hset3).
  assert (Hgone : JsMap.get (tracks s) (track_id t) = None).
  { unfold JsMap.has in Hhas. by destruct (JsMap.get (tracks s) (track_id t)). }
  assert (Hgone' : JsMap.get (signaling_tracks s) (track_id t) = None).
  { specialize (Hpair (track_id t)). rewrite Hhas in Hpair.
    unfold JsMap.has in Hpair.
    by destruct (JsMap.get (signaling_tracks s) (track_id t)). }
  rewrite Hp1 in Hnone2.
  split_and!.
  - done.
  - rewrite Hset3, (settlements_resolves s1 s2 p [l] _ Htr2). simpl.
    rewrite decide_True by done.
    assert (Hs : settlements (next_promise s) s1 = settlements (next_promise s) s).
    { unfold settlements. rewrite Htr1, omap_app. simpl. by rewrite app_nil_r. }
    rewrite Hs.
    destruct Hq as (_ & Hprom & _).
    by rewrite (promise_fresh s Hprom (next_promise s)).
  - rewrite Ht3, Ht2, Ht1. by apply delete_set_absent.
  - rewrite Hp3, Hp2, Hp1. simpl. by apply delete_set_absent.
  - intros k.
    assert (Hkn : JsMap.get (publishedKindTracks k s) sid = None).
    { destruct (JsMap.get (publishedKindTracks k s) sid) as [q|] eqn:Hq';
        [|done].
      destruct (kind_in_flat s Hok k sid q Hq') as [Hflat _]. congruence. }
    rewrite Hk3, Hk2, Hk1. simpl.
    repeat case_decide; try done; by apply delete_set_absent.
  - rewrite Hs3, Hs2, Hs1. by apply delete_set_absent.
  - rewrite Hem3, (emitted_resolves s1 s2 p [l] Htr2).
    unfold emitted. rewrite Htr1, omap_app. simpl.
    by rewrite <- (assoc_L (++)).
  - rewrite Htm3, Htm2, Htm1, Hst1. by destruct (decide _).
Qed.

Lemma publish_acknowledge_unpublish_witness :
  let s := LocalParticipant "connected" [] false in
  let t := trackA in
  let sid := "TR123" in
  let p := {| pub_track := t; trackSid := sid |} in
  let s1 := exec (Call_publishTrack (VLocalTrack t) None) s in
  let s2 := exec (Signaling_sid (length (heap s)) sid) s1 in
  let s3 := exec (Call_unpublishTrack (VLocalTrack t)) s2 in
  fst (unpublishTrack (VLocalTrack t) s2) = Return (Some p)
  ∧ settlements (next_promise s) s3 = [Resolved p]
  ∧ tracks s3 = tracks s
  ∧ trackPublications s3 = trackPublications s
  ∧ (∀ k, publishedKindTracks k s3 = publishedKindTracks k s)
  ∧ signaling_tracks s3 = signaling_tracks s
  ∧ emitted s3 = emitted s ++ [trackAdded t; trackRemoved t]
  ∧ timers s3 =
      timers s ++ (if decide (signaling_state s = "connected")
                   then [trackPublished p] else []).
Proof.
  apply (publish_acknowledge_unpublish (LocalParticipant "connected" [] false)
           trackA None "TR123").
  - apply reachable_new.
  - reflexivity.
  - reflexivity.
  - discriminate.
  - intros r ts Hts. vm_compute in Hts. discriminate.
Defined.

(** ** Encoding parameters *)

(** X20. [setParameters] forwards to the signaling collaborator exactly
    when the argument is undefined, null, or an object whose
    [maxAudioBitrate] and [maxVideoBitrate] are each a number, null or
    undefined, and throws otherwise, forwarding nothing. What it forwards
    is the argument itself, except that null is forwarded as an object
    with both limits null; a forwarded object never carries a limit of
    another type, and forwarding what was forwarded changes nothing. *)
Theorem setParameters_forwards_valid {number : Type}
    (encodingParameters : EncodingParameters number) :
  let valid :=
    match encodingParameters with
    | EUndefined | ENull => True
    | EObject maxAudioBitrate maxVideoBitrate =>
        maxAudioBitrate ≠ LOther ∧ maxVideoBitrate ≠ LOther
    | EOther => False
    end in
  ((∃ forwarded, setParameters encodingParameters = Return forwarded) ↔ valid)
  ∧ ∀ forwarded,
      setParameters encodingParameters = Return forwarded →
      forwarded =
        match encodingParameters with
        | ENull => EObject LNull LNull
        | _ => encodingParameters
        end
      ∧ get_limit forwarded "maxAudioBitrate" ≠ LOther
      ∧ get_limit forwarded "maxVideoBitrate" ≠ LOther
      ∧ setParameters forwarded = Return forwarded.
Proof.
  destruct encodingParameters as [| |a v|]; simpl.
  - split; [naive_solver|]. intros ? [= <-]. by split_and!.
  - split; [naive_solver|]. intros ? [= <-]. by split_and!.
  - destruct a, v; simpl; split; try naive_solver;
      intros ? [= <-]; by split_and!.
  - split; [naive_solver|]. by intros ? [=].
Qed.

(** X21. [setParameters] names what it rejects: an argument that is
    neither undefined nor of type 'object' is rejected as
    [encodingParameters]; an object is rejected for [maxAudioBitrate] when
    that limit has a wrong type, whatever [maxVideoBitrate] is, and for
    [maxVideoBitrate] only when [maxAudioBitrate] is acceptable. No other
    error is ever thrown. *)
Theorem setParameters_names_the_culprit {number : Type}
    (encodingParameters : EncodingParameters number) (e : Error) :
  setParameters encodingParameters = Throw e ↔
    match encodingParameters with
    | EOther =>
        e = INVALID_TYPE "encodingParameters"
              "EncodingParameters, null or undefined"
    | EObject LOther _ =>
        e = INVALID_TYPE "encodingParameters.maxAudioBitrate"
              "number, null or undefined"
    | EObject _ LOther =>
        e = INVALID_TYPE "encodingParameters.maxVideoBitrate"
              "number, null or undefined"
    | _ => False
    end.
Proof.
  destruct encodingParameters as [| |a v|]; simpl; try naive_solver.
  destruct a, v; simpl; naive_solver.
Qed.

(** ** Construction *)


(** ** The deprecated [addTrack] *)

(** X23. [addTrack] throws only the invalid-type error, only for a value
    that is no track, and then changes nothing: the promise it gets from
    [publishTrack] always has a [catch]. It returns null only when it has
    changed nothing, because the identity is registered already or a
    publication exists already. Otherwise it returns the track that is
    now registered under the argument's identity, the argument itself if
    that is a LocalTrack, after one trackAdded, and it does so even when
    the publish it started was rejected, since the rejection is
    swallowed. *)
Theorem addTrack_outcomes (s : State) (track : Value) :
  let s' := snd (addTrack track s) in
  match fst (addTrack track s) with
  | Throw e =>
      e = INVALID_TYPE "track" track_types
      ∧ is_track_type track = false ∧ s' = s
  | Return None =>
      is_track_type track = true ∧ s' = s
      ∧ (tracks_has track s = true
         ∨ getTrackPublication (trackPublications s) track ≠ None)
  | Return (Some t) =>
      is_track_type track = true
      ∧ tracks_has track s = false
      ∧ tracks_get track s' = Some t
      ∧ (∀ t0, track = VLocalTrack t0 → t = t0)
      ∧ emitted s' = emitted s ++ [trackAdded t]
  end.
Proof.
  cbv zeta. unfold addTrack, bind, gets. rewrite validateLocalTrack_eq.
  destruct (is_track_type track) eqn:Htype; [|done].
  destruct (tracks_has track s) eqn:Hhas; [simpl; auto|].
  destruct (publishTrack_unregistered_promise track None s Htype Hhas)
    as [(p & Hres & Hs & Hpub)|(Hnone & (t & Hget & Hsame & Htrace) & Hres)].
  - destruct (publishTrack track None s) as [c s1]. simpl in *. subst.
    simpl. unfold tracks_get, tracks_has in *.
    pose proof Htype as [i Hi]%value_id_track_type.
    rewrite Hi in *. simpl in *.
    unfold JsMap.has in Hhas.
    destruct (JsMap.get (tracks s) i) eqn:Hgi; [done|].
    split_and!; [done|done|]. right. by rewrite Hpub.
  - destruct (publishTrack track None s) as [c s1]. simpl in *.
    assert (Hem : emitted s1 = emitted s ++ [trackAdded t]).
    { unfold emitted. by rewrite Htrace, omap_app. }
    destruct Hres as [[n ->]|[e ->]]; simpl; rewrite Hget; by split_and!.
Qed.

(** ** The deprecated [addTracks] *)

(** X24. [addTracks] throws the invalid-type error for a value that is no
    array, and a TypeError when the array holds [undefined] or [null],
    raised by reading [id] from the first such element; in both cases
    nothing was published before. For any other array it never throws: it
    returns one entry per element whose [id] was no key of the Track
    Registry when it was called, in order, namely what the Track Registry
    holds under that [id] afterwards; the elements whose [id] was a key
    already are left out. An element that is no track is not refused: if
    it has no [id], its entry is undefined. The call creates no
    publication and schedules nothing. *)
Theorem addTracks_outcomes (s : State) (tracks : Value) :
  let s' := snd (addTracks tracks s) in
  match tracks with
  | VArray elements =>
      match unreadable elements with
      | Some e => addTracks tracks s = (Throw e, s)
      | None =>
          fst (addTracks tracks s) =
            Return (map (λ track, tracks_get track s')
                      (filter (λ track, tracks_has track s = false) elements))
          ∧ (∀ track, value_id track = None → tracks_get track s' = None)
          ∧ trackPublications s' = trackPublications s
          ∧ timers s' = timers s
      end
  | _ => addTracks tracks s = (Throw (INVALID_TYPE "tracks" array_types), s)
  end.
Proof.
  cbv zeta. destruct tracks as [| | | |elements| |]; try done.
  unfold addTracks, bind, gets. rewrite filter_absent_eq.
  destruct (unreadable elements); [done|].
  set (filtered := filter _ elements).
  destruct (publishTracks_array filtered s) as [Hsnd Hfst].
  destruct (map_publishTrack_results filtered s)
    as (rs & Hrs & _ & Hp & Htm & _).
  rewrite Hrs in Hfst. rewrite <- Hsnd in Hp, Htm.
  destruct (publishTracks (VArray filtered) s) as [c s1].
  simpl in *. subst c. simpl. split_and!; try done.
  intros track Hid. unfold tracks_get. by rewrite Hid.
Qed.

(** An element that is no track but has the [id] of a track published by
    the same call yields that track. *)
Example addTracks_object_with_id :
  fst (addTracks (VArray [VObject "mic-1"; VLocalTrack trackA]) joining)
    = Return [Some trackA; Some trackA]
  ∧ fst (addTracks (VArray [VOther 0; VLocalTrack trackA]) joining)
    = Return [None; Some trackA]
  ∧ fst (addTracks (VArray [VLocalTrack trackA; VNull; VUndefined]) joining)
    = Throw (TypeError "Cannot read property 'id' of null").
Proof. vm_compute. by split_and!. Qed.

(** ** After the teardown *)

(** X25. Once the participant has no listener (after the teardown, or
    when it was constructed on a disconnected channel), it never gets one
    again and the signaling collaborator is never told of a track again:
    whatever is called or reported afterwards, no operation changes the
    collaborator's lookup of tracks. A track published then is registered
    without a record, and a track unpublished then keeps its record. *)
Theorem signaling_untouched_after_teardown (s : State) (ops : list Op) :
  handlers s = [] →
  let s' := fold_left (λ s op, exec op s) ops s in
  handlers s' = [] ∧ signaling_tracks s' = signaling_tracks s.
Proof.
  intros Hh. cbv zeta.
  apply (closure_fold deaf deaf_refl deaf_trans (λ s op, exec op s) ops);
    [|done].
  intros s0 op. apply deaf_exec.
Qed.

Lemma signaling_untouched_after_teardown_witness :
  let s := exec (Signaling_state "disconnected") publishedA in
  let ops := [Call_unpublishTrack (VLocalTrack trackA);
              Call_publishTrack (VLocalTrack trackB) None] in
  let s' := fold_left (λ s op, exec op s) ops s in
  handlers s' = [] ∧ signaling_tracks s' = signaling_tracks s.
Proof.
  apply (signaling_untouched_after_teardown
           (exec (Signaling_state "disconnected") publishedA)
           [Call_unpublishTrack (VLocalTrack trackA);
            Call_publishTrack (VLocalTrack trackB) None]).
  vm_compute. reflexivity.
Defined.

(** ** A MediaStreamTrack published twice *)

(** X26. Until the teardown, publishing the same MediaStreamTrack a second
    time while the first publish is pending registers no second track:
    the LocalTrack that the second call constructs (with the second
    call's options) is dropped, the promise of the second call waits on
    the record of the LocalTrack that the first call constructed and
    registered, next to the first promise, and no second trackAdded is
    emitted. *)
Theorem publishTrack_same_mediaStreamTrack_twice (s s0 : State)
    (m : MediaStreamTrack) (name again : option string) (t : LocalTrack) :
  reachable s →
  handlers s = registered_handlers →
  JsMap.has (tracks s) (mst_id m) = false →
  getTrackPublication (trackPublications s) (VMediaStreamTrack m) = None →
  asLocalTrack (VMediaStreamTrack m) name s = (Return t, s0) →
  let r := length (heap s) in
  let s1 := snd (publishTrack (VMediaStreamTrack m) name s) in
  let s2 := snd (publishTrack (VMediaStreamTrack m) again s1) in
  fst (publishTrack (VMediaStreamTrack m) name s)
    = Return (NewPromise (next_promise s))
  ∧ fst (publishTrack (VMediaStreamTrack m) again s1)
    = Return (NewPromise (S (next_promise s)))
  ∧ mediaStreamTrack t = Some m
  ∧ JsMap.get (tracks s1) (mst_id m) = Some t
  ∧ tracks s2 = tracks s1
  ∧ emitted s1 = emitted s ++ [trackAdded t]
  ∧ emitted s2 = emitted s1
  ∧ heap s2 !! r =
      Some {| ts_id := track_id t; ts_name := track_name t;
              ts_error := None; ts_sid := None;
              ts_listeners :=
                [{| l_promise := next_promise s; l_track := t;
                    l_signaling := r |};
                 {| l_promise := S (next_promise s); l_track := t;
                    l_signaling := r |}] |}.
Proof.
  intros Hreach Hreg Hhas Hnone Has. cbv zeta.
  pose proof (reachable_quiescent s Hreach) as (Hok & _).
  assert (Hid : track_id t = mst_id m) by (simpl in Has; by simplify_eq).
  assert (Hnone' : getTrackPublication (trackPublications s) (VLocalTrack t)
                   = None).
  { apply getTrackPublication_unregistered; [done|]. by rewrite Hid. }
  destruct (publishTrack_constructed_eq s m name t s0 Has Hnone Hnone' Hhas
              (listening_registered _ s Hreg)) as (_ & Hm & Heq1).
  rewrite Heq1. cbn [fst snd].
  set (r := length (heap s)).
  set (l := {| l_promise := next_promise s; l_track := t; l_signaling := r |}).
  set (s1 := on_updated r l _).
  assert (Hs0 : tracks s0 = tracks s ∧ trace s0 = trace s ∧ heap s0 = heap s
                ∧ trackPublications s0 = trackPublications s
                ∧ signaling_tracks s0 = signaling_tracks s).
  { simpl in Has. by simplify_eq. }
  destruct Hs0 as (Ht0 & Htr0 & Hh0 & Hp0 & Hsig0).
  assert (Hget1 : JsMap.get (tracks s1) (mst_id m) = Some t).
  { unfold s1. simpl. by rewrite Hid, JsMapFacts.get_set_eq. }
  assert (Hrec1 : JsMap.get (signaling_tracks s1) (mst_id m) = Some r).
  { unfold s1. simpl. rewrite Hid, JsMapFacts.get_set_eq, Hh0. done. }
  assert (Hp1 : trackPublications s1 = trackPublications s).
  { unfold s1. simpl. done. }
  rewrite (publishTrack_constructed_again_eq s1 m again t r);
    [|by rewrite Hp1|done|done|by rewrite Hp1|done].
  cbn [fst snd].
  split_and!; try done.
  - unfold emitted, s1. simpl. by rewrite Htr0, omap_app.
  - unfold s1. simpl. rewrite !list_lookup_alter_eq.
    rewrite Hh0, lookup_app_r by done. unfold r.
    by rewrite Nat.sub_diag.
Qed.

Lemma publishTrack_same_mediaStreamTrack_twice_witness :
  let s := joining in
  let m := microphone in
  let name := Some "mic" in
  let again := Some "other" in
  let t := {| track_ref := 0; track_id := "mic-1"; track_kind := audio;
              track_name := "mic"; mediaStreamTrack := Some microphone |} in
  let r := length (heap s) in
  let s1 := snd (publishTrack (VMediaStreamTrack m) name s) in
  let s2 := snd (publishTrack (VMediaStreamTrack m) again s1) in
  fst (publishTrack (VMediaStreamTrack m) name s)
    = Return (NewPromise (next_promise s))
  ∧ fst (publishTrack (VMediaStreamTrack m) again s1)
    = Return (NewPromise (S (next_promise s)))
  ∧ mediaStreamTrack t = Some m
  ∧ JsMap.get (tracks s1) (mst_id m) = Some t
  ∧ tracks s2 = tracks s1
  ∧ emitted s1 = emitted s ++ [trackAdded t]
  ∧ emitted s2 = emitted s1
  ∧ heap s2 !! r =
      Some {| ts_id := track_id t; ts_name := track_name t;
              ts_error := None; ts_sid := None;
              ts_listeners :=
                [{| l_promise := next_promise s; l_track := t;
                    l_signaling := r |};
                 {| l_promise := S (next_promise s); l_track := t;
                    l_signaling := r |}] |}.
Proof.
  apply (publishTrack_same_mediaStreamTrack_twice joining
           (with_next_ref 1 joining) microphone (Some "mic") (Some "other")).
  - apply reachable_new.
  - reflexivity.
  - reflexivity.
  - reflexivity.
  - reflexivity.
Defined.
